(** * A* search over a Sokoban state space: model and properties

    Shallow embedding of [a_star.py], [sokoban.py] and [heuristics.py].

    Conventions of the embedding.
    - Python [int] is [Z]; [len] results are [nat] injected into [Z].
    - Path costs are Python floats that only ever hold sums of the step
      costs; they are modelled as [Z] (exact for the integral values the
      puzzle produces).  Heuristic values and [f = g + h] may be
      [float('inf')], so they live in [ext], the integers with a top
      element.  Wall-clock readings and the average branching factor are
      floats modelled as rationals [Q].
    - A Python exception is [None] in an [option], or [Raised] in a solver
      outcome.
    - A [set]/[dict] keyed by objects with [__hash__]/[__eq__] is a
      [gset]/[gmap] over the key those methods compare. *)

From Stdlib Require Import ZArith QArith Ascii.
From stdpp Require Import gmap strings list fin_maps.

Local Open Scope Z_scope.
Set Warnings "-register-all,-notation-for-abbreviation,-clear-no-such-hyp".

(** ** Numbers with infinity (Python floats holding integers or [inf]) *)

Inductive ext : Type :=
  | Fin (z : Z)
  | Inf.

Global Instance ext_eq_dec : EqDecision ext.
Proof. solve_decision. Defined.

(** [a < b] on floats without NaN. *)
Definition ext_ltb (a b : ext) : bool :=
  match a, b with
  | Fin x, Fin y => x <? y
  | Fin _, Inf => true
  | Inf, _ => false
  end.

Definition ext_add (a b : ext) : ext :=
  match a, b with
  | Fin x, Fin y => Fin (x + y)
  | _, _ => Inf
  end.

(** ** The [heapq] module on a Python list

    The three entry points used by the solver, written as in the library:
    the list is an array, [_siftdown] and [_siftup] move a hole through it.
    [lt] is the [<] of the stored items. *)

Module heapq.
Section Heapq.
Context {A : Type}.
Variable lt : A → A → bool.

(** The [while pos > startpos] loop of [_siftdown]; [pos] strictly
      decreases, so [pos] iterations are enough. *)
Fixpoint _siftdown_loop (n : nat) (heap : list A) (startpos pos : nat)
      (newitem : A) : list A :=
    match n with
    | O => <[pos := newitem]> heap
    | S n' =>
        if decide (startpos < pos)%nat then
          let parentpos := ((pos - 1) / 2)%nat in
          match heap !! parentpos with
          | Some parent =>
              if lt newitem parent
              then _siftdown_loop n' (<[pos := parent]> heap) startpos parentpos newitem
              else <[pos := newitem]> heap
          | None => <[pos := newitem]> heap
          end
        else <[pos := newitem]> heap
    end.

Definition _siftdown (heap : list A) (startpos pos : nat) : list A :=
    match heap !! pos with
    | Some newitem => _siftdown_loop pos heap startpos pos newitem
    | None => heap
    end.

(** The [while childpos < endpos] loop of [_siftup]: bubbles the smaller
      child up until a leaf is hit, and returns the list with the final
      hole position. *)
Fixpoint _siftup_loop (n : nat) (heap : list A) (pos : nat) : list A * nat :=
    match n with
    | O => (heap, pos)
    | S n' =>
        let endpos := length heap in
        let childpos := (2 * pos + 1)%nat in
        if decide (childpos < endpos)%nat then
          let rightpos := (childpos + 1)%nat in
          let childpos' :=
            match heap !! childpos, heap !! rightpos with
            | Some c, Some r => if negb (lt c r) then rightpos else childpos
            | _, _ => childpos
            end in
          match heap !! childpos' with
          | Some c => _siftup_loop n' (<[pos := c]> heap) childpos'
          | None => (heap, pos)
          end
        else (heap, pos)
    end.

Definition _siftup (heap : list A) (pos : nat) : list A :=
    match heap !! pos with
    | Some newitem =>
        let '(heap', pos') := _siftup_loop (length heap) heap pos in
        _siftdown (<[pos' := newitem]> heap') pos pos'
    | None => heap
    end.

(** [heappush(heap, item)] *)
Definition heappush (heap : list A) (item : A) : list A :=
    _siftdown (heap ++ [item]) 0 (length heap).

(** [heappop(heap)]; [None] is the [IndexError] on an empty list. *)
Definition heappop (heap : list A) : option (A * list A) :=
    match last heap with
    | None => None
    | Some lastelt =>
        let heap' := removelast heap in
        match heap' with
        | [] => Some (lastelt, [])
        | returnitem :: _ => Some (returnitem, _siftup (<[0%nat := lastelt]> heap') 0)
        end
    end.

(** [heapify(x)]: [for i in reversed(range(n//2)): _siftup(x, i)] *)
Definition heapify (x : list A) : list A :=
    foldl _siftup x (rev (seq 0 (length x / 2))).

End Heapq.
End heapq.

(** The heap invariant of [heapq]: the items at [2p+1] and [2p+2] are the
    children of the item at [p], and from index [k] on no child is smaller
    than its parent.  [heap_from lt 0] is a heap. *)
Definition heap_child (p c : nat) : Prop :=
  c = (2 * p + 1)%nat ∨ c = (2 * p + 2)%nat.

Definition heap_from {A : Type} (lt : A → A → bool) (k : nat) (l : list A) : Prop :=
  ∀ p c y x,
    (k ≤ p)%nat → heap_child p c → l !! p = Some y → l !! c = Some x → lt x y = false.

(** The indices of the subtree at [k]. *)
Inductive below (k : nat) : nat → Prop :=
  | below_root : below k k
  | below_child p c : below k p → heap_child p c → below k c.

(** ** [a_star.py] *)

Module a_star.

(** The [AStarMetrics] dataclass.  [total_time] and [avg_branching_factor]
    are floats. *)
Record AStarMetrics : Type := mkMetrics {
  nodes_expanded : Z;
  nodes_generated : Z;
  max_frontier_size : Z;
  max_memory_nodes : Z;
  total_time : Q;
  solution_length : Z;
  success : bool;
  timeout : bool;
  avg_branching_factor : Q
}.

(** [AStarMetrics()]: every field at its default. *)
Definition AStarMetrics_default : AStarMetrics :=
  mkMetrics 0 0 0 0 (0%Q) 0 false false (0%Q).

(** Attribute assignments [metrics.field = v]. *)
Definition set_nodes_expanded (v : Z) (m : AStarMetrics) : AStarMetrics :=
  mkMetrics v (nodes_generated m) (max_frontier_size m) (max_memory_nodes m)
    (total_time m) (solution_length m) (success m) (timeout m) (avg_branching_factor m).
Definition set_nodes_generated (v : Z) (m : AStarMetrics) : AStarMetrics :=
  mkMetrics (nodes_expanded m) v (max_frontier_size m) (max_memory_nodes m)
    (total_time m) (solution_length m) (success m) (timeout m) (avg_branching_factor m).
Definition set_max_frontier_size (v : Z) (m : AStarMetrics) : AStarMetrics :=
  mkMetrics (nodes_expanded m) (nodes_generated m) v (max_memory_nodes m)
    (total_time m) (solution_length m) (success m) (timeout m) (avg_branching_factor m).
Definition set_max_memory_nodes (v : Z) (m : AStarMetrics) : AStarMetrics :=
  mkMetrics (nodes_expanded m) (nodes_generated m) (max_frontier_size m) v
    (total_time m) (solution_length m) (success m) (timeout m) (avg_branching_factor m).
Definition set_total_time (v : Q) (m : AStarMetrics) : AStarMetrics :=
  mkMetrics (nodes_expanded m) (nodes_generated m) (max_frontier_size m) (max_memory_nodes m)
    v (solution_length m) (success m) (timeout m) (avg_branching_factor m).
Definition set_solution_length (v : Z) (m : AStarMetrics) : AStarMetrics :=
  mkMetrics (nodes_expanded m) (nodes_generated m) (max_frontier_size m) (max_memory_nodes m)
    (total_time m) v (success m) (timeout m) (avg_branching_factor m).
Definition set_success (v : bool) (m : AStarMetrics) : AStarMetrics :=
  mkMetrics (nodes_expanded m) (nodes_generated m) (max_frontier_size m) (max_memory_nodes m)
    (total_time m) (solution_length m) v (timeout m) (avg_branching_factor m).
Definition set_timeout (v : bool) (m : AStarMetrics) : AStarMetrics :=
  mkMetrics (nodes_expanded m) (nodes_generated m) (max_frontier_size m) (max_memory_nodes m)
    (total_time m) (solution_length m) (success m) v (avg_branching_factor m).
Definition set_avg_branching_factor (v : Q) (m : AStarMetrics) : AStarMetrics :=
  mkMetrics (nodes_expanded m) (nodes_generated m) (max_frontier_size m) (max_memory_nodes m)
    (total_time m) (solution_length m) (success m) (timeout m) v.

(** [x > y] on the floats of the clock. *)
Definition Qgtb (x y : Q) : bool := (Qnum y * QDen x <? Qnum x * QDen y)%Z.

(** [sum(xs) / len(xs)] *)
Definition average (xs : list Z) : Q :=
  (inject_Z (foldl Z.add 0%Z xs) / inject_Z (Z.of_nat (length xs)))%Q.

Section AStar.
(** The engine is duck-typed over the problem.  [State] and [Action] are
    whatever the problem hands out; [key] is what [State.__hash__] and
    [State.__eq__] compare, and [truthy] is [bool(action)]. *)
Context {State Action K : Type} `{Countable K}.
Variable key : State → K.
Variable truthy : Action → bool.

(** The four methods the solver calls on [problem].  [None] stands for an
    exception raised by [actions] or [result]. *)
Record Problem : Type := mkProblem {
  get_initial_state : State;
  goal_test : State → bool;
  actions : State → option (list Action);
  result : State → Action → option (State * Z)
}.

(** [class Node]: the search tree node, linked to its parent. *)
Inductive Node : Type := mkNode {
  state : State;
  parent : option Node;
  action : option Action;
  g : Z
}.

(** [Node.__init__(state, parent, action, cost)]: [self.g = cost], and
    [self.g += parent.g] when there is a parent (a [Node] is always truthy). *)
Definition Node_init (s : State) (p : option Node) (a : option Action) (cost : Z) : Node :=
  mkNode s p a (match p with Some q => cost + g q | None => cost end).

(** The frontier holds tuples [(f, node)].  Tuple [<] compares the [f]
    first and, when they are equal, falls back on [Node.__lt__], which
    compares [g].  (Two distinct tuples in the heap never hold the same
    node object, so the identity shortcut of tuple comparison is never
    taken.) *)
Definition entry : Type := (ext * Node)%type.

Definition entry_lt (a b : entry) : bool :=
  if decide (a.1 = b.1) then g a.2 <? g b.2 else ext_ltb a.1 b.1.

(** The [AStarSolver] object: the heuristic and the metrics record created
    in [__init__] and shared by every call of [solve]. *)
Record AStarSolver : Type := mkSolver {
  heuristic : State → ext;
  metrics : AStarMetrics
}.

(** [AStarSolver.__init__(heuristic_func)] *)
Definition AStarSolver_init (heuristic_func : State → ext) : AStarSolver :=
  mkSolver heuristic_func AStarMetrics_default.

(** The local variables of [solve] that live across loop iterations,
    together with [self.metrics] and the number of [time.time()] calls made
    so far. *)
Record search : Type := mkSearch {
  frontier : list entry;
  frontier_states : gmap K (Z * ext);
  explored : gset K;
  self_metrics : AStarMetrics;
  branching_factors : list Z;
  clock_reads : nat
}.

Definition with_metrics (f : AStarMetrics → AStarMetrics) (st : search) : search :=
  mkSearch (frontier st) (frontier_states st) (explored st) (f (self_metrics st))
    (branching_factors st) (clock_reads st).

Variable heuristic_func : State → ext.
Variable problem : Problem.
(** [clock n] is the value of the [n]-th call of [time.time()] made by
    [solve]; [timeout_budget] is the [timeout] argument. *)
Variable clock : nat → Q.
Variable timeout_budget : Q.

(** [_f(node, problem)]: [node.g + self.heuristic(node.state)] *)
Definition _f (node : Node) : ext :=
  ext_add (Fin (g node)) (heuristic_func (state node)).

(** [_remove_from_frontier(frontier, frontier_states, state)]: the first
    entry whose node holds [state] is overwritten by the last entry, the
    last slot is popped, the list is heapified and the index entry deleted.
    [None] is the [KeyError] of [del] on a missing key. *)
Definition _remove_from_frontier (fr : list entry) (fs : gmap K (Z * ext)) (s : State)
    : option (list entry * gmap K (Z * ext)) :=
  match list_find (λ e : entry, key (state e.2) = key s) fr with
  | Some (i, _) =>
      match last fr with
      | Some lastelt =>
          let fr' := heapq.heapify entry_lt (removelast (<[i := lastelt]> fr)) in
          match fs !! key s with
          | Some _ => Some (fr', delete (key s) fs)
          | None => None
          end
      | None => Some (fr, fs)
      end
  | None => Some (fr, fs)
  end.

(** [_extract_solution(goal_node)], before the two [reverse()] calls: the
    states and the truthy actions met while walking the parent links. *)
Fixpoint walk_parents (current : Node) : list State * list Action :=
  let '(path, acts) :=
    match parent current with
    | Some p => walk_parents p
    | None => ([], [])
    end in
  (state current :: path,
   match action current with
   | Some a => if truthy a then a :: acts else acts
   | None => acts
   end).

Definition _extract_solution (goal_node : Node) : list State * list Action :=
  let '(path, acts) := walk_parents goal_node in (rev path, rev acts).

(** The body of [for action in actions] for the popped [node]. *)
Definition handle_action (node : Node) (st : search) (a : Action) : option search :=
  match result problem (state node) a with
  | None => None
  | Some (child_state, step_cost) =>
      let child_node := Node_init child_state (Some node) (Some a) step_cost in
      let st := with_metrics (λ m, set_nodes_generated (nodes_generated m + 1) m) st in
      if decide (key child_state ∈ explored st) then Some st
      else
        let child_f := _f child_node in
        match frontier_states st !! key child_state with
        | Some (frontier_g, frontier_f) =>
            if g child_node <? frontier_g then
              match _remove_from_frontier (frontier st) (frontier_states st) child_state with
              | None => None
              | Some (fr, fs) =>
                  Some (mkSearch (heapq.heappush entry_lt fr (child_f, child_node))
                          (<[key child_state := (g child_node, child_f)]> fs)
                          (explored st) (self_metrics st) (branching_factors st)
                          (clock_reads st))
              end
            else Some st
        | None =>
            let fr := heapq.heappush entry_lt (frontier st) (child_f, child_node) in
            Some (mkSearch fr
                    (<[key child_state := (g child_node, child_f)]> (frontier_states st))
                    (explored st)
                    (set_max_frontier_size
                       (Z.max (max_frontier_size (self_metrics st)) (Z.of_nat (length fr)))
                       (self_metrics st))
                    (branching_factors st) (clock_reads st))
        end
  end.

(** The [for] loop: stops at the first exception. *)
Fixpoint handle_actions (node : Node) (st : search) (acts : list Action) : option search :=
  match acts with
  | [] => Some st
  | a :: acts' =>
      match handle_action node st a with
      | Some st' => handle_actions node st' acts'
      | None => None
      end
  end.

(** How the [while] loop is left (the engine's final states). *)
Inductive exit : Type :=
  | Succeeded (goal_node : Node)
  | Exhausted
  | TimedOut.

Inductive step_result : Type :=
  | Continue (st : search)
  | Stop (e : exit) (st : search)
  | Raised.

(** [time.time() - start_time], reading the clock once; [start_time] is
    the first reading. *)
Definition elapsed (st : search) : Q := (clock (clock_reads st) - clock 0)%Q.

Definition tick (st : search) : search :=
  mkSearch (frontier st) (frontier_states st) (explored st) (self_metrics st)
    (branching_factors st) (S (clock_reads st)).

(** One iteration of [while frontier], entered with a non-empty frontier. *)
Definition iteration (st : search) : step_result :=
  let t := elapsed st in
  let st := tick st in
  if Qgtb t timeout_budget then
    let st := with_metrics (set_timeout true) st in
    let st := tick (with_metrics (set_total_time (elapsed st)) st) in
    Stop TimedOut st
  else
    let current_memory := Z.of_nat (length (frontier st)) + Z.of_nat (size (explored st)) in
    let st := with_metrics
                (λ m, set_max_memory_nodes (Z.max (max_memory_nodes m) current_memory) m) st in
    match heapq.heappop entry_lt (frontier st) with
    | None => Raised
    | Some ((f, node), fr) =>
        match frontier_states st !! key (state node) with
        | None => Raised
        | Some _ =>
            let st := mkSearch fr (delete (key (state node)) (frontier_states st))
                        (explored st)
                        (set_nodes_expanded (nodes_expanded (self_metrics st) + 1)
                           (self_metrics st))
                        (branching_factors st) (clock_reads st) in
            if goal_test problem (state node) then
              let st := with_metrics (set_success true) st in
              let st := tick (with_metrics (set_total_time (elapsed st)) st) in
              let '(path, acts) := _extract_solution node in
              let st := with_metrics (set_solution_length (Z.of_nat (length acts))) st in
              let st :=
                match branching_factors st with
                | [] => st
                | _ :: _ =>
                    with_metrics (set_avg_branching_factor (average (branching_factors st))) st
                end in
              Stop (Succeeded node) st
            else
              let st := mkSearch (frontier st) (frontier_states st)
                          ({[key (state node)]} ∪ explored st)
                          (self_metrics st) (branching_factors st) (clock_reads st) in
              match actions problem (state node) with
              | None => Raised
              | Some acts =>
                  let st := mkSearch (frontier st) (frontier_states st) (explored st)
                              (self_metrics st)
                              (branching_factors st ++ [Z.of_nat (length acts)])
                              (clock_reads st) in
                  match handle_actions node st acts with
                  | Some st' => Continue st'
                  | None => Raised
                  end
              end
        end
    end.

(** What a run of the loop amounts to.  The loop need not terminate (the
    state space may be infinite and the clock is arbitrary), so it is run
    on [fuel] iterations. *)
Inductive run_result : Type :=
  | Done (e : exit) (st : search)
  | Raise
  | OutOfFuel.

Fixpoint search_loop (fuel : nat) (st : search) : run_result :=
  match frontier st with
  | [] =>
      Done Exhausted (tick (with_metrics (set_total_time (elapsed st)) st))
  | _ :: _ =>
      match fuel with
      | O => OutOfFuel
      | S fuel' =>
          match iteration st with
          | Continue st' => search_loop fuel' st'
          | Stop e st' => Done e st'
          | Raised => Raise
          end
      end
  end.

(** The statements of [solve] before the loop, on the metrics object [m]
    the solver holds when [solve] is called. *)
Definition init_search (m : AStarMetrics) : search :=
  let initial_state := get_initial_state problem in
  let initial_node := Node_init initial_state None None 0 in
  let initial_f := _f initial_node in
  mkSearch (heapq.heappush entry_lt [] (initial_f, initial_node))
    {[key initial_state := (g initial_node, initial_f)]}
    ∅
    (set_max_memory_nodes 1 (set_max_frontier_size 1 (set_nodes_generated 1 m)))
    []
    1.

Definition run (fuel : nat) (m : AStarMetrics) : run_result :=
  search_loop fuel (init_search m).

(** What the caller of [solve] gets: the returned triple, an exception, or
    nothing within [fuel] iterations.  The returned metrics is the very
    object [self.metrics], so it is also what the next call starts from. *)
Inductive outcome : Type :=
  | Returned (path : option (list State)) (acts : option (list Action)) (m : AStarMetrics)
  | Raises
  | Diverges.

Definition to_outcome (r : run_result) : outcome :=
  match r with
  | Done (Succeeded node) st =>
      let '(path, acts) := _extract_solution node in
      Returned (Some path) (Some acts) (self_metrics st)
  | Done _ st => Returned None None (self_metrics st)
  | Raise => Raises
  | OutOfFuel => Diverges
  end.

End AStar.

(** [solver.solve(problem, timeout)] *)
Definition solve {State Action K : Type} `{Countable K}
    (key : State → K) (truthy : Action → bool)
    (self : AStarSolver) (problem : Problem) (timeout_budget : Q)
    (clock : nat → Q) (fuel : nat) : outcome :=
  to_outcome truthy
    (run key truthy (heuristic self) problem clock timeout_budget fuel (metrics self)).

End a_star.

(** ** Python strings

    A [str] is a sequence of code points; the level glyphs include
    characters outside ASCII, so a string is a list of code point numbers. *)

Definition pystr : Type := list N.

(** An ASCII literal as a [str]. *)
Definition str (s : string) : pystr :=
  map Ascii.N_of_ascii (String.list_ascii_of_string s).

(** [ord] of an ASCII character. *)
Definition ord (a : ascii) : N := Ascii.N_of_ascii a.

(** [c.isspace()]: the code points [str.strip] removes. *)
Definition isspace (c : N) : bool :=
  ((9 <=? c) && (c <=? 13) || (28 <=? c) && (c <=? 32) || (c =? 133) || (c =? 160)
   || (c =? 5760) || (8192 <=? c) && (c <=? 8202) || (c =? 8232) || (c =? 8233)
   || (c =? 8239) || (c =? 8287) || (c =? 12288))%N.

(** [s.lstrip()], [s.rstrip()], [s.strip()] *)
Fixpoint lstrip (s : pystr) : pystr :=
  match s with
  | c :: s' => if isspace c then lstrip s' else s
  | [] => []
  end.

Definition rstrip (s : pystr) : pystr := rev (lstrip (rev s)).

Definition strip (s : pystr) : pystr := rstrip (lstrip s).

(** [s.split('\n')]: never empty, a trailing newline gives a last empty
    piece. *)
Fixpoint split_lines (s : pystr) : list pystr :=
  match s with
  | [] => [[]]
  | c :: s' =>
      if (c =? 10)%N then [] :: split_lines s'
      else match split_lines s' with
           | line :: rest => (c :: line) :: rest
           | [] => [[c]]
           end
  end.

(** ** [sokoban.py] *)

Module sokoban.

Definition pos : Type := (Z * Z)%type.

(** [class SokobanState].  [player] is a cell, or Python's [None]. *)
Record SokobanState : Type := mkState {
  boxes : gset pos;
  player : option pos;
  walls : gset pos;
  goals : gset pos
}.

(** What [__hash__] and [__eq__] look at: the boxes and the player. *)
Definition state_key (s : SokobanState) : gset pos * option pos :=
  (boxes s, player s).

(** [SokobanState.is_goal()] *)
Definition is_goal (s : SokobanState) : bool :=
  bool_decide (boxes s = goals s).

(** The glyphs beyond ASCII. *)
Definition brick : N := 129521%N.
Definition black_square : N := 11035%N.
Definition package : N := 128230%N.
Definition star : N := 11088%N.
Definition dart : N := 127919%N.
Definition person : N := 129489%N.
Definition worker : N := 128119%N.

(** The local variables of [_parse_level]. *)
Record parsed : Type := mkParsed {
  p_walls : gset pos;
  p_boxes : gset pos;
  p_player : option pos;
  p_goals : gset pos
}.

(** The [if]/[elif] chain for the character at [(r, c)]. *)
Definition parse_char (r c : nat) (char : N) (acc : parsed) : parsed :=
  let p : pos := (Z.of_nat r, Z.of_nat c) in
  if ((char =? ord "#") || (char =? brick) || (char =? black_square))%N then
    mkParsed ({[p]} ∪ p_walls acc) (p_boxes acc) (p_player acc) (p_goals acc)
  else if ((char =? ord "B") || (char =? ord "$") || (char =? package))%N then
    mkParsed (p_walls acc) ({[p]} ∪ p_boxes acc) (p_player acc) (p_goals acc)
  else if ((char =? ord "G") || (char =? ord ".") || (char =? star) || (char =? dart))%N then
    mkParsed (p_walls acc) (p_boxes acc) (p_player acc) ({[p]} ∪ p_goals acc)
  else if ((char =? ord "P") || (char =? ord "@") || (char =? person) || (char =? worker))%N then
    mkParsed (p_walls acc) (p_boxes acc) (Some p) (p_goals acc)
  else if (char =? ord "*")%N then
    mkParsed (p_walls acc) ({[p]} ∪ p_boxes acc) (p_player acc) ({[p]} ∪ p_goals acc)
  else if (char =? ord "+")%N then
    mkParsed (p_walls acc) (p_boxes acc) (Some p) ({[p]} ∪ p_goals acc)
  else acc.

(** [for c, char in enumerate(line)], from column [c]. *)
Fixpoint parse_line (r c : nat) (line : pystr) (acc : parsed) : parsed :=
  match line with
  | [] => acc
  | char :: line' => parse_line r (S c) line' (parse_char r c char acc)
  end.

(** [for r, line in enumerate(lines)], from row [r]. *)
Fixpoint parse_lines (r : nat) (lines : list pystr) (acc : parsed) : parsed :=
  match lines with
  | [] => acc
  | line :: lines' => parse_lines (S r) lines' (parse_line r 0 line acc)
  end.

(** [SokobanProblem._parse_level(level_str)]; the result record stands for
    the returned tuple [(walls, boxes, player, goals)].  No path raises. *)
Definition _parse_level (level_str : pystr) : parsed :=
  let lines := map rstrip (split_lines (strip level_str)) in
  parse_lines 0 lines (mkParsed ∅ ∅ None ∅).

(** [class SokobanProblem]: the attributes set by [__init__]. *)
Record SokobanProblem : Type := mkSokoban {
  self_walls : gset pos;
  self_boxes : gset pos;
  self_player : option pos;
  self_goals : gset pos;
  initial_state : SokobanState
}.

(** [SokobanProblem.__init__(level_str)] *)
Definition SokobanProblem_init (level_str : pystr) : SokobanProblem :=
  let p := _parse_level level_str in
  mkSokoban (p_walls p) (p_boxes p) (p_player p) (p_goals p)
    (mkState (p_boxes p) (p_player p) (p_walls p) (p_goals p)).

Definition get_initial_state (self : SokobanProblem) : SokobanState :=
  initial_state self.

Definition goal_test (s : SokobanState) : bool := is_goal s.

Definition directions : list (Z * Z * string) :=
  [(-1, 0, "UP"); (1, 0, "DOWN"); (0, -1, "LEFT"); (0, 1, "RIGHT")]%string.

(** One round of the loop of [actions] for a player standing at [pl]:
    [Some action] when the action is appended, [None] on [continue]. *)
Definition try_direction (s : SokobanState) (pl : pos) (d : Z * Z * string)
    : option string :=
  let '(dr, dc, act) := d in
  let new_player : pos := (pl.1 + dr, pl.2 + dc) in
  if decide (new_player ∈ walls s) then None
  else if decide (new_player ∈ boxes s) then
    let new_box : pos := (new_player.1 + dr, new_player.2 + dc) in
    if decide (new_box ∈ walls s ∨ new_box ∈ boxes s) then None else Some act
  else Some act.

(** [SokobanProblem.actions(state)]; [None] is the [TypeError] of
    subscripting a [None] player. *)
Definition actions (s : SokobanState) : option (list string) :=
  match player s with
  | None => None
  | Some pl => Some (omap (try_direction s pl) directions)
  end.

(** [dir_map[action]]; [None] is the [KeyError]. *)
Definition dir_map (act : string) : option (Z * Z) :=
  if decide (act = "UP"%string) then Some (-1, 0)
  else if decide (act = "DOWN"%string) then Some (1, 0)
  else if decide (act = "LEFT"%string) then Some (0, -1)
  else if decide (act = "RIGHT"%string) then Some (0, 1)
  else None.

(** [SokobanProblem.result(state, action)]: the new state and the step
    cost [1.0]; [None] is an exception ([KeyError] on an unknown action,
    [TypeError] on a [None] player). *)
Definition result (s : SokobanState) (act : string) : option (SokobanState * Z) :=
  match dir_map act with
  | None => None
  | Some (dr, dc) =>
      match player s with
      | None => None
      | Some pl =>
          let new_player : pos := (pl.1 + dr, pl.2 + dc) in
          let new_boxes :=
            if decide (new_player ∈ boxes s) then
              let new_box : pos := (new_player.1 + dr, new_player.2 + dc) in
              {[new_box]} ∪ (boxes s ∖ {[new_player]})
            else boxes s in
          Some (mkState new_boxes (Some new_player) (walls s) (goals s), 1)
      end
  end.

(** [bool(action)] for a string. *)
Definition truthy (act : string) : bool :=
  match act with
  | EmptyString => false
  | _ => true
  end.

(** The problem object as the solver sees it. *)
Definition as_problem (self : SokobanProblem) : a_star.Problem :=
  a_star.mkProblem (get_initial_state self) goal_test actions result.

(** [LEVEL_1] *)
Definition LEVEL_1 : pystr := str "
#####
#@$.#
#####
".

End sokoban.

(** ** [heuristics.py]

    The estimators loop over sets.  The order in which a Python set yields
    its elements is not specified; [iter] is that order. *)

Module heuristics.
Import sokoban.

Section Heuristics.
Variable iter : gset pos → list pos.

Definition manhattan_distance (pos1 pos2 : pos) : Z :=
  Z.abs (pos1.1 - pos2.1) + Z.abs (pos1.2 - pos2.2).

(** The inner loop of [manhattan_heuristic]: the running [min_dist]. *)
Definition nearest (box : pos) (goal_list : list pos) : ext :=
  foldl (λ min_dist goal,
           let dist := Fin (manhattan_distance box goal) in
           if ext_ltb dist min_dist then dist else min_dist)
        Inf goal_list.

(** [manhattan_heuristic(state, goals)] *)
Definition manhattan_heuristic (s : SokobanState) (gls : gset pos) : ext :=
  foldl (λ total box, ext_add total (nearest box (iter gls))) (Fin 0) (iter (boxes s)).

(** [simple_count_heuristic(state, goals)] *)
Definition simple_count_heuristic (s : SokobanState) (gls : gset pos) : ext :=
  Fin (Z.of_nat (length (filter (λ b, b ∉ gls) (iter (boxes s))))).

(** The inner loop of [minimum_matching_heuristic]: the running
    [(best_dist, best_goal)]. *)
Definition best_unused (box : pos) (used_goals : gset pos) (goals_list : list pos)
    : ext * option pos :=
  foldl (λ best goal,
           if decide (goal ∈ used_goals) then best
           else
             let dist := Fin (manhattan_distance box goal) in
             if ext_ltb dist best.1 then (dist, Some goal) else best)
        (Inf, None) goals_list.

(** The outer loop: the running [(total, used_goals)].  A goal cell is a
    non-empty tuple, so [if best_goal] only tests for [None]. *)
Definition match_boxes (box_list goals_list : list pos) : ext * gset pos :=
  foldl (λ acc box,
           let '(best_dist, best_goal) := best_unused box acc.2 goals_list in
           match best_goal with
           | Some gl => (ext_add acc.1 best_dist, {[gl]} ∪ acc.2)
           | None => acc
           end)
        (Fin 0, ∅) box_list.

(** [minimum_matching_heuristic(state, goals)] *)
Definition minimum_matching_heuristic (s : SokobanState) (gls : gset pos) : ext :=
  let box_list := iter (boxes s) in
  let goals_list := iter gls in
  match box_list with
  | [] => Fin 0
  | _ :: _ => (match_boxes box_list goals_list).1
  end.

End Heuristics.
End heuristics.

(** ** Vocabulary of the properties *)

Section Vocabulary.
Import a_star.
Context {State Action K : Type} `{Countable K}.
Variable key : State → K.
Variable truthy : Action → bool.
Variable heuristic_func : State → ext.
Variable problem : Problem (State := State) (Action := Action).
Variable clock : nat → Q.
Variable timeout_budget : Q.

Local Notation Node := (Node (State := State) (Action := Action)).
Local Notation entry := (entry (State := State) (Action := Action)).
Local Notation search := (search (State := State) (Action := Action) (K := K)).

(** The state key of a frontier entry. *)
Definition entry_key (e : entry) : K := key (state e.2).

Definition frontier_keys (st : search) : list K :=
  map entry_key (frontier st).

(** The frontier, its membership index and the explored set fit together:
    one frontier entry per state, the index knows exactly the states of the
    frontier, and none of them is explored. *)
Definition consistent (st : search) : Prop :=
  NoDup (frontier_keys st)
  ∧ dom (frontier_states st) = list_to_set (frontier_keys st)
  ∧ ∀ k, k ∈ frontier_keys st → k ∉ explored st.

(** The search states at the head of the [while] loop of one call of
    [solve] entered with metrics [m0]. *)
Inductive reachable (m0 : AStarMetrics) : search → Prop :=
  | reach_init :
      reachable m0 (init_search key heuristic_func problem m0)
  | reach_step st st' :
      reachable m0 st →
      frontier st ≠ [] →
      iteration key truthy heuristic_func problem clock timeout_budget st = Continue st' →
      reachable m0 st'.

(** A node whose parent links spell a legal walk from the initial state:
    every link is an action offered by [actions] followed by [result]. *)
Inductive wf_node : Node → Prop :=
  | wf_root :
      wf_node (Node_init (get_initial_state problem) None None 0)
  | wf_child p acts a s c :
      wf_node p →
      actions problem (state p) = Some acts →
      a ∈ acts →
      result problem (state p) a = Some (s, c) →
      wf_node (Node_init s (Some p) (Some a) c).

(** The states of the problem's graph: the initial state, and whatever
    [result] gives for an action that [actions] offers in such a state. *)
Inductive can_reach : State → Prop :=
  | can_reach_init :
      can_reach (get_initial_state problem)
  | can_reach_step s acts a s' c :
      can_reach s →
      actions problem s = Some acts →
      a ∈ acts →
      result problem s a = Some (s', c) →
      can_reach s'.

(** [walk s n t]: some [n] offered actions, applied one after the other
    with [result], lead from [s] to [t]. *)
Inductive walk : State → nat → State → Prop :=
  | walk_here s :
      walk s 0 s
  | walk_step s acts a s' c n t :
      actions problem s = Some acts →
      a ∈ acts →
      result problem s a = Some (s', c) →
      walk s' n t →
      walk s (S n) t.

(** Following a list of actions from [s], each of them checked against
    [actions] before [result] is applied; [None] when one is not offered
    or something raises. *)
Fixpoint follow `{EqDecision Action} (s : State) (acts : list Action) : option State :=
  match acts with
  | [] => Some s
  | a :: acts' =>
      match actions problem s with
      | Some offered =>
          if decide (a ∈ offered) then
            match result problem s a with
            | Some (s', _) => follow s' acts'
            | None => None
            end
          else None
      | None => None
      end
  end.

(** Neither [actions] nor [result] raises on the problem's graph. *)
Definition never_raises : Prop :=
  ∀ s, can_reach s →
    ∃ acts, actions problem s = Some acts
            ∧ ∀ a, a ∈ acts → is_Some (result problem s a).

(** [__eq__] tells the states of the problem's graph apart. *)
Definition key_faithful : Prop :=
  ∀ s1 s2, can_reach s1 → can_reach s2 → key s1 = key s2 → s1 = s2.

(** Applying actions in order with [result]: the states passed through,
    the start included; [None] when [result] raises. *)
Fixpoint apply_actions (s : State) (acts : list Action) : option (list State) :=
  match acts with
  | [] => Some [s]
  | a :: acts' =>
      match result problem s a with
      | Some (s', _) =>
          match apply_actions s' acts' with
          | Some path => Some (s :: path)
          | None => None
          end
      | None => None
      end
  end.

(** The counters against the data: with [e0] expansions on the counter
    when the call began, every expansion since has put one more state into
    the explored set, and every node popped or still waiting was counted
    as generated. *)
Definition counted (e0 : Z) (st : search) : Prop :=
  nodes_expanded (self_metrics st) = e0 + Z.of_nat (size (explored st))
  ∧ nodes_expanded (self_metrics st) - e0 + Z.of_nat (length (frontier st))
    ≤ nodes_generated (self_metrics st).

End Vocabulary.

(** A value that is a distance or a sum of distances. *)
Definition ext_nonneg (e : ext) : Prop :=
  match e with
  | Fin z => 0 ≤ z
  | Inf => True
  end.

(** [a <= b] on floats holding integers or [inf]. *)
Definition ext_le (a b : ext) : Prop :=
  match a, b with
  | Fin x, Fin y => x ≤ y
  | _, Inf => True
  | Inf, Fin _ => False
  end.

(** ** Vocabulary of path costs *)

Section CostVocabulary.
Import a_star.
Context {State Action : Type}.
Variable heuristic_func : State → ext.
Variable problem : Problem (State := State) (Action := Action).

(** [route C t]: offered actions lead from the initial state to [t], and
    the step costs [result] gives for them add up to [C]. *)
Inductive route : Z → State → Prop :=
  | route_init :
      route 0 (get_initial_state problem)
  | route_step C s acts a s' c :
      route C s →
      actions problem s = Some acts →
      a ∈ acts →
      result problem s a = Some (s', c) →
      route (C + c) s'.

(** The step costs of a list of actions applied in order from [s], summed
    up; [None] when [result] raises. *)
Fixpoint actions_cost (s : State) (acts : list Action) : option Z :=
  match acts with
  | [] => Some 0
  | a :: acts' =>
      match result problem s a with
      | Some (s', c) =>
          match actions_cost s' acts' with
          | Some C => Some (c + C)
          | None => None
          end
      | None => None
      end
  end.

(** The estimate never drops by more than the cost of the step, on the
    problem's graph. *)
Definition consistent_heuristic : Prop :=
  ∀ s acts a s' c,
    can_reach problem s →
    actions problem s = Some acts → a ∈ acts →
    result problem s a = Some (s', c) →
    ext_le (heuristic_func s) (ext_add (Fin c) (heuristic_func s')).

(** The estimate is 0 at the goal states of the problem's graph. *)
Definition zero_at_goals : Prop :=
  ∀ s, can_reach problem s → goal_test problem s = true → heuristic_func s = Fin 0.

End CostVocabulary.

(** ** Levels used as examples *)

(** No player glyph; one box, one goal. *)
Definition level_without_player : pystr := str "#####
#$.#
#####".

(** One box at the end of a corridor and no goal: nothing can be pushed. *)
Definition corridor_level : pystr := str "#####
#@ $#
#####".

(** Two boxes, two goals, no wall: the box off the goal row is nearest to
    the goal that the other box is nearest to as well. *)
Definition detour_state : sokoban.SokobanState :=
  sokoban.mkState {[(1, 2); (2, 4)]} (Some (0, 2)) ∅ {[(2, 2); (2, 7)]}.

Definition detour_problem : sokoban.SokobanProblem :=
  sokoban.mkSokoban ∅ {[(1, 2); (2, 4)]} (Some (0, 2)) {[(2, 2); (2, 7)]} detour_state.

(** The estimators as [create_heuristic(name, goals)] builds them for the
    goals of an instance, with the order in which stdpp lists a set. *)
Definition manhattan_for (pb : sokoban.SokobanProblem) : sokoban.SokobanState → ext :=
  λ s, heuristics.manhattan_heuristic elements s
         (sokoban.goals (sokoban.initial_state pb)).

Definition count_for (pb : sokoban.SokobanProblem) : sokoban.SokobanState → ext :=
  λ s, heuristics.simple_count_heuristic elements s
         (sokoban.goals (sokoban.initial_state pb)).

(** A clock that stands still, and one that advances by a second per
    reading. *)
Definition still_clock : nat → Q := λ _, 0%Q.

Definition ticking_clock : nat → Q := λ n, inject_Z (Z.of_nat n).

(** [solver.solve(problem, timeout)] on a puzzle instance. *)
Definition solve_sokoban (self : a_star.AStarSolver) (pb : sokoban.SokobanProblem)
    (timeout_budget : Q) (clock : nat → Q) (fuel : nat)
    : a_star.outcome (State := sokoban.SokobanState) (Action := string) :=
  a_star.solve sokoban.state_key sokoban.truthy self (sokoban.as_problem pb)
    timeout_budget clock fuel.

(** The solver object after a call that returned [m]: the same heuristic,
    and the metrics record the call left behind (the returned record and
    [self.metrics] are one object). *)
Definition after_call {State : Type} (self : a_star.AStarSolver (State := State))
    (m : a_star.AStarMetrics) : a_star.AStarSolver :=
  a_star.mkSolver (a_star.heuristic self) m.

(** ** [test_a_star] in [a_star.py]

    The two-state problem and the heuristic of the self-test; strings are
    their own keys. *)
Definition TestProblem : a_star.Problem (State := string) (Action := string) :=
  a_star.mkProblem "start"%string
    (λ s, bool_decide (s = "goal"%string))
    (λ s, Some (if decide (s = "start"%string) then ["move"%string] else []))
    (λ _ _, Some ("goal"%string, 1)).

Definition simple_heuristic (s : string) : ext :=
  if decide (s = "goal"%string) then Fin 0 else Fin 1.

(** [solver.solve(problem)] as [test_a_star] calls it: a new solver and
    the default budget of 30 seconds. *)
Definition test_a_star (clock : nat → Q) (fuel : nat)
    : a_star.outcome (State := string) (Action := string) :=
  a_star.solve id sokoban.truthy (a_star.AStarSolver_init simple_heuristic) TestProblem
    30 clock fuel.

(** ** Vocabulary of the puzzle *)

(** No box and no goal in a wall, and the player, when there is one,
    neither in a wall nor on a box. *)
Definition well_placed (s : sokoban.SokobanState) : Prop :=
  sokoban.boxes s ## sokoban.walls s
  ∧ sokoban.goals s ## sokoban.walls s
  ∧ ∀ pl, sokoban.player s = Some pl →
          (pl ∉ sokoban.walls s) ∧ (pl ∉ sokoban.boxes s).

(** The state [__init__] builds from what [_parse_level] returned. *)
Definition parsed_state (acc : sokoban.parsed) : sokoban.SokobanState :=
  sokoban.mkState (sokoban.p_boxes acc) (sokoban.p_player acc)
    (sokoban.p_walls acc) (sokoban.p_goals acc).

(** While [_parse_level] reads: every cell recorded so far has row and
    column numbers from 0 on and comes before the cell [(r, c)] in reading
    order. *)
Definition read_before (r c : nat) (acc : sokoban.parsed) : Prop :=
  ∀ q : sokoban.pos,
    q ∈ sokoban.p_walls acc ∪ sokoban.p_boxes acc ∪ sokoban.p_goals acc
    ∨ sokoban.p_player acc = Some q →
    0 ≤ q.1 ∧ 0 ≤ q.2 ∧ (q.1 < Z.of_nat r ∨ q.1 = Z.of_nat r ∧ q.2 < Z.of_nat c).

(** The states of a puzzle instance's graph. *)
Definition sokoban_reach (pb : sokoban.SokobanProblem) : sokoban.SokobanState → Prop :=
  can_reach (sokoban.as_problem pb).

(** ** Facts about array updates and the heap operations *)

Section ListSwap.
Context {A : Type}.
Implicit Types l : list A.

Lemma insert_cons_exchange l i x a :
    (i < length l)%nat → x :: <[i := a]> l ≡ₚ a :: <[i := x]> l.
Proof.
    revert i. induction l as [|b l IH]; intros [|i] Hi; simpl in *; try lia.
    - apply perm_swap.
    - rewrite perm_swap. rewrite (IH i) by lia. apply perm_swap.
Qed.

(** Moving a hole: writing [y = l[j]] into slot [i] and the carried item
      into slot [j] rearranges the list in which the item sat in slot [i]. *)
Lemma insert_hole_move l i j x y :
    (i < length l)%nat → l !! j = Some y →
    <[j := x]> (<[i := y]> l) ≡ₚ <[i := x]> l.
Proof.
    revert i j. induction l as [|a l IH]; intros i j Hi Hj; [simpl in Hi; lia|].
    destruct i as [|i], j as [|j]; simpl in *.
    - done.
    - rewrite <- (list_insert_id l j y) at 2 by done.
      symmetry. apply insert_cons_exchange. by eapply lookup_lt_Some.
    - injection Hj as ->. apply insert_cons_exchange. lia.
    - apply perm_skip, IH; [lia | done].
Qed.
End ListSwap.

Section HeapqFacts.
Context {A : Type}.
Variable lt : A → A → bool.
Implicit Types heap : list A.

Lemma _siftdown_loop_perm n heap startpos pos newitem :
    (pos < length heap)%nat →
    heapq._siftdown_loop lt n heap startpos pos newitem ≡ₚ <[pos := newitem]> heap.
Proof.
    revert heap pos. induction n as [|n IH]; intros heap pos Hpos; simpl; [done|].
    case_decide; [|done].
    destruct (heap !! _) as [parent|] eqn:Hpar; [|done].
    destruct (lt newitem parent); [|done].
    rewrite IH.
    - by apply insert_hole_move.
    - rewrite length_insert. by eapply lookup_lt_Some.
Qed.

Lemma _siftdown_perm heap startpos pos :
    heapq._siftdown lt heap startpos pos ≡ₚ heap.
Proof.
    unfold heapq._siftdown. destruct (heap !! pos) as [x|] eqn:Hx; [|done].
    rewrite _siftdown_loop_perm by (by eapply lookup_lt_Some).
    by rewrite list_insert_id.
Qed.

Lemma _siftup_loop_perm n heap pos newitem heap' pos' :
    (pos < length heap)%nat →
    heapq._siftup_loop lt n heap pos = (heap', pos') →
    (pos' < length heap')%nat ∧ <[pos' := newitem]> heap' ≡ₚ <[pos := newitem]> heap.
Proof.
    revert heap pos. induction n as [|n IH]; intros heap pos Hpos; simpl.
    { intros [= <- <-]. done. }
    case_decide; [|intros [= <- <-]; done].
    set (cp := match heap !! _, heap !! _ with
               | Some c, Some r => _ | _, _ => _ end).
    destruct (heap !! cp) as [c|] eqn:Hc; [|intros [= <- <-]; done].
    intros Hloop. apply IH in Hloop as [Hlen Hperm].
    - split; [done|]. rewrite Hperm. by apply insert_hole_move.
    - rewrite length_insert. by eapply lookup_lt_Some.
Qed.

Lemma _siftup_perm heap pos : heapq._siftup lt heap pos ≡ₚ heap.
Proof.
    unfold heapq._siftup. destruct (heap !! pos) as [x|] eqn:Hx; [|done].
    destruct (heapq._siftup_loop _ _ _ _) as [heap' pos'] eqn:Hloop.
    rewrite _siftdown_perm.
    eapply (_siftup_loop_perm _ _ _ x) in Hloop as [_ ->];
      [|by eapply lookup_lt_Some].
    by rewrite list_insert_id.
Qed.

Lemma heappush_perm heap item : heapq.heappush lt heap item ≡ₚ item :: heap.
Proof.
    unfold heapq.heappush. rewrite _siftdown_perm.
    by rewrite Permutation_app_comm.
Qed.

Lemma last_removelast heap x :
    last heap = Some x → heap = removelast heap ++ [x].
Proof.
    intros Hl. destruct (decide (heap = [])) as [->|Hne]; [done|].
    rewrite (app_removelast_last x Hne) at 1. f_equal. f_equal.
    clear Hne. induction heap as [|a [|b heap] IH]; simpl in *; try done.
    - by injection Hl.
    - by apply IH.
Qed.

Lemma heappop_perm heap item heap' :
    heapq.heappop lt heap = Some (item, heap') → heap ≡ₚ item :: heap'.
Proof.
    unfold heapq.heappop. destruct (last heap) as [lastelt|] eqn:Hlast; [|done].
    apply last_removelast in Hlast. destruct (removelast heap) as [|r rest].
    - intros [= <- <-]. by rewrite Hlast.
    - intros [= <- <-]. rewrite Hlast, _siftup_perm. simpl.
      apply perm_skip. symmetry. apply Permutation_cons_append.
Qed.

Lemma heappop_is_Some heap : heap ≠ [] → is_Some (heapq.heappop lt heap).
Proof.
    intros Hne. unfold heapq.heappop.
    destruct (last heap) eqn:Hlast.
    - destruct (removelast heap); eauto.
    - by apply last_None in Hlast.
Qed.

Lemma heapify_perm heap : heapq.heapify lt heap ≡ₚ heap.
Proof.
    unfold heapq.heapify. generalize (rev (seq 0 (length heap / 2))).
    intros idx. revert heap. induction idx as [|i idx IH]; intros heap; simpl; [done|].
    by rewrite IH, _siftup_perm.
Qed.

(** The bounds given to the two loops are enough: with any larger bound
    they compute the same, so the bound never cuts a loop short. *)
Lemma _siftdown_loop_bound n m heap startpos pos newitem :
  (pos ≤ n)%nat → (pos ≤ m)%nat →
  heapq._siftdown_loop lt n heap startpos pos newitem
  = heapq._siftdown_loop lt m heap startpos pos newitem.
Proof.
  revert m heap pos. induction n as [|n IH]; intros [|m] heap pos Hn Hm;
    cbn [heapq._siftdown_loop]; try done.
  - case_decide; [lia|done].
  - case_decide; [lia|done].
  - case_decide as Hlt; [|done].
    destruct (heap !! _) as [parent|]; [|done].
    destruct (lt newitem parent); [|done].
    assert ((pos - 1) / 2 ≤ pos - 1)%nat by (apply Nat.Div0.div_le_upper_bound; lia).
    apply IH; lia.
Qed.

Lemma _siftup_loop_bound n m heap pos :
  (length heap - pos ≤ n)%nat → (length heap - pos ≤ m)%nat →
  heapq._siftup_loop lt n heap pos = heapq._siftup_loop lt m heap pos.
Proof.
  revert m heap pos. induction n as [|n IH]; intros [|m] heap pos Hn Hm;
    cbn [heapq._siftup_loop]; try done.
  - case_decide; [lia|done].
  - case_decide; [lia|done].
  - case_decide as Hlt; [|done].
    set (cp := match heap !! _, heap !! _ with
               | Some c, Some r => _ | _, _ => _ end).
    assert (pos < cp)%nat as Hcp.
    { unfold cp. destruct (heap !! _); [|lia]. destruct (heap !! _); [|lia].
      destruct (negb _); lia. }
    destruct (heap !! cp) as [c|]; [|done].
    apply IH; rewrite length_insert; lia.
Qed.
End HeapqFacts.

(** ** The heap order *)

Lemma parent_of_child q c : heap_child q c → ((c - 1) / 2)%nat = q.
Proof.
  intros [->| ->].
  - replace (2 * q + 1 - 1)%nat with (q * 2)%nat by lia. apply Nat.div_mul. lia.
  - replace (2 * q + 2 - 1)%nat with (1 + q * 2)%nat by lia.
    rewrite Nat.div_add by lia. done.
Qed.

Lemma heap_child_parent c : (0 < c)%nat → heap_child ((c - 1) / 2) c.
Proof.
  intros Hc. pose proof (Nat.div_mod_eq (c - 1) 2) as Hdiv.
  pose proof (Nat.mod_upper_bound (c - 1) 2) as Hmod. unfold heap_child. lia.
Qed.

Lemma heap_child_same_parent p q c : heap_child p c → heap_child q c → p = q.
Proof. intros Hp Hq. by rewrite <- (parent_of_child _ _ Hp), (parent_of_child _ _ Hq). Qed.

Lemma below_ge k p : below k p → (k ≤ p)%nat.
Proof. induction 1 as [|p c _ IH [->| ->]]; lia. Qed.

Lemma below_0 p : below 0 p.
Proof.
  induction (lt_wf p) as [p _ IH]. destruct (decide (p = 0)%nat) as [->|Hp].
  - apply below_root.
  - apply (below_child 0 ((p - 1) / 2) p); [|apply heap_child_parent; lia].
    apply IH. pose proof (heap_child_parent p) as [Hc|Hc]; lia.
Qed.

Lemma below_inv k pos :
  below k pos → (k < pos)%nat → ∃ q, below k q ∧ heap_child q pos.
Proof. destruct 1 as [|q c Hq Hc]; [lia|]. eauto. Qed.

Section HeapOrder.
Context {A : Type}.
Variable lt : A → A → bool.
Hypothesis lt_asym : ∀ a b, lt a b = true → lt b a = false.
Hypothesis le_trans : ∀ a b c, lt b a = false → lt c b = false → lt c a = false.
Implicit Types heap : list A.

Local Notation le a b := (lt b a = false).
Local Notation heap_from := (heap_from lt).

Lemma heap_le_refl a : le a a.
Proof. destruct (lt a a) eqn:Haa; [|done]. pose proof (lt_asym _ _ Haa). congruence. Qed.

(** [_siftdown]: the item carried towards the root.  The list with the
    item written into the hole is ordered except between the hole and its
    parent, and the children of the hole are no smaller than that parent. *)
Lemma _siftdown_loop_ordered n heap k pos x :
  below k pos → (pos < length heap)%nat → (pos ≤ n)%nat →
  (∀ p c y z, (k ≤ p)%nat → heap_child p c → c ≠ pos →
     <[pos := x]> heap !! p = Some y → <[pos := x]> heap !! c = Some z → le y z) →
  (∀ q c y z, (k ≤ q)%nat → heap_child q pos → heap_child pos c →
     <[pos := x]> heap !! q = Some y → <[pos := x]> heap !! c = Some z → le y z) →
  heap_from k (heapq._siftdown_loop lt n heap k pos x).
Proof.
  revert heap pos. induction n as [|n IH]; intros heap pos Hbelow Hlen Hn HA HB;
    cbn [heapq._siftdown_loop].
  { assert (pos = 0)%nat as -> by lia. intros p c y z Hk Hc Hp Hcz.
    destruct (decide (c = 0)%nat) as [->|Hne]; [destruct Hc; lia|]. by eapply HA. }
  pose proof (below_ge _ _ Hbelow) as Hge.
  case_decide as Hlt; cycle 1.
  { assert (pos = k) as -> by lia. intros p c y z Hk Hc Hp Hcz.
    destruct (decide (c = k)) as [->|Hne]; [destruct Hc; lia|]. by eapply HA. }
  destruct (below_inv _ _ Hbelow Hlt) as (q & Hq & Hqc).
  rewrite (parent_of_child _ _ Hqc).
  assert (q < pos)%nat as Hqpos by (destruct Hqc; lia).
  pose proof (below_ge _ _ Hq) as Hkq.
  destruct (lookup_lt_is_Some_2 heap q) as [parent Hpar]; [lia|]. rewrite Hpar.
  assert (<[pos := x]> heap !! q = Some parent) as HHq.
  { rewrite list_lookup_insert_ne by lia. done. }
  destruct (lt x parent) eqn:Hxp; cycle 1.
  { intros p c y z Hk Hc Hp Hcz.
    destruct (decide (c = pos)) as [->|Hne]; [|by eapply HA].
    assert (p = q) as -> by (by eapply heap_child_same_parent).
    rewrite list_lookup_insert_eq in Hcz by done.
    rewrite HHq in Hp. by simplify_eq. }
  assert (le x parent) as Hle by (by apply lt_asym).
  apply IH; [done|rewrite length_insert; lia|lia| |].
  - intros p c y z Hk Hc Hne Hp Hcz.
    rewrite list_lookup_insert_ne in Hcz by done.
    destruct (decide (c = pos)) as [->|Hcpos].
    + assert (p = q) as -> by (by eapply heap_child_same_parent).
      rewrite list_lookup_insert_eq in Hp by (rewrite length_insert; lia).
      rewrite list_lookup_insert_eq in Hcz by done. by simplify_eq.
    + rewrite list_lookup_insert_ne in Hcz by done.
      assert (<[pos := x]> heap !! c = Some z) as HHc.
      { by rewrite list_lookup_insert_ne by done. }
      destruct (decide (p = q)) as [->|Hpq].
      * rewrite list_lookup_insert_eq in Hp by (rewrite length_insert; lia).
        simplify_eq. eapply le_trans; [exact Hle|]. by eapply (HA q c).
      * rewrite list_lookup_insert_ne in Hp by done.
        destruct (decide (p = pos)) as [->|Hppos].
        -- rewrite list_lookup_insert_eq in Hp by done. simplify_eq.
           by eapply (HB q c).
        -- rewrite list_lookup_insert_ne in Hp by done.
           eapply (HA p c); try done. by rewrite list_lookup_insert_ne by done.
  - intros q2 c y z Hk Hq2 Hc Hp Hcz.
    assert (q2 < q)%nat by (destruct Hq2; lia).
    assert (q < c)%nat by (destruct Hc; lia).
    rewrite !list_lookup_insert_ne in Hp by lia.
    rewrite list_lookup_insert_ne in Hcz by lia.
    assert (le y parent) as Hyp.
    { eapply (HA q2 q); try done; [lia|]. by rewrite list_lookup_insert_ne by lia. }
    destruct (decide (c = pos)) as [->|Hcpos].
    + rewrite list_lookup_insert_eq in Hcz by done. by simplify_eq.
    + rewrite list_lookup_insert_ne in Hcz by done.
      eapply le_trans; [exact Hyp|]. eapply (HA q c); try done.
      by rewrite list_lookup_insert_ne by done.
Qed.

Lemma _siftdown_ordered heap k pos :
  below k pos →
  (∀ p c y z, (k ≤ p)%nat → heap_child p c → c ≠ pos →
     heap !! p = Some y → heap !! c = Some z → le y z) →
  (∀ q c y z, (k ≤ q)%nat → heap_child q pos → heap_child pos c →
     heap !! q = Some y → heap !! c = Some z → le y z) →
  heap_from k (heapq._siftdown lt heap k pos).
Proof.
  intros Hbelow HA HB. unfold heapq._siftdown.
  destruct (heap !! pos) as [x|] eqn:Hx.
  - apply _siftdown_loop_ordered; [done|by eapply lookup_lt_Some|done|..];
      rewrite list_insert_id by done; done.
  - intros p c y z Hk Hc Hp Hcz. eapply (HA p c); try done.
    intros ->. by rewrite Hx in Hcz.
Qed.

(** [heappush] keeps a heap a heap. *)
Lemma heappush_ordered heap item :
  heap_from 0 heap → heap_from 0 (heapq.heappush lt heap item).
Proof.
  intros Hheap. unfold heapq.heappush. apply _siftdown_ordered.
  - apply below_0.
  - intros p c y z _ Hc Hne Hp Hcz.
    assert (p < c)%nat by (destruct Hc; lia).
    apply lookup_lt_Some in Hcz as Hlen. rewrite length_app in Hlen. simpl in Hlen.
    rewrite lookup_app_l in Hp by lia. rewrite lookup_app_l in Hcz by lia.
    eapply (Hheap p c); try done. lia.
  - intros q c y z _ _ Hc _ Hcz.
    apply lookup_lt_Some in Hcz. rewrite length_app in Hcz. simpl in Hcz.
    destruct Hc; lia.
Qed.

(** [_siftup]: the hole moved towards the leaves, the smaller child
    following it up. *)
Lemma _siftup_loop_ordered n heap k pos heap' pos' :
  below k pos → (pos < length heap)%nat → (length heap - pos ≤ n)%nat →
  (∀ p c y z, (k ≤ p)%nat → heap_child p c → p ≠ pos → c ≠ pos →
     heap !! p = Some y → heap !! c = Some z → le y z) →
  (∀ q c y z, (k ≤ q)%nat → heap_child q pos → heap_child pos c →
     heap !! q = Some y → heap !! c = Some z → le y z) →
  heapq._siftup_loop lt n heap pos = (heap', pos') →
  below k pos' ∧ (pos' < length heap')%nat
  ∧ (∀ c, heap_child pos' c → (length heap' ≤ c)%nat)
  ∧ (∀ p c y z, (k ≤ p)%nat → heap_child p c → p ≠ pos' → c ≠ pos' →
       heap' !! p = Some y → heap' !! c = Some z → le y z).
Proof.
  revert heap pos. induction n as [|n IH]; intros heap pos Hbelow Hlen Hn HA HB;
    cbn [heapq._siftup_loop]; [lia|].
  pose proof (below_ge _ _ Hbelow) as Hge.
  case_decide as Hchild; cycle 1.
  { intros [= <- <-]. split_and!; [done..| |done]. intros c [->| ->]; lia. }
  destruct (lookup_lt_is_Some_2 heap (2 * pos + 1)) as [cl Hcl]; [lia|].
  set (cp := match heap !! _, heap !! _ with
             | Some c, Some r => _ | _, _ => _ end).
  assert (heap_child pos cp ∧ ∃ cv, heap !! cp = Some cv
          ∧ ∀ c z, heap_child pos c → heap !! c = Some z → le cv z) as (Hcp & cv & Hcv & Hsmall).
  { unfold cp. rewrite Hcl.
    destruct (heap !! (2 * pos + 1 + 1)%nat) as [cr|] eqn:Hcr.
    - destruct (lt cl cr) eqn:Hlr; cbn [negb].
      + split; [by left|]. exists cl. split; [done|].
        intros c z [->| ->] Hz.
        * rewrite Hcl in Hz. simplify_eq. apply heap_le_refl.
        * replace (2 * pos + 2)%nat with (2 * pos + 1 + 1)%nat in Hz by lia.
          rewrite Hcr in Hz. simplify_eq. by apply lt_asym.
      + split; [right; lia|]. exists cr. split; [done|].
        intros c z [->| ->] Hz.
        * rewrite Hcl in Hz. by simplify_eq.
        * replace (2 * pos + 2)%nat with (2 * pos + 1 + 1)%nat in Hz by lia.
          rewrite Hcr in Hz. simplify_eq. apply heap_le_refl.
    - split; [by left|]. exists cl. split; [done|].
      intros c z [->| ->] Hz.
      + rewrite Hcl in Hz. simplify_eq. apply heap_le_refl.
      + replace (2 * pos + 2)%nat with (2 * pos + 1 + 1)%nat in Hz by lia.
        by rewrite Hcr in Hz. }
  clearbody cp. rewrite Hcv.
  assert (pos < cp)%nat as Hposcp by (destruct Hcp; lia).
  intros Hloop. apply IH in Hloop; [done|..].
  - by eapply below_child.
  - rewrite length_insert. by eapply lookup_lt_Some.
  - rewrite length_insert. lia.
  - intros p c y z Hk Hc Hpne Hcne Hp Hcz.
    destruct (decide (p = pos)) as [->|Hppos].
    + rewrite list_lookup_insert_eq in Hp by done. simplify_eq.
      rewrite list_lookup_insert_ne in Hcz by (destruct Hc; lia).
      by eapply Hsmall.
    + rewrite list_lookup_insert_ne in Hp by done.
      destruct (decide (c = pos)) as [->|Hcpos].
      * rewrite list_lookup_insert_eq in Hcz by done. simplify_eq.
        by eapply (HB p cp).
      * rewrite list_lookup_insert_ne in Hcz by done. by eapply (HA p c).
  - intros q c y z Hk Hq Hc Hp Hcz.
    assert (q = pos) as -> by (by eapply heap_child_same_parent).
    rewrite list_lookup_insert_eq in Hp by done. simplify_eq.
    rewrite list_lookup_insert_ne in Hcz by (destruct Hc; lia).
    eapply (HA cp c); try done; [lia|lia|destruct Hc; lia].
Qed.

Lemma _siftup_ordered heap k :
  heap_from (S k) heap → heap_from k (heapq._siftup lt heap k).
Proof.
  intros Hheap. unfold heapq._siftup.
  destruct (heap !! k) as [x|] eqn:Hx; cycle 1.
  { intros p c y z Hk Hc Hp Hcz. apply lookup_ge_None in Hx.
    apply lookup_lt_Some in Hp. lia. }
  destruct (heapq._siftup_loop lt (length heap) heap k) as [heap' pos'] eqn:Hloop.
  apply _siftup_loop_ordered with (k := k) in Hloop as (Hbelow & Hlen & Hleaf & HA).
  - apply _siftdown_ordered; [done|..].
    + intros p c y z Hk Hc Hne Hp Hcz.
      rewrite list_lookup_insert_ne in Hcz by done.
      destruct (decide (p = pos')) as [->|Hppos].
      * apply lookup_lt_Some in Hcz. specialize (Hleaf c Hc). lia.
      * rewrite list_lookup_insert_ne in Hp by done. by eapply (HA p c).
    + intros q c y z _ _ Hc _ Hcz.
      apply lookup_lt_Some in Hcz. rewrite length_insert in Hcz.
      specialize (Hleaf c Hc). lia.
  - apply below_root.
  - by eapply lookup_lt_Some.
  - lia.
  - intros p c y z Hk Hc Hpne Hcne Hp Hcz. eapply (Hheap p c); try done. lia.
  - intros q c y z Hk Hq. destruct Hq; lia.
Qed.

(** The first item of a heap is a least one. *)
Lemma heap_root_least heap r i y :
  heap_from 0 heap → heap !! 0%nat = Some r → heap !! i = Some y → le r y.
Proof.
  intros Hheap Hr. revert y. induction (lt_wf i) as [i _ IH]. intros y Hy.
  destruct (decide (i = 0)%nat) as [->|Hi].
  { rewrite Hr in Hy. simplify_eq. apply heap_le_refl. }
  pose proof (heap_child_parent i) as Hc.
  assert ((i - 1) / 2 < i)%nat as Hlt by (destruct Hc; lia).
  destruct (lookup_lt_is_Some_2 heap ((i - 1) / 2)) as [p Hp].
  { apply lookup_lt_Some in Hy. eapply Nat.lt_trans; [exact Hlt|exact Hy]. }
  eapply le_trans; [by eapply IH|].
  apply (Hheap ((i - 1) / 2)%nat i p y); [lia|apply Hc; lia|done..].
Qed.

(** [heappop] hands out a least item and leaves a heap. *)
Lemma heappop_ordered heap item heap' :
  heap_from 0 heap → heapq.heappop lt heap = Some (item, heap') →
  heap_from 0 heap' ∧ ∀ y, y ∈ heap' → le item y.
Proof.
  intros Hheap Hpop.
  assert (∀ y, y ∈ heap' → le item y) as Hleast.
  { pose proof (heappop_perm _ _ _ _ Hpop) as Hperm.
    assert (heap !! 0%nat = Some item) as Hroot.
    { revert Hpop. unfold heapq.heappop.
      destruct (last heap) as [lastelt|] eqn:Hlast; [|done].
      apply last_removelast in Hlast.
      destruct (removelast heap) as [|r rest] eqn:Hinit.
      - intros [= <- <-]. by rewrite Hlast.
      - intros [= <- <-]. by rewrite Hlast. }
    intros y Hy.
    assert (y ∈ heap) as Hin by (rewrite Hperm; by right).
    apply list_elem_of_lookup in Hin as [i Hi]. by eapply heap_root_least. }
  split; [|done].
  revert Hpop. unfold heapq.heappop.
  destruct (last heap) as [lastelt|] eqn:Hlast; [|done].
  apply last_removelast in Hlast.
  destruct (removelast heap) as [|r rest] eqn:Hinit.
  { intros [= <- <-]. intros p c y z _ _ Hp. by rewrite lookup_nil in Hp. }
  intros [= <- <-]. apply _siftup_ordered.
  intros p c y z Hk Hc Hp Hcz.
  assert (p < c)%nat by (destruct Hc; lia).
  destruct p as [|p]; [lia|]. destruct c as [|c]; [lia|]. simpl in Hp, Hcz.
  eapply (Hheap (S p) (S c)); [lia|done|..]; rewrite Hlast; simpl.
  - by apply lookup_app_l_Some.
  - by apply lookup_app_l_Some.
Qed.

(** [heapify] makes a heap of any list. *)
Lemma heapify_ordered heap : heap_from 0 (heapq.heapify lt heap).
Proof.
  unfold heapq.heapify.
  assert (heap_from (length heap / 2) heap) as Hstart.
  { intros p c y z Hk Hc Hp Hcz. apply lookup_lt_Some in Hcz.
    pose proof (Nat.div_mod_eq (length heap) 2).
    pose proof (Nat.mod_upper_bound (length heap) 2). destruct Hc; lia. }
  revert Hstart. generalize (length heap / 2)%nat. intros m. revert heap.
  induction m as [|m IH]; intros heap Hheap; [done|].
  rewrite seq_S, rev_app_distr. cbn [rev app foldl plus].
  apply IH. by apply _siftup_ordered.
Qed.

End HeapOrder.

(** ** The puzzle: moves and pushes *)

Section SokobanFacts.
Import sokoban.

Lemma dir_map_directions dr dc act :
  (dr, dc, act) ∈ directions → dir_map act = Some (dr, dc).
Proof.
  unfold directions. rewrite !elem_of_cons, elem_of_nil.
  intros [[= -> -> ->]|[[= -> -> ->]|[[= -> -> ->]|[[= -> -> ->]|[]]]]]; done.
Qed.

Lemma actions_elem s acts act :
  actions s = Some acts → act ∈ acts →
  ∃ pl dr dc, player s = Some pl ∧ (dr, dc, act) ∈ directions
              ∧ try_direction s pl (dr, dc, act) = Some act.
Proof.
  unfold actions. destruct (player s) as [pl|]; [|done].
  intros Heq Hin. apply (inj Some) in Heq. subst acts.
  apply list_elem_of_omap in Hin as ([[dr dc] act'] & Hd & Htry).
  assert (act' = act) as ->.
  { unfold try_direction in Htry. repeat case_decide; congruence. }
  eauto 10.
Qed.

Lemma actions_truthy s acts act :
  actions s = Some acts → act ∈ acts → truthy act = true.
Proof.
  intros Ha Hin. destruct (actions_elem _ _ _ Ha Hin) as (pl & dr & dc & _ & Hd & _).
  revert Hd. unfold directions. rewrite !elem_of_cons, elem_of_nil.
  intros [[= -> -> ->]|[[= -> -> ->]|[[= -> -> ->]|[[= -> -> ->]|[]]]]]; done.
Qed.

(** C10. From a state whose boxes are off the walls and whose player is off
    the walls, every action offered by [actions] is applied by [result]
    without error, at cost 1, and the new state has as many boxes, still
    none of them in a wall (the walls are unchanged), and a player that
    is not in a wall. *)
Theorem result_keeps_boxes_off_walls s acts act :
  boxes s ## walls s →
  (∀ pl, player s = Some pl → pl ∉ walls s) →
  actions s = Some acts →
  act ∈ acts →
  ∃ s', result s act = Some (s', 1)
        ∧ size (boxes s') = size (boxes s)
        ∧ walls s' = walls s
        ∧ boxes s' ## walls s'
        ∧ ∃ pl', player s' = Some pl' ∧ pl' ∉ walls s'.
Proof.
  intros Hdisj _ Ha Hin.
  destruct (actions_elem _ _ _ Ha Hin) as (pl & dr & dc & Hpl & Hd & Htry).
  unfold result. rewrite (dir_map_directions _ _ _ Hd), Hpl.
  eexists. split; [reflexivity|]. simpl.
  unfold try_direction in Htry. cbv zeta in Htry. simpl in Htry.
  case_decide as Hnw; [done|].
  case_decide as Hbox.
  - case_decide as Hblocked; [done|].
    split_and!.
    + rewrite size_union by set_solver. rewrite size_singleton.
      rewrite size_difference by set_solver. rewrite size_singleton.
      assert (size (boxes s) ≠ 0)%nat; [|lia].
      apply size_non_empty_iff. set_solver.
    + done.
    + set_solver.
    + eauto.
  - split_and!; eauto.
Qed.

(** C3, refuted as stated: for a level without a player the constructor
    returns an instance, and its initial state holds [None] as player. *)
Lemma no_player_is_tolerated :
  p_player (_parse_level level_without_player) = None
  ∧ ∃ pb, SokobanProblem_init level_without_player = pb
          ∧ self_player pb = None
          ∧ player (get_initial_state pb) = None
          ∧ boxes (get_initial_state pb) = {[(1, 1)]}.
Proof.
  split; [by vm_compute|]. eexists. split; [reflexivity|].
  split_and!; [by vm_compute ..|].
  apply (bool_decide_unpack _). by vm_compute.
Qed.

(** C3, as the code has it: when parsing finds no player, the constructor
    still builds the instance, with [None] as the player of the instance
    and of its initial state; nothing is raised before [actions] or
    [result] is called on that state, and those calls do raise. *)
Theorem missing_player_surfaces_late level_str :
  p_player (_parse_level level_str) = None →
  let pb := SokobanProblem_init level_str in
  self_player pb = None
  ∧ player (get_initial_state pb) = None
  ∧ actions (get_initial_state pb) = None
  ∧ ∀ act, result (get_initial_state pb) act = None.
Proof.
  intros Hp. simpl. unfold actions, result, get_initial_state. simpl. rewrite Hp.
  split_and!; try done. intros act. by destruct (dir_map act) as [[??]|].
Qed.

Lemma missing_player_surfaces_late_witness :
  p_player (_parse_level level_without_player) = None
  ∧ actions (get_initial_state (SokobanProblem_init level_without_player)) = None.
Proof.
  assert (p_player (_parse_level level_without_player) = None) as Hp by (by vm_compute).
  split; [exact Hp|].
  exact (proj1 (proj2 (proj2 (missing_player_surfaces_late level_without_player Hp)))).
Defined.

Lemma result_keeps_boxes_off_walls_witness :
  let s := get_initial_state (SokobanProblem_init LEVEL_1) in
  ∃ s', result s "RIGHT" = Some (s', 1) ∧ size (boxes s') = size (boxes s).
Proof.
  simpl.
  destruct (result_keeps_boxes_off_walls
              (get_initial_state (SokobanProblem_init LEVEL_1)) ["RIGHT"%string] "RIGHT")
    as (s' & Hr & Hsz & _).
  - apply (bool_decide_unpack _). by vm_compute.
  - intros pl Hpl. assert (pl = (1, 1)) as -> by (vm_compute in Hpl; congruence).
    apply (bool_decide_unpack _). by vm_compute.
  - by vm_compute.
  - apply list_elem_of_here.
  - exists s'. by split.
Defined.

End SokobanFacts.

(** ** The puzzle: reading a level *)

Section ParseFacts.
Import sokoban.

Local Notation blank ws := (Forall (λ c, isspace c = true) ws).

Lemma lstrip_blank ws s : blank ws → lstrip (ws ++ s) = lstrip s.
Proof. induction 1 as [|c ws Hc _ IH]; [done|]. simpl. by rewrite Hc. Qed.

Lemma lstrip_all_blank ws : blank ws → lstrip ws = [].
Proof. intros Hws. by rewrite <- (app_nil_r ws), lstrip_blank. Qed.

Lemma rstrip_blank s ws : blank ws → rstrip (s ++ ws) = rstrip s.
Proof.
  intros Hws. unfold rstrip. rewrite rev_app_distr, lstrip_blank; [done|].
  by apply Forall_rev.
Qed.

Lemma strip_blank ws s ws' : blank ws → blank ws' → strip (ws ++ s ++ ws') = strip s.
Proof.
  intros Hws Hws'. unfold strip. rewrite lstrip_blank by done.
  induction s as [|c s IH]; simpl.
  - by rewrite lstrip_all_blank.
  - destruct (isspace c); [done|]. by rewrite app_comm_cons, rstrip_blank.
Qed.

(** What one character does to the cells read so far. *)
Lemma parse_char_ok r c char acc :
  read_before r c acc → well_placed (parsed_state acc) →
  read_before r (S c) (parse_char r c char acc)
  ∧ well_placed (parsed_state (parse_char r c char acc)).
Proof.
  intros Hb (Hbw & Hgw & Hplayer).
  assert (∀ q, q ∈ p_walls acc ∪ p_boxes acc ∪ p_goals acc ∨ p_player acc = Some q →
               q ≠ (Z.of_nat r, Z.of_nat c)) as Hfresh.
  { intros q Hq ->. destruct (Hb _ Hq) as (_ & _ & Hlt). simpl in Hlt. lia. }
  assert ((Z.of_nat r, Z.of_nat c) ∉ p_walls acc) as Hfw.
  { intros Hin. eapply Hfresh; [|done]. left. set_solver. }
  assert ((Z.of_nat r, Z.of_nat c) ∉ p_boxes acc) as Hfb.
  { intros Hin. eapply Hfresh; [|done]. left. set_solver. }
  assert (p_player acc ≠ Some (Z.of_nat r, Z.of_nat c)) as Hfp.
  { intros Hin. eapply Hfresh; [|done]. by right. }
  unfold parsed_state in *. cbn [boxes walls goals player] in *.
  unfold parse_char. cbv zeta.
  repeat match goal with
         | |- read_before _ _ (if ?b then _ else _) ∧ _ => destruct b
         end;
    (split; [|split_and!]);
    cbn [p_walls p_boxes p_goals p_player boxes walls goals player].
  all: try (intros q Hq;
            cbn [p_walls p_boxes p_goals p_player] in Hq;
            destruct (decide (q = (Z.of_nat r, Z.of_nat c))) as [->|Hne]; [simpl; lia|];
            assert (q ∈ p_walls acc ∪ p_boxes acc ∪ p_goals acc ∨ p_player acc = Some q)
              as Hold by (destruct Hq as [Hq|Hq];
                          [left; set_solver|first [by right|congruence]]);
            destruct (Hb q Hold) as (? & ? & ?); lia).
  all: try (intros pl Hpl; first [apply (inj Some) in Hpl as <-; by split
                                 |destruct (Hplayer _ Hpl); set_solver]).
  all: set_solver.
Qed.

Lemma read_before_next_row r c acc : read_before r c acc → read_before (S r) 0 acc.
Proof. intros Hb q Hq. destruct (Hb q Hq) as (? & ? & ?). lia. Qed.

Lemma parse_line_ok r line c acc :
  read_before r c acc → well_placed (parsed_state acc) →
  read_before (S r) 0 (parse_line r c line acc)
  ∧ well_placed (parsed_state (parse_line r c line acc)).
Proof.
  revert c acc. induction line as [|char line IH]; intros c acc Hb Hw; simpl.
  - split; [by eapply read_before_next_row|done].
  - destruct (parse_char_ok r c char acc Hb Hw). by apply IH.
Qed.

Lemma parse_lines_ok r lines acc :
  read_before r 0 acc → well_placed (parsed_state acc) →
  (∃ r', read_before r' 0 (parse_lines r lines acc))
  ∧ well_placed (parsed_state (parse_lines r lines acc)).
Proof.
  revert r acc. induction lines as [|line lines IH]; intros r acc Hb Hw; simpl.
  - split; [by exists r|done].
  - destruct (parse_line_ok r line 0 acc Hb Hw). by apply IH.
Qed.

Lemma _parse_level_ok level_str :
  (∃ r', read_before r' 0 (_parse_level level_str))
  ∧ well_placed (parsed_state (_parse_level level_str)).
Proof.
  apply parse_lines_ok.
  - intros q [Hq|Hq]; [set_solver|done].
  - split_and!; [set_solver..|done].
Qed.

Lemma initial_state_well_placed level_str :
  well_placed (get_initial_state (SokobanProblem_init level_str)).
Proof. apply _parse_level_ok. Qed.

(** X9.  Whatever the level string, the instance built from it has no
    box and no goal in a wall, its player (if any) is neither in a wall
    nor on a box, and every recorded cell has a row and a column number
    from 0 on: each character of the level is read once and put into one
    class of cells. *)
Theorem parsed_level_is_well_placed level_str :
  well_placed (get_initial_state (SokobanProblem_init level_str))
  ∧ ∀ q, q ∈ self_walls (SokobanProblem_init level_str)
             ∪ self_boxes (SokobanProblem_init level_str)
             ∪ self_goals (SokobanProblem_init level_str)
         ∨ self_player (SokobanProblem_init level_str) = Some q →
         0 ≤ q.1 ∧ 0 ≤ q.2.
Proof.
  destruct (_parse_level_ok level_str) as [[r' Hb] Hw]. split; [done|].
  intros q Hq. destruct (Hb q Hq) as (? & ? & _). done.
Qed.

(** X10.  White space around the level text does not count: blank lines
    before and after it and, since the whole text is stripped before it is
    split into lines, the indentation of its first line are dropped before
    rows and columns are numbered. *)
Theorem parse_ignores_outer_whitespace ws level_str ws' :
  Forall (λ c, isspace c = true) ws →
  Forall (λ c, isspace c = true) ws' →
  _parse_level (ws ++ level_str ++ ws') = _parse_level level_str.
Proof. intros Hws Hws'. unfold _parse_level. by rewrite strip_blank. Qed.

End ParseFacts.

(** ** The puzzle: the states a level leads to *)

Section MoveFacts.
Import sokoban.

Lemma directions_unit dr dc act :
  (dr, dc, act) ∈ directions → Z.abs dr + Z.abs dc = 1.
Proof.
  unfold directions. rewrite !elem_of_cons, elem_of_nil.
  intros [[= -> -> ->]|[[= -> -> ->]|[[= -> -> ->]|[[= -> -> ->]|[]]]]]; done.
Qed.

Lemma dir_map_unit act dr dc : dir_map act = Some (dr, dc) → Z.abs dr + Z.abs dc = 1.
Proof. unfold dir_map. repeat case_decide; by intros [= <- <-]. Qed.

(** What [result] builds, for any state with a player and any of the
    four action names. *)
Lemma result_Some s act pl dr dc :
  player s = Some pl → dir_map act = Some (dr, dc) →
  result s act
  = Some (mkState
            (if decide ((pl.1 + dr, pl.2 + dc) ∈ boxes s)
             then {[(pl.1 + dr + dr, pl.2 + dc + dc)]} ∪ (boxes s ∖ {[(pl.1 + dr, pl.2 + dc)]})
             else boxes s)
            (Some (pl.1 + dr, pl.2 + dc)) (walls s) (goals s), 1).
Proof. intros Hpl Hd. unfold result. by rewrite Hd, Hpl. Qed.

(** An offered action, spelt out: the cell entered is no wall, and when a
    box is on it the cell behind is neither a wall nor a box. *)
Lemma offered_action s acts act :
  actions s = Some acts → act ∈ acts →
  ∃ pl dr dc,
    player s = Some pl ∧ dir_map act = Some (dr, dc) ∧ Z.abs dr + Z.abs dc = 1
    ∧ ((pl.1 + dr, pl.2 + dc) ∉ walls s)
    ∧ ((pl.1 + dr, pl.2 + dc) ∈ boxes s →
       ((pl.1 + dr + dr, pl.2 + dc + dc) ∉ walls s)
       ∧ (pl.1 + dr + dr, pl.2 + dc + dc) ∉ boxes s).
Proof.
  intros Ha Hin.
  destruct (actions_elem _ _ _ Ha Hin) as (pl & dr & dc & Hpl & Hd & Htry).
  exists pl, dr, dc. split; [done|]. split; [by apply dir_map_directions|].
  split; [by eapply directions_unit|].
  unfold try_direction in Htry. cbv zeta in Htry. cbn [fst snd] in Htry.
  case_decide as Hnw; [done|]. split; [done|]. intros Hbox.
  rewrite decide_True in Htry by done.
  case_decide as Hblocked; [done|]. split; intros ?; apply Hblocked; [by left|by right].
Qed.

(** An offered action keeps what a level guarantees. *)
Lemma offered_action_keeps s acts act s' c :
  actions s = Some acts → act ∈ acts → result s act = Some (s', c) →
  c = 1 ∧ walls s' = walls s ∧ goals s' = goals s
  ∧ size (boxes s') = size (boxes s)
  ∧ is_Some (player s')
  ∧ (well_placed s → well_placed s').
Proof.
  intros Ha Hin Hres.
  destruct (offered_action _ _ _ Ha Hin) as (pl & dr & dc & Hpl & Hd & Hunit & Hnw & Hpush).
  rewrite (result_Some _ _ _ _ _ Hpl Hd) in Hres. injection Hres as <- <-.
  cbn [boxes walls goals player].
  split; [done|]. split; [done|]. split; [done|].
  assert ((pl.1 + dr + dr, pl.2 + dc + dc) ≠ (pl.1 + dr, pl.2 + dc)) as Hne.
  { intros [= ? ?]. lia. }
  case_decide as Hbox.
  - destruct (Hpush Hbox) as [Hbw Hbb]. split_and!.
    + rewrite size_union by set_solver. rewrite size_singleton.
      rewrite size_difference by set_solver. rewrite size_singleton.
      assert (size (boxes s) ≠ 0)%nat; [|lia].
      apply size_non_empty_iff. set_solver.
    + by eexists.
    + intros (Hb & Hg & Hp). unfold well_placed. cbn [boxes walls goals player].
      split_and!; [set_solver|done|]. intros ? [= <-]. set_solver.
  - split_and!; [done|by eexists|].
    intros (Hb & Hg & Hp). unfold well_placed. cbn [boxes walls goals player].
    split_and!; [done..|]. by intros ? [= <-].
Qed.

(** On every state of an instance's graph: the walls, the goals and the
    number of boxes are those of the level; what the level guarantees
    about walls still holds; and the player is still there. *)
Lemma sokoban_reach_keeps pb s :
  sokoban_reach pb s →
  walls s = walls (initial_state pb)
  ∧ goals s = goals (initial_state pb)
  ∧ size (boxes s) = size (boxes (initial_state pb))
  ∧ (well_placed (initial_state pb) → well_placed s)
  ∧ (is_Some (player (initial_state pb)) → is_Some (player s)).
Proof.
  induction 1 as [|s acts a s' c Hs (IHw & IHg & IHn & IHwp & IHp) Hacts Ha Hres].
  { done. }
  destruct (offered_action_keeps s acts a s' c Hacts Ha Hres)
    as (_ & -> & -> & -> & Hp' & Hwp').
  split_and!; [done..|by intros ?%IHwp%Hwp'|done].
Qed.


(** Two states of one instance's graph with the same boxes and the same
    player are the same state. *)
Lemma as_problem_key_faithful pb : key_faithful state_key (as_problem pb).
Proof.
  intros s1 s2 (Hw1 & Hg1 & _)%sokoban_reach_keeps (Hw2 & Hg2 & _)%sokoban_reach_keeps.
  destruct s1 as [b1 p1 w1 g1], s2 as [b2 p2 w2 g2].
  cbn in *. intros [= -> ->]. congruence.
Qed.

(** X11.  Whatever the state and the action name, legal or not: when
    [result] returns, the cost is 1, walls and goals are untouched, the
    player has moved by exactly one cell and does not stand on a box, and
    there are no more boxes than before. *)
Theorem result_moves_player_one_step s act s' c :
  result s act = Some (s', c) →
  c = 1 ∧ walls s' = walls s ∧ goals s' = goals s
  ∧ (size (boxes s') ≤ size (boxes s))%nat
  ∧ ∃ pl pl', player s = Some pl ∧ player s' = Some pl'
              ∧ Z.abs (pl'.1 - pl.1) + Z.abs (pl'.2 - pl.2) = 1
              ∧ pl' ∉ boxes s'.
Proof.
  unfold result. destruct (dir_map act) as [[dr dc]|] eqn:Hd; [|done].
  destruct (player s) as [pl|] eqn:Hpl; [|done].
  intros [= <- <-]. cbn [boxes walls goals player].
  apply dir_map_unit in Hd.
  split; [done|]. split; [done|]. split; [done|]. split.
  - case_decide as Hbox; [|done].
    set (np := (pl.1 + dr, pl.2 + dc)) in *.
    set (nb := (pl.1 + dr + dr, pl.2 + dc + dc)).
    rewrite size_union_alt, size_singleton.
    match goal with
    | |- (1 + size (?Y ∖ ?X) ≤ size ?B)%nat =>
        assert (size (Y ∖ X) ≤ size Y)%nat by (apply subseteq_size; set_solver);
        assert (size Y < size B)%nat by (apply subset_size; set_solver)
    end.
    lia.
  - exists pl, (pl.1 + dr, pl.2 + dc). split; [done|]. split; [done|].
    split; [cbn [fst snd]; lia|].
    cbn [fst snd]. case_decide as Hbox; [|done].
    assert ((pl.1 + dr + dr, pl.2 + dc + dc) ≠ (pl.1 + dr, pl.2 + dc)).
    { intros [= ? ?]. lia. }
    set_solver.
Qed.

(** X12.  A move that pushes nothing can be undone: from a state whose
    player is neither in a wall nor on a box, after an offered action that
    enters a cell without a box, some action is offered that leads back to
    the very state. *)
Theorem plain_move_can_be_undone s acts act s' :
  well_placed s →
  actions s = Some acts → act ∈ acts →
  result s act = Some (s', 1) →
  boxes s' = boxes s →
  ∃ acts' back, actions s' = Some acts' ∧ back ∈ acts' ∧ result s' back = Some (s, 1).
Proof.
  intros (_ & _ & Hp) Ha Hin Hres Hsame.
  destruct (offered_action _ _ _ Ha Hin) as (pl & dr & dc & Hpl & Hd & Hunit & Hnw & Hpush).
  destruct (Hp _ Hpl) as [Hpw Hpb].
  rewrite (result_Some _ _ _ _ _ Hpl Hd) in Hres. injection Hres as <-.
  cbn [boxes] in Hsame.
  assert ((pl.1 + dr, pl.2 + dc) ∉ boxes s) as Hnb.
  { intros Hbox. rewrite decide_True in Hsame by done.
    assert ((pl.1 + dr + dr, pl.2 + dc + dc) ≠ (pl.1 + dr, pl.2 + dc)).
    { intros [= ? ?]. lia. }
    set_solver. }
  rewrite decide_False by done. clear Hsame.
  unfold actions. cbn [player boxes walls goals].
  eexists.
  assert (∃ back, (- dr, - dc, back) ∈ directions) as [back Hback].
  { unfold dir_map in Hd. unfold directions.
    repeat case_decide; try done; injection Hd as <- <-;
      eexists; rewrite !elem_of_cons; cbn; eauto 10. }
  exists back. split; [reflexivity|].
  assert ((pl.1 + dr + - dr, pl.2 + dc + - dc) = pl) as Hpl_back.
  { destruct pl as [x y]. cbn. f_equal; lia. }
  split.
  - apply list_elem_of_omap. exists (- dr, - dc, back). split; [done|].
    unfold try_direction. cbv zeta. cbn [fst snd walls boxes].
    rewrite Hpl_back.
    rewrite decide_False by done. by rewrite decide_False by done.
  - erewrite result_Some; [|reflexivity|by apply dir_map_directions].
    cbn [fst snd walls boxes goals]. rewrite Hpl_back.
    rewrite decide_False by done.
    destruct s as [b p w g]. cbn in *. by rewrite Hpl.
Qed.

End MoveFacts.

(** ** The estimators *)

Lemma ext_add_zero a b :
  ext_nonneg a → ext_nonneg b → ext_add a b = Fin 0 ↔ a = Fin 0 ∧ b = Fin 0.
Proof.
  destruct a as [x|], b as [y|]; simpl; intros Ha Hb; split;
    try (intros [??]); try done.
  - intros [= Hxy]. split; f_equal; lia.
  - by simplify_eq.
Qed.

Lemma ext_add_nonneg a b : ext_nonneg a → ext_nonneg b → ext_nonneg (ext_add a b).
Proof. destruct a, b; simpl; lia. Qed.

Section HeuristicFacts.
Import sokoban heuristics.

Lemma manhattan_distance_nonneg p q : 0 ≤ manhattan_distance p q.
Proof. unfold manhattan_distance. lia. Qed.

Lemma manhattan_distance_zero p q : manhattan_distance p q = 0 ↔ p = q.
Proof.
  unfold manhattan_distance. destruct p as [a b], q as [c d]; simpl. split.
  - intros Hz. f_equal; lia.
  - intros [= -> ->]. lia.
Qed.

(** The running minimum of [nearest], from any non-negative start. *)
Lemma nearest_from box gl acc r :
  ext_nonneg acc →
  foldl (λ min_dist goal,
           let dist := Fin (manhattan_distance box goal) in
           if ext_ltb dist min_dist then dist else min_dist) acc gl = r →
  ext_nonneg r ∧ (r = Fin 0 ↔ acc = Fin 0 ∨ box ∈ gl).
Proof.
  revert acc r. induction gl as [|goal gl IH]; intros acc r Hacc <-; cbn [foldl].
  { split; [done|]. rewrite elem_of_nil. naive_solver. }
  pose proof (manhattan_distance_nonneg box goal) as Hd.
  pose proof (manhattan_distance_zero box goal) as Hz.
  cbv zeta.
  destruct (ext_ltb (Fin (manhattan_distance box goal)) acc) eqn:Hlt.
  - destruct (IH (Fin (manhattan_distance box goal)) _ Hd eq_refl) as [Hnn Hiff].
    split; [done|]. rewrite Hiff, elem_of_cons. split.
    + intros [[= Hzero]|?]; [|tauto]. right; left. by apply Hz.
    + intros [->|[->|?]]; [simpl in Hlt; lia| |tauto].
      left. f_equal. by apply Hz.
  - destruct (IH acc _ Hacc eq_refl) as [Hnn Hiff].
    split; [done|]. rewrite Hiff, elem_of_cons. split; [tauto|].
    intros [?|[->|?]]; [tauto| |tauto].
    left. assert (manhattan_distance goal goal = 0) as Hgg by (by apply Hz).
    rewrite Hgg in Hlt. destruct acc as [z|]; simpl in *; [|done].
    f_equal. lia.
Qed.

Lemma nearest_zero box gl : nearest box gl = Fin 0 ↔ box ∈ gl.
Proof.
  unfold nearest. destruct (nearest_from box gl Inf _ I eq_refl) as [_ ->]. naive_solver.
Qed.

Lemma nearest_nonneg box gl : ext_nonneg (nearest box gl).
Proof. unfold nearest. by destruct (nearest_from box gl Inf _ I eq_refl) as [? _]. Qed.

Lemma manhattan_sum_from gl bl acc r :
  ext_nonneg acc →
  foldl (λ total box, ext_add total (nearest box gl)) acc bl = r →
  ext_nonneg r ∧ (r = Fin 0 ↔ acc = Fin 0 ∧ ∀ box, box ∈ bl → box ∈ gl).
Proof.
  revert acc r. induction bl as [|box bl IH]; intros acc r Hacc <-; cbn [foldl].
  { split; [done|]. split; [|tauto]. intros ->. split; [done|]. by intros ? ?%elem_of_nil. }
  pose proof (nearest_nonneg box gl) as Hn.
  destruct (IH (ext_add acc (nearest box gl)) _ (ext_add_nonneg _ _ Hacc Hn) eq_refl)
    as [Hnn Hiff].
  split; [done|]. rewrite Hiff, ext_add_zero, nearest_zero by done.
  setoid_rewrite elem_of_cons. naive_solver.
Qed.


(** What the inner loop of the greedy matching returns: the start value, or
    an unused goal with its distance; and it does move away from an
    infinite start as soon as an unused goal exists. *)
Lemma best_unused_choice (box : pos) (used : gset pos) (gl : list pos) acc r :
  foldl (λ best goal,
           if decide (goal ∈ used) then best
           else
             let dist := Fin (manhattan_distance box goal) in
             if ext_ltb dist best.1 then (dist, Some goal) else best)
        acc gl = r →
  (r = acc ∨ (∃ goal, goal ∈ gl ∧ (goal ∉ used)
                      ∧ r = (Fin (manhattan_distance box goal), Some goal)))
  ∧ (acc.1 = Inf → (∃ goal, goal ∈ gl ∧ goal ∉ used) → r ≠ acc).
Proof.
  revert acc r. induction gl as [|goal gl IH]; intros acc r Hr; cbn [foldl] in Hr.
  { subst r. split; [by left|]. intros _ (? & []%elem_of_nil & _). }
  destruct (IH _ _ Hr) as [Hor Hinf]. clear IH Hr.
  setoid_rewrite elem_of_cons. revert Hor Hinf.
  case_decide as Hused; [|cbv zeta;
    destruct (ext_ltb (Fin (manhattan_distance box goal)) acc.1) eqn:Hlt];
    intros Hor Hinf.
  - split; [naive_solver|].
    intros Hi (g' & [->|Hin] & Hnu); [done|]. apply Hinf; eauto.
  - split.
    + right. destruct Hor as [->|(g' & ? & ? & ->)]; eauto 10.
    + intros Hi _ Heq. destruct Hor as [Hr|(g' & ? & ? & Hr)];
        rewrite Hr in Heq; rewrite <- Heq in Hi; done.
  - split; [naive_solver|]. intros Hi _. rewrite Hi in Hlt. done.
Qed.

(** Nothing beats distance 0. *)
Lemma best_unused_stays_zero (box : pos) (used : gset pos) (gl : list pos)
    (x : option pos) :
  foldl (λ best goal,
           if decide (goal ∈ used) then best
           else
             let dist := Fin (manhattan_distance box goal) in
             if ext_ltb dist best.1 then (dist, Some goal) else best)
        (Fin 0, x) gl = (Fin 0, x).
Proof.
  induction gl as [|goal gl IH]; simpl; [done|].
  case_decide; [done|].
  pose proof (manhattan_distance_nonneg box goal).
  destruct (_ <? 0) eqn:Hlt; [lia|done].
Qed.

(** A box standing on an unused goal claims that very goal. *)
Lemma best_unused_self (box : pos) (used : gset pos) (gl : list pos) acc :
  ext_nonneg acc.1 →
  (acc.1 = Fin 0 → acc.2 = Some box) →
  box ∈ gl → box ∉ used →
  foldl (λ best goal,
           if decide (goal ∈ used) then best
           else
             let dist := Fin (manhattan_distance box goal) in
             if ext_ltb dist best.1 then (dist, Some goal) else best)
        acc gl = (Fin 0, Some box).
Proof.
  revert acc. induction gl as [|goal gl IH]; intros [d x] Hnn Hz Hin Hnu.
  { by apply elem_of_nil in Hin. }
  cbn [foldl fst snd] in *. cbv zeta.
  pose proof (manhattan_distance_nonneg box goal) as Hd.
  destruct (decide (goal = box)) as [->|Hne].
  - rewrite decide_False by done.
    assert (manhattan_distance box box = 0) as -> by (by apply manhattan_distance_zero).
    destruct (ext_ltb (Fin 0) d) eqn:Hlt.
    + apply (best_unused_stays_zero box used gl).
    + assert (d = Fin 0) as ->.
      { destruct d as [z|]; simpl in *; [f_equal; lia|done]. }
      rewrite (Hz eq_refl). apply (best_unused_stays_zero box used gl).
  - apply elem_of_cons in Hin as [->|Hin]; [done|].
    case_decide; [by apply IH|].
    destruct (ext_ltb (Fin (manhattan_distance box goal)) d) eqn:Hlt; [|by apply IH].
    apply IH; cbn [fst snd]; try done.
    intros [= Hzero]. apply manhattan_distance_zero in Hzero. congruence.
Qed.

(** The outer loop when every remaining box stands on a goal nobody has
    claimed: each claims its own cell and the total stays 0. *)
Lemma match_boxes_on_goals gl bl acc :
  acc.1 = Fin 0 → NoDup bl →
  (∀ b, b ∈ bl → b ∈ gl ∧ b ∉ acc.2) →
  (foldl (λ acc box,
            let '(best_dist, best_goal) := best_unused box acc.2 gl in
            match best_goal with
            | Some g => (ext_add acc.1 best_dist, {[g]} ∪ acc.2)
            | None => acc
            end) acc bl).1 = Fin 0.
Proof.
  revert acc. induction bl as [|b bl IH]; intros acc Hz Hnd Hall; cbn [foldl]; [done|].
  apply NoDup_cons in Hnd as [Hnb Hnd].
  destruct (Hall b) as [Hbg Hbu]; [by left|].
  assert (best_unused b acc.2 gl = (Fin 0, Some b)) as ->.
  { by apply (best_unused_self b acc.2 gl (Inf, None)). }
  apply IH; cbn [fst snd]; [by rewrite Hz|done|].
  intros b' Hb'. destruct (Hall b') as [??]; [by right|].
  split; [done|]. set_solver.
Qed.

Lemma unclaimed_goal_exists (used G : gset pos) :
  used ⊆ G → (size used < size G)%nat → ∃ x, x ∈ G ∧ x ∉ used.
Proof.
  intros Hsub Hlt.
  destruct (set_choose_L (G ∖ used)) as [x Hx]; [|set_solver].
  intros Heq. pose proof (size_difference G used Hsub) as Hs.
  rewrite Heq, size_empty in Hs. lia.
Qed.

(** The outer loop when the goals cannot run out: a total of 0 means the
    start was 0 and every box claimed a goal at distance 0, its own cell. *)
Lemma match_boxes_zero gl bl acc :
  ext_nonneg acc.1 →
  acc.2 ⊆ list_to_set gl →
  (size acc.2 + length bl ≤ size (list_to_set (C := gset pos) gl))%nat →
  (foldl (λ acc box,
            let '(best_dist, best_goal) := best_unused box acc.2 gl in
            match best_goal with
            | Some g => (ext_add acc.1 best_dist, {[g]} ∪ acc.2)
            | None => acc
            end) acc bl).1 = Fin 0 →
  acc.1 = Fin 0 ∧ ∀ b, b ∈ bl → b ∈ gl.
Proof.
  revert acc. induction bl as [|b bl IH]; intros acc Hnn Hsub Hsz; cbn [foldl].
  { intros ->. split; [done|]. by intros ? ?%elem_of_nil. }
  cbn [length] in Hsz.
  destruct (unclaimed_goal_exists acc.2 (list_to_set gl)) as (x & Hx & Hxu);
    [done|lia|].
  apply elem_of_list_to_set in Hx.
  destruct (best_unused_choice b acc.2 gl (Inf, None) (best_unused b acc.2 gl) eq_refl)
    as [Hor Hmove].
  destruct Hor as [Hr|(goal & Hg & Hgu & Hr)]; [exfalso; apply Hmove; eauto|].
  rewrite Hr.
  pose proof (manhattan_distance_nonneg b goal) as Hd.
  intros Hfold. apply IH in Hfold as [Hz Hrest]; cbn [fst snd] in *.
  - apply ext_add_zero in Hz as [Hacc [= Hdist]]; [|done..].
    split; [done|]. intros b' [->|?]%elem_of_cons; [|by apply Hrest].
    apply manhattan_distance_zero in Hdist. by subst.
  - by apply ext_add_nonneg.
  - apply union_subseteq. split; [|done].
    apply singleton_subseteq_l. by apply elem_of_list_to_set.
  - rewrite size_union by set_solver. rewrite size_singleton. lia.
Qed.

Lemma filter_length_zero {A} (P : A → Prop) `{∀ x, Decision (P x)} (l : list A) :
  length (filter P l) = 0%nat ↔ ∀ x, x ∈ l → ¬ P x.
Proof.
  induction l as [|a l IH]; simpl.
  { split; [by intros _ ? ?%elem_of_nil|done]. }
  rewrite filter_cons. setoid_rewrite elem_of_cons.
  destruct (decide (P a)); simpl; [naive_solver|].
  rewrite IH. naive_solver.
Qed.

End HeuristicFacts.

Section EstimatorsOnSets.
Import sokoban heuristics.

(** Whatever the order in which a set yields its elements, it yields each
    of them once. *)
Variable iter : gset pos → list pos.
Hypothesis iter_NoDup : ∀ X, NoDup (iter X).
Hypothesis elem_of_iter : ∀ X x, x ∈ iter X ↔ x ∈ X.

Lemma iter_length X : length (iter X) = size X.
Proof.
  assert (iter X ≡ₚ elements X) as ->; [|done].
  apply NoDup_Permutation; [done|apply NoDup_elements|].
  intros x. by rewrite elem_of_iter, elem_of_elements.
Qed.

Lemma list_to_set_iter X : list_to_set (iter X) = X.
Proof. apply set_eq. intros x. by rewrite elem_of_list_to_set, elem_of_iter. Qed.

Lemma manhattan_heuristic_zero s gls :
  manhattan_heuristic iter s gls = Fin 0 ↔ boxes s ⊆ gls.
Proof.
  unfold manhattan_heuristic.
  destruct (manhattan_sum_from (iter gls) (iter (boxes s)) (Fin 0) _ (Z.le_refl 0) eq_refl)
    as [_ ->].
  setoid_rewrite elem_of_iter. set_solver.
Qed.

Lemma simple_count_heuristic_zero s gls :
  simple_count_heuristic iter s gls = Fin 0 ↔ boxes s ⊆ gls.
Proof.
  unfold simple_count_heuristic. split.
  - intros [= Hlen].
    assert (length (filter (λ b, b ∉ gls) (iter (boxes s))) = 0%nat) as Hl by lia.
    rewrite filter_length_zero in Hl.
    intros b Hb. destruct (decide (b ∈ gls)); [done|].
    exfalso. eapply Hl; [by apply elem_of_iter|done].
  - intros Hsub. f_equal.
    enough (length (filter (λ b, b ∉ gls) (iter (boxes s))) = 0%nat) by lia.
    apply filter_length_zero.
    intros b Hb%elem_of_iter. set_solver.
Qed.

Lemma minimum_matching_zero_on_goals s gls :
  boxes s ⊆ gls → minimum_matching_heuristic iter s gls = Fin 0.
Proof.
  intros Hsub. unfold minimum_matching_heuristic.
  destruct (iter (boxes s)) as [|b bl] eqn:Hbl; [done|].
  unfold match_boxes. apply match_boxes_on_goals; [done|..].
  - rewrite <- Hbl. apply iter_NoDup.
  - intros b' Hb'. rewrite <- Hbl in Hb'. apply elem_of_iter in Hb'.
    split; [apply elem_of_iter; set_solver|set_solver].
Qed.

Lemma minimum_matching_zero_enough_goals s gls :
  (size (boxes s) ≤ size gls)%nat →
  minimum_matching_heuristic iter s gls = Fin 0 → boxes s ⊆ gls.
Proof.
  intros Hsz. unfold minimum_matching_heuristic.
  destruct (iter (boxes s)) as [|b bl] eqn:Hbl.
  { intros _ x Hx%elem_of_iter. rewrite Hbl in Hx. by apply elem_of_nil in Hx. }
  unfold match_boxes. intros Hz.
  apply match_boxes_zero in Hz as [_ Hall]; cbn [fst snd].
  - intros x Hx%elem_of_iter. rewrite Hbl in Hx. apply elem_of_iter. by apply Hall.
  - done.
  - set_solver.
  - rewrite size_empty, list_to_set_iter, <- Hbl, iter_length. lia.
Qed.

(** C7, as the code has it.  The sum-of-nearest and the unmet-count
    estimators return 0 exactly when every box is on a goal cell.  The
    greedy matching returns 0 whenever every box is on a goal cell (so all
    three are 0 on a goal state), and a 0 from it means that every box is
    on a goal cell provided there are at least as many goals as boxes. *)
Theorem estimators_zero s gls :
  (manhattan_heuristic iter s gls = Fin 0 ↔ boxes s ⊆ gls)
  ∧ (simple_count_heuristic iter s gls = Fin 0 ↔ boxes s ⊆ gls)
  ∧ (boxes s ⊆ gls → minimum_matching_heuristic iter s gls = Fin 0)
  ∧ ((size (boxes s) ≤ size gls)%nat →
     minimum_matching_heuristic iter s gls = Fin 0 → boxes s ⊆ gls)
  ∧ (is_goal s = true →
     manhattan_heuristic iter s (goals s) = Fin 0
     ∧ simple_count_heuristic iter s (goals s) = Fin 0
     ∧ minimum_matching_heuristic iter s (goals s) = Fin 0).
Proof.
  split_and!.
  - apply manhattan_heuristic_zero.
  - apply simple_count_heuristic_zero.
  - apply minimum_matching_zero_on_goals.
  - apply minimum_matching_zero_enough_goals.
  - intros Hg. apply bool_decide_eq_true in Hg.
    assert (boxes s ⊆ goals s) as Hsub by (by rewrite Hg).
    split_and!.
    + by apply manhattan_heuristic_zero.
    + by apply simple_count_heuristic_zero.
    + by apply minimum_matching_zero_on_goals.
Qed.

End EstimatorsOnSets.

Lemma estimators_zero_witness :
  let s := sokoban.mkState {[(1, 3)]} (Some (1, 2)) ∅ {[(1, 3)]} in
  heuristics.minimum_matching_heuristic elements s (sokoban.goals s) = Fin 0.
Proof.
  intros s.
  refine (proj1 (proj2 (proj2 (estimators_zero elements _ _ s (sokoban.goals s)))) _).
  - intros X. apply NoDup_elements.
  - intros X x. apply elem_of_elements.
  - reflexivity.
Defined.

(** C7, refuted as stated: with a box and no goal left to claim, the greedy
    matching skips the box and returns 0 although the box is off-goal; the
    other two estimators do not return 0 there. *)
Lemma matching_zero_with_box_off_goal :
  let s := sokoban.mkState {[(1, 3)]} (Some (1, 1)) ∅ ∅ in
  heuristics.minimum_matching_heuristic elements s ∅ = Fin 0
  ∧ ¬ (sokoban.boxes s ⊆ ∅)
  ∧ heuristics.manhattan_heuristic elements s ∅ = Inf
  ∧ heuristics.simple_count_heuristic elements s ∅ = Fin 1.
Proof.
  simpl. split_and!; [by vm_compute| |by vm_compute..].
  intros Hsub. specialize (Hsub (1, 3)). set_solver.
Qed.

(** ** The estimators compared with each other and with the moves *)

Lemma ext_le_refl a : ext_le a a.
Proof. destruct a; simpl; [lia|done]. Qed.

Lemma ext_le_trans a b c : ext_le a b → ext_le b c → ext_le a c.
Proof. destruct a, b, c; simpl; try done. lia. Qed.

Lemma ext_le_antisym a b : ext_le a b → ext_le b a → a = b.
Proof. destruct a, b; simpl; try done. intros. f_equal. lia. Qed.

Lemma ext_le_Inf a : ext_le a Inf.
Proof. by destruct a. Qed.

Lemma ext_ltb_le a b : ext_le (if ext_ltb a b then a else b) a
                       ∧ ext_le (if ext_ltb a b then a else b) b.
Proof. destruct a as [x|], b as [y|]; simpl; try done. destruct (x <? y) eqn:?; simpl; lia. Qed.

Lemma ext_add_mono a a' b b' :
  ext_le a a' → ext_le b b' → ext_le (ext_add a b) (ext_add a' b').
Proof. destruct a, a', b, b'; simpl; try done. lia. Qed.

Lemma ext_add_swap a x y : ext_add (ext_add a x) y = ext_add (ext_add a y) x.
Proof. destruct a, x, y; simpl; try done. f_equal. lia. Qed.

Lemma ext_add_shift k a x : ext_add (ext_add (Fin k) a) x = ext_add (Fin k) (ext_add a x).
Proof. destruct a, x; simpl; try done. f_equal. lia. Qed.

Section Sums.
Context {A : Type}.
Implicit Types (f : A → ext) (l : list A).

Local Notation sum f := (foldl (λ total box, ext_add total (f box))).

Lemma sum_perm f l l' a : l ≡ₚ l' → sum f a l = sum f a l'.
Proof.
  intros Hp. revert a. induction Hp as [|x l l' _ IH|x y l|l l' l'' _ IH1 _ IH2];
    intros a; cbn [foldl].
  - done.
  - apply IH.
  - by rewrite ext_add_swap.
  - by rewrite IH1.
Qed.

Lemma sum_mono f f' l a a' :
  ext_le a a' → (∀ b, b ∈ l → ext_le (f b) (f' b)) → ext_le (sum f a l) (sum f' a' l).
Proof.
  revert a a'. induction l as [|b l IH]; intros a a' Ha Hf; cbn [foldl]; [done|].
  apply IH.
  - apply ext_add_mono; [done|]. apply Hf. by left.
  - intros b' Hb'. apply Hf. by right.
Qed.

Lemma sum_shift f l k a : sum f (ext_add (Fin k) a) l = ext_add (Fin k) (sum f a l).
Proof.
  revert a. induction l as [|b l IH]; intros a; cbn [foldl]; [done|].
  by rewrite ext_add_shift, IH.
Qed.

(** Counting the items of a kind stays below a sum that gives each item
    of that kind at least 1. *)
Lemma count_le_sum (P : A → Prop) `{∀ x, Decision (P x)} f l n a :
  ext_le (Fin n) a →
  (∀ b, b ∈ l → ext_nonneg (f b) ∧ (P b → ext_le (Fin 1) (f b))) →
  ext_le (Fin (n + Z.of_nat (length (filter P l)))) (sum f a l).
Proof.
  revert n a. induction l as [|b l IH]; intros n a Ha Hf; cbn [foldl].
  { simpl. by rewrite Z.add_0_r. }
  destruct (Hf b) as [Hnn Hone]; [by left|].
  rewrite filter_cons. destruct (decide (P b)) as [HP|HP]; cbn [length].
  - replace (n + Z.of_nat (S (length (filter P l))))
      with ((n + 1) + Z.of_nat (length (filter P l))) by lia.
    apply IH; [|intros b' Hb'; apply Hf; by right].
    specialize (Hone HP). destruct a, (f b); simpl in *; try done. lia.
  - apply IH; [|intros b' Hb'; apply Hf; by right].
    destruct a, (f b); simpl in *; try done. lia.
Qed.
End Sums.

Section HeuristicOrder.
Import sokoban heuristics.

Lemma manhattan_distance_triangle p q g :
  manhattan_distance p g ≤ manhattan_distance p q + manhattan_distance q g.
Proof. unfold manhattan_distance. lia. Qed.

(** The running minimum of [nearest] is a least distance. *)
Lemma nearest_from_least box gl acc r :
  foldl (λ min_dist goal,
           let dist := Fin (manhattan_distance box goal) in
           if ext_ltb dist min_dist then dist else min_dist) acc gl = r →
  ext_le r acc
  ∧ (∀ g, g ∈ gl → ext_le r (Fin (manhattan_distance box g)))
  ∧ (r = acc ∨ ∃ g, g ∈ gl ∧ r = Fin (manhattan_distance box g)).
Proof.
  revert acc r. induction gl as [|goal gl IH]; intros acc r Hr; cbn [foldl] in Hr.
  { subst r. split_and!; [apply ext_le_refl|by intros ? ?%elem_of_nil|by left]. }
  destruct (ext_ltb_le (Fin (manhattan_distance box goal)) acc) as [Hd Hacc].
  destruct (IH _ _ Hr) as (Hle & Hall & Hor). clear IH Hr. cbv zeta in *.
  split_and!.
  - by eapply ext_le_trans.
  - intros g [->|Hg]%elem_of_cons; [by eapply ext_le_trans|by apply Hall].
  - destruct Hor as [->|(g & Hg & ->)].
    + destruct (ext_ltb _ acc); [right|by left]. exists goal. split; [by left|done].
    + right. exists g. split; [by right|done].
Qed.

Lemma nearest_least box gl g :
  g ∈ gl → ext_le (nearest box gl) (Fin (manhattan_distance box g)).
Proof.
  intros Hg. destruct (nearest_from_least box gl Inf _ eq_refl) as (_ & Hall & _).
  by apply Hall.
Qed.

Lemma nearest_attained box gl :
  nearest box gl = Inf ∨ ∃ g, g ∈ gl ∧ nearest box gl = Fin (manhattan_distance box g).
Proof. by destruct (nearest_from_least box gl Inf _ eq_refl) as (_ & _ & Hor). Qed.

Lemma nearest_same_goals box gl gl' :
  (∀ g, g ∈ gl ↔ g ∈ gl') → nearest box gl = nearest box gl'.
Proof.
  assert (∀ l l', (∀ g, g ∈ l' → g ∈ l) → ext_le (nearest box l) (nearest box l')) as Hle.
  { intros l l' Hsub. destruct (nearest_attained box l') as [->|(g & Hg & ->)].
    - apply ext_le_Inf.
    - by apply nearest_least, Hsub. }
  intros Hiff. apply ext_le_antisym; apply Hle; intros g; apply Hiff.
Qed.

Lemma nearest_triangle p q gl :
  ext_le (nearest p gl) (ext_add (Fin (manhattan_distance p q)) (nearest q gl)).
Proof.
  destruct (nearest_attained q gl) as [->|(g & Hg & ->)]; [apply ext_le_Inf|].
  eapply ext_le_trans; [by apply nearest_least|].
  simpl. apply manhattan_distance_triangle.
Qed.

(** A box off the goals is at least one step from the nearest goal. *)
Lemma nearest_off_goal box gl : box ∉ gl → ext_le (Fin 1) (nearest box gl).
Proof.
  intros Hoff. pose proof (nearest_nonneg box gl) as Hnn.
  pose proof (nearest_zero box gl) as Hz.
  destruct (nearest box gl) as [z|]; simpl in *; [|done].
  destruct (decide (z = 0)) as [->|]; [|lia]. exfalso. by apply Hoff, Hz.
Qed.

(** The claim of the greedy matching is no nearer than the nearest goal,
    and there is one as long as a goal is unclaimed. *)
Lemma best_unused_far (box : pos) (used : gset pos) (gl : list pos) :
  (∃ g, g ∈ gl ∧ g ∉ used) →
  ∃ g, g ∈ gl ∧ (g ∉ used)
       ∧ best_unused box used gl = (Fin (manhattan_distance box g), Some g)
       ∧ ext_le (nearest box gl) (Fin (manhattan_distance box g)).
Proof.
  intros Hfree.
  destruct (best_unused_choice box used gl (Inf, None) (best_unused box used gl) eq_refl)
    as [Hor Hmove].
  destruct Hor as [Hr|(goal & Hg & Hgu & Hr)]; [exfalso; by apply Hmove|].
  exists goal. split_and!; [done..|]. by apply nearest_least.
Qed.

Lemma match_boxes_above_sum gl bl acc a :
  ext_le a acc.1 →
  acc.2 ⊆ list_to_set gl →
  (size acc.2 + length bl ≤ size (list_to_set (C := gset pos) gl))%nat →
  ext_le (foldl (λ total box, ext_add total (nearest box gl)) a bl)
         (foldl (λ acc box,
                   let '(best_dist, best_goal) := best_unused box acc.2 gl in
                   match best_goal with
                   | Some g => (ext_add acc.1 best_dist, {[g]} ∪ acc.2)
                   | None => acc
                   end) acc bl).1.
Proof.
  revert acc a. induction bl as [|b bl IH]; intros acc a Ha Hsub Hsz; cbn [foldl]; [done|].
  cbn [length] in Hsz.
  destruct (unclaimed_goal_exists acc.2 (list_to_set gl)) as (x & Hx & Hxu);
    [done|lia|].
  apply elem_of_list_to_set in Hx.
  destruct (best_unused_far b acc.2 gl) as (g & Hg & Hgu & -> & Hle); [by eauto|].
  apply IH; cbn [fst snd].
  - by apply ext_add_mono.
  - apply union_subseteq. split; [|done].
    apply singleton_subseteq_l. by apply elem_of_list_to_set.
  - rewrite size_union by set_solver. rewrite size_singleton. lia.
Qed.

End HeuristicOrder.

Section EstimatorsCompared.
Import sokoban heuristics.

(** Two orders in which a set may be run through. *)
Variables iter iter' : gset pos → list pos.
Hypothesis iter_NoDup : ∀ X, NoDup (iter X).
Hypothesis elem_of_iter : ∀ X x, x ∈ iter X ↔ x ∈ X.
Hypothesis iter'_NoDup : ∀ X, NoDup (iter' X).
Hypothesis elem_of_iter' : ∀ X x, x ∈ iter' X ↔ x ∈ X.

Lemma iter_perm X : iter X ≡ₚ iter' X.
Proof.
  apply NoDup_Permutation; [done..|]. intros x. by rewrite elem_of_iter, elem_of_iter'.
Qed.

Lemma manhattan_heuristic_order s gls :
  manhattan_heuristic iter s gls = manhattan_heuristic iter' s gls.
Proof.
  unfold manhattan_heuristic. rewrite (sum_perm _ _ _ _ (iter_perm (boxes s))).
  apply ext_le_antisym; (apply sum_mono; [apply ext_le_refl|]); intros b _;
    (erewrite nearest_same_goals; [apply ext_le_refl|]); intros g;
    by rewrite elem_of_iter, elem_of_iter'.
Qed.

Lemma simple_count_heuristic_order s gls :
  simple_count_heuristic iter s gls = simple_count_heuristic iter' s gls.
Proof.
  unfold simple_count_heuristic. by rewrite (iter_perm (boxes s)).
Qed.

End EstimatorsCompared.

Section EstimatorsAndMoves.
Import sokoban heuristics.

Variable iter : gset pos → list pos.
Hypothesis iter_NoDup : ∀ X, NoDup (iter X).
Hypothesis elem_of_iter : ∀ X x, x ∈ iter X ↔ x ∈ X.

Lemma iter_elements X : iter X ≡ₚ elements X.
Proof.
  apply NoDup_Permutation; [done|apply NoDup_elements|].
  intros x. by rewrite elem_of_iter, elem_of_elements.
Qed.

Lemma iter_insert x X : x ∉ X → iter ({[x]} ∪ X) ≡ₚ x :: iter X.
Proof.
  intros Hx. rewrite !iter_elements. by apply elements_union_singleton.
Qed.

Lemma count_below_sum s gls :
  ext_le (simple_count_heuristic iter s gls) (manhattan_heuristic iter s gls).
Proof.
  unfold simple_count_heuristic, manhattan_heuristic.
  apply (count_le_sum (λ b, b ∉ gls) _ _ 0); [done|].
  intros b _. split; [apply nearest_nonneg|].
  intros Hoff. apply nearest_off_goal. by rewrite elem_of_iter.
Qed.

Lemma sum_below_matching s gls :
  (size (boxes s) ≤ size gls)%nat →
  ext_le (manhattan_heuristic iter s gls) (minimum_matching_heuristic iter s gls).
Proof.
  intros Hsz. unfold manhattan_heuristic, minimum_matching_heuristic.
  destruct (iter (boxes s)) as [|b bl] eqn:Hbl; [done|].
  unfold match_boxes. apply match_boxes_above_sum; cbn [fst snd].
  - done.
  - set_solver.
  - rewrite size_empty, list_to_set_iter by done.
    rewrite <- Hbl, iter_length by done. lia.
Qed.

(** One offered action changes each of the two order-free estimates by at
    most one. *)
Lemma estimates_step s acts a s' c gls :
  actions s = Some acts → a ∈ acts → result s a = Some (s', c) →
  ext_le (manhattan_heuristic iter s gls)
         (ext_add (Fin 1) (manhattan_heuristic iter s' gls))
  ∧ ext_le (simple_count_heuristic iter s gls)
           (ext_add (Fin 1) (simple_count_heuristic iter s' gls)).
Proof.
  intros Ha Hin Hres.
  destruct (offered_action _ _ _ Ha Hin) as (pl & dr & dc & Hpl & Hd & Hunit & Hnw & Hpush).
  rewrite (result_Some _ _ _ _ _ Hpl Hd) in Hres. injection Hres as <- <-.
  unfold manhattan_heuristic, simple_count_heuristic. cbn [boxes].
  set (np := (pl.1 + dr, pl.2 + dc)) in *.
  set (nb := (pl.1 + dr + dr, pl.2 + dc + dc)) in *.
  case_decide as Hbox.
  - destruct (Hpush Hbox) as [_ Hfree].
    assert (iter (boxes s) ≡ₚ np :: iter (boxes s ∖ {[np]})) as Hold.
    { rewrite <- iter_insert by set_solver. rewrite !iter_elements.
      apply elements_proper. set_unfold. intros x.
      destruct (decide (x = np)); naive_solver. }
    assert (iter ({[nb]} ∪ boxes s ∖ {[np]}) ≡ₚ nb :: iter (boxes s ∖ {[np]})) as Hnew.
    { apply iter_insert. set_solver. }
    split.
    + rewrite (sum_perm _ _ _ _ Hold), (sum_perm _ _ _ _ Hnew). cbn [foldl].
      rewrite <- sum_shift. apply sum_mono; [|intros; apply ext_le_refl].
      eapply ext_le_trans; [apply (ext_add_mono (Fin 0) (Fin 0)); [done|]|].
      * apply (nearest_triangle np nb).
      * assert (manhattan_distance np nb = 1) as ->.
        { unfold manhattan_distance, np, nb. cbn [fst snd]. lia. }
        destruct (nearest nb (iter gls)); simpl; [lia|done].
    + rewrite Hold, Hnew, !filter_cons.
      simpl. repeat case_decide; cbn [length]; lia.
  - split.
    + rewrite <- sum_shift. apply sum_mono; [done|intros; apply ext_le_refl].
    + simpl. lia.
Qed.

End EstimatorsAndMoves.

Section EstimatorTheorems.
Import sokoban heuristics.

(** X17.  The sum-of-nearest and the unmet-count estimates do not depend
    on the order in which the sets of boxes and goals are run through: any
    two orders that list each element once give the same value. *)
Theorem sum_and_count_ignore_iteration_order (iter iter' : gset pos → list pos) s gls :
  (∀ X, NoDup (iter X)) → (∀ X x, x ∈ iter X ↔ x ∈ X) →
  (∀ X, NoDup (iter' X)) → (∀ X x, x ∈ iter' X ↔ x ∈ X) →
  manhattan_heuristic iter s gls = manhattan_heuristic iter' s gls
  ∧ simple_count_heuristic iter s gls = simple_count_heuristic iter' s gls.
Proof.
  intros ? ? ? ?. split.
  - by apply manhattan_heuristic_order.
  - by apply simple_count_heuristic_order.
Qed.

(** X18.  The greedy matching does depend on that order: there are two
    boxes and two goals for which running through the boxes one way gives
    5 and the other way gives 3. *)
Theorem matching_depends_on_iteration_order :
  ∃ (iter iter' : gset pos → list pos) s gls,
    (∀ X, NoDup (iter X)) ∧ (∀ X x, x ∈ iter X ↔ x ∈ X)
    ∧ (∀ X, NoDup (iter' X)) ∧ (∀ X x, x ∈ iter' X ↔ x ∈ X)
    ∧ minimum_matching_heuristic iter s gls = Fin 5
    ∧ minimum_matching_heuristic iter' s gls = Fin 3.
Proof.
  set (s := mkState {[(1, 1); (1, 3)]} None ∅ ∅).
  set (gls := ({[(1, 2); (1, 5)]} : gset pos)).
  assert (∀ X : gset pos, NoDup (reverse (elements X))) as Hnd.
  { intros X. rewrite reverse_Permutation. apply NoDup_elements. }
  assert (∀ (X : gset pos) x, x ∈ reverse (elements X) ↔ x ∈ X) as Hel.
  { intros X x. by rewrite elem_of_reverse, elem_of_elements. }
  assert (minimum_matching_heuristic elements s gls = Fin 5
          ∧ minimum_matching_heuristic (λ X, reverse (elements X)) s gls = Fin 3
          ∨ minimum_matching_heuristic elements s gls = Fin 3
            ∧ minimum_matching_heuristic (λ X, reverse (elements X)) s gls = Fin 5)
    as [[H5 H3]|[H3 H5]].
  { vm_compute. first [by left|by right]. }
  - exists elements, (λ X, reverse (elements X)), s, gls.
    split_and!;
      first [done|intros; apply NoDup_elements|intros; apply elem_of_elements].
  - exists (λ X, reverse (elements X)), elements, s, gls.
    split_and!;
      first [done|intros; apply NoDup_elements|intros; apply elem_of_elements].
Qed.

(** X19.  How the three estimates compare: the unmet count never exceeds
    the sum of nearest distances, and the sum never exceeds the greedy
    matching when there are at least as many goals as boxes. *)
Theorem count_below_sum_below_matching (iter : gset pos → list pos) s gls :
  (∀ X, NoDup (iter X)) → (∀ X x, x ∈ iter X ↔ x ∈ X) →
  ext_le (simple_count_heuristic iter s gls) (manhattan_heuristic iter s gls)
  ∧ ((size (boxes s) ≤ size gls)%nat →
     ext_le (manhattan_heuristic iter s gls) (minimum_matching_heuristic iter s gls)).
Proof.
  intros ? ?. split.
  - by apply count_below_sum.
  - by apply sum_below_matching.
Qed.

(** X20.  The sum-of-nearest and the unmet-count estimates are
    consistent: an action offered in a state, of cost 1, lowers neither of
    them by more than 1. *)
Theorem sum_and_count_are_consistent (iter : gset pos → list pos) s acts a s' c gls :
  (∀ X, NoDup (iter X)) → (∀ X x, x ∈ iter X ↔ x ∈ X) →
  actions s = Some acts → a ∈ acts → result s a = Some (s', c) →
  c = 1
  ∧ ext_le (manhattan_heuristic iter s gls)
           (ext_add (Fin c) (manhattan_heuristic iter s' gls))
  ∧ ext_le (simple_count_heuristic iter s gls)
           (ext_add (Fin c) (simple_count_heuristic iter s' gls)).
Proof.
  intros ? ? Ha Hin Hres.
  destruct (offered_action_keeps _ _ _ _ _ Ha Hin Hres) as (-> & _).
  split; [done|]. by eapply estimates_step.
Qed.

(** X21.  The sum-of-nearest and the unmet-count estimates are
    admissible: when [n] offered actions lead from a state to one whose
    boxes are on the goals, neither estimate of the state, taken for its
    goals, exceeds [n]. *)
Theorem sum_and_count_are_admissible (iter : gset pos → list pos) pb s n t :
  (∀ X, NoDup (iter X)) → (∀ X x, x ∈ iter X ↔ x ∈ X) →
  walk (as_problem pb) s n t →
  is_goal t = true →
  ext_le (manhattan_heuristic iter s (goals s)) (Fin (Z.of_nat n))
  ∧ ext_le (simple_count_heuristic iter s (goals s)) (Fin (Z.of_nat n)).
Proof.
  intros Hnd Hel Hwalk Hgoal.
  assert (∀ gls, gls = goals t →
            ext_le (manhattan_heuristic iter s gls) (Fin (Z.of_nat n))
            ∧ ext_le (simple_count_heuristic iter s gls) (Fin (Z.of_nat n))
            ∧ goals s = goals t) as Hgen.
  { intros gls ->. induction Hwalk as [s|s acts a s' c n t Ha Hin Hres Hwalk IH].
    - apply bool_decide_eq_true in Hgoal.
      assert (boxes s ⊆ goals s) as Hsub by (by rewrite Hgoal).
      assert (manhattan_heuristic iter s (goals s) = Fin 0) as ->
        by (by apply manhattan_heuristic_zero).
      assert (simple_count_heuristic iter s (goals s) = Fin 0) as ->
        by (by apply simple_count_heuristic_zero).
      done.
    - destruct (IH Hgoal) as (IHm & IHc & IHg).
      destruct (offered_action_keeps _ _ _ _ _ Ha Hin Hres) as (_ & _ & Hg & _).
      destruct (estimates_step iter Hnd Hel _ _ _ _ _ (goals t) Ha Hin Hres) as [Hm Hc].
      split_and!; [| |congruence].
      + eapply ext_le_trans; [exact Hm|].
        destruct (manhattan_heuristic iter s' (goals t)); simpl in *; [lia|done].
      + eapply ext_le_trans; [exact Hc|].
        destruct (simple_count_heuristic iter s' (goals t)); simpl in *; [lia|done]. }
  destruct (Hgen (goals t) eq_refl) as (Hm & Hc & Hg). rewrite Hg. by split.
Qed.

End EstimatorTheorems.

(** ** The engine: frontier, index and explored set *)

Lemma removelast_insert_last_perm {A} (l : list A) i x lastelt :
  l !! i = Some x → last l = Some lastelt →
  l ≡ₚ x :: removelast (<[i := lastelt]> l).
Proof.
  intros Hi Hl. apply last_removelast in Hl.
  remember (removelast l) as init eqn:Hinit. clear Hinit. subst l.
  destruct (decide (i < length init)%nat) as [Hlt|Hge].
  - rewrite insert_app_l by done. rewrite removelast_last.
    rewrite lookup_app_l in Hi by done.
    rewrite <- Permutation_cons_append.
    rewrite <- (list_insert_id init i x) at 1 by done.
    by apply insert_cons_exchange.
  - rewrite lookup_app_r in Hi by lia.
    destruct (i - length init)%nat as [|n] eqn:Hn; simpl in Hi; [|by destruct n].
    injection Hi as <-.
    rewrite list_insert_id; [|rewrite lookup_app_r by lia; by rewrite Hn].
    rewrite removelast_last. by rewrite <- Permutation_cons_append.
Qed.

Section AStarFacts.
Import a_star.
Context {State Action K : Type} `{Countable K}.
Variable key : State → K.
Variable truthy : Action → bool.
Variable heuristic_func : State → ext.
Variable problem : Problem (State := State) (Action := Action).
Variable clock : nat → Q.
Variable timeout_budget : Q.

Local Notation Node := (Node (State := State) (Action := Action)).
Local Notation entry := (entry (State := State) (Action := Action)).
Local Notation search := (search (State := State) (Action := Action) (K := K)).
Local Notation ekey := (entry_key key).
Local Notation fkeys := (frontier_keys key).
Local Notation is_consistent := (consistent key).
Local Notation fval := (_f heuristic_func).
Local Notation handle_action := (handle_action key heuristic_func problem).
Local Notation handle_actions := (handle_actions key heuristic_func problem).
Local Notation iteration :=
  (iteration key truthy heuristic_func problem clock timeout_budget).
Local Notation search_loop :=
  (search_loop key truthy heuristic_func problem clock timeout_budget).
Local Notation init_search := (init_search key heuristic_func problem).
Local Notation run := (run key truthy heuristic_func problem clock timeout_budget).
Local Notation reachable :=
  (reachable key truthy heuristic_func problem clock timeout_budget).
Local Notation wf_node := (wf_node problem).
Local Notation child_of node a child c := (Node_init child (Some node) (Some a) c).

Implicit Types (st : search) (node : Node) (fr : list entry)
  (fs : gmap K (Z * ext)) (s : State) (a : Action) (m : AStarMetrics).

(** What [_remove_from_frontier] does to the heap and the index: nothing
    when no entry holds the state, and otherwise one entry holding it is
    gone from both. *)
Lemma _remove_from_frontier_spec fr fs s v :
  fs !! key s = Some v →
  ∃ fr' fs', _remove_from_frontier key fr fs s = Some (fr', fs')
    ∧ ((fr' = fr ∧ fs' = fs ∧ ∀ e, e ∈ fr → ekey e ≠ key s)
       ∨ (∃ stale, ekey stale = key s ∧ fr ≡ₚ stale :: fr'
                   ∧ fs' = delete (key s) fs)).
Proof.
  intros Hfs. unfold _remove_from_frontier.
  destruct (list_find _ fr) as [[i stale]|] eqn:Hfind.
  - apply list_find_Some in Hfind as (Hi & Hkey & _).
    destruct (last fr) as [lastelt|] eqn:Hlast.
    + rewrite Hfs. eexists _, _. split; [done|]. right.
      exists stale. split_and!; [done| |done].
      rewrite heapify_perm. by apply removelast_insert_last_perm.
    + apply last_None in Hlast. subst fr. by rewrite lookup_nil in Hi.
  - eexists _, _. split; [done|]. left. split_and!; [done..|].
    intros e He. by eapply list_find_None, Forall_forall in Hfind.
Qed.

(** What the body of the successor loop does for one successor. *)
Lemma handle_action_cases node st a child c :
  result problem (state node) a = Some (child, c) →
  ∃ st', handle_action node st a = Some st'
    ∧ explored st' = explored st
    ∧ branching_factors st' = branching_factors st
    ∧ clock_reads st' = clock_reads st
    ∧ nodes_generated (self_metrics st') = nodes_generated (self_metrics st) + 1
    ∧ nodes_expanded (self_metrics st') = nodes_expanded (self_metrics st)
    ∧ ((key child ∈ explored st
        ∧ frontier st' = frontier st ∧ frontier_states st' = frontier_states st)
       ∨ ((key child ∉ explored st)
          ∧ (∃ fg ff, frontier_states st !! key child = Some (fg, ff)
                      ∧ (g (child_of node a child c) <? fg) = false)
          ∧ frontier st' = frontier st ∧ frontier_states st' = frontier_states st)
       ∨ ((key child ∉ explored st)
          ∧ (∃ fg ff, frontier_states st !! key child = Some (fg, ff)
                      ∧ (g (child_of node a child c) <? fg) = true)
          ∧ frontier_states st'
            = <[key child := (g (child_of node a child c), fval (child_of node a child c))]>
                (frontier_states st)
          ∧ ((∃ stale rest, ekey stale = key child
                ∧ frontier st ≡ₚ stale :: rest
                ∧ frontier st'
                  ≡ₚ (fval (child_of node a child c), child_of node a child c) :: rest)
             ∨ ((∀ e, e ∈ frontier st → ekey e ≠ key child)
                ∧ frontier st'
                  ≡ₚ (fval (child_of node a child c), child_of node a child c)
                     :: frontier st)))
       ∨ ((key child ∉ explored st)
          ∧ frontier_states st !! key child = None
          ∧ frontier_states st'
            = <[key child := (g (child_of node a child c), fval (child_of node a child c))]>
                (frontier_states st)
          ∧ frontier st'
            ≡ₚ (fval (child_of node a child c), child_of node a child c) :: frontier st)).
Proof.
  intros Hres. unfold a_star.handle_action. rewrite Hres.
  cbn [with_metrics explored frontier frontier_states self_metrics].
  case_decide as Hexp.
  { eexists. split; [done|]. cbn. split_and!; try done. by left. }
  destruct (frontier_states st !! key child) as [[fg ff]|] eqn:Hfs.
  - destruct (g (child_of node a child c) <? fg) eqn:Hlt.
    + destruct (_remove_from_frontier_spec (frontier st) (frontier_states st) child _ Hfs)
        as (fr' & fs' & -> & Hrem).
      eexists. split; [done|]. cbn. split_and!; try done.
      right; right; left. split; [done|]. split; [eauto|].
      destruct Hrem as [(-> & -> & Hno)|(stale & Hk & Hperm & ->)].
      * split; [done|]. right. split; [done|]. apply heappush_perm.
      * split; [by rewrite insert_delete_eq|]. left.
        exists stale, fr'. split_and!; [done..|]. apply heappush_perm.
    + eexists. split; [done|]. cbn. split_and!; try done.
      right; left. split_and!; eauto.
  - eexists. split; [done|]. cbn. split_and!; try done.
    right; right; right. split_and!; try done. apply heappush_perm.
Qed.

Lemma frontier_keys_perm st st' :
  frontier st ≡ₚ frontier st' → fkeys st ≡ₚ fkeys st'.
Proof. unfold frontier_keys. by intros ->. Qed.

(** The body of the successor loop keeps frontier, index and explored set
    fitting together. *)
Lemma consistent_in_index st k :
  is_consistent st → k ∈ fkeys st ↔ is_Some (frontier_states st !! k).
Proof.
  intros (_ & Hdom & _).
  by rewrite <- elem_of_dom, Hdom, elem_of_list_to_set.
Qed.

Lemma consistent_same_keys st st' :
  is_consistent st →
  fkeys st' ≡ₚ fkeys st →
  dom (frontier_states st') = dom (frontier_states st) →
  explored st' = explored st →
  is_consistent st'.
Proof.
  intros (Hnd & Hdom & Hexp) Hk Hd He. unfold consistent. split_and!.
  - by rewrite Hk.
  - apply set_eq. intros k. by rewrite Hd, Hdom, !elem_of_list_to_set, Hk.
  - intros k. rewrite Hk, He. apply Hexp.
Qed.

Lemma consistent_add st st' k :
  is_consistent st →
  frontier_states st !! k = None → k ∉ explored st →
  fkeys st' ≡ₚ k :: fkeys st →
  dom (frontier_states st') = {[k]} ∪ dom (frontier_states st) →
  explored st' = explored st →
  is_consistent st'.
Proof.
  intros Hc Hnone Hne Hk Hd He.
  assert (k ∉ fkeys st) as Hnin.
  { rewrite (consistent_in_index _ _ Hc), Hnone. by intros [? ?]. }
  destruct Hc as (Hnd & Hdom & Hexp). unfold consistent. split_and!.
  - rewrite Hk. by apply NoDup_cons.
  - apply set_eq. intros k'.
    rewrite Hd, Hdom, elem_of_union, !elem_of_list_to_set, Hk, elem_of_cons.
    by rewrite elem_of_singleton.
  - intros k'. rewrite Hk, He. intros [->|Hin]%elem_of_cons; [done|by apply Hexp].
Qed.

Lemma handle_action_consistent node st a st' :
  is_consistent st → handle_action node st a = Some st' → is_consistent st'.
Proof.
  intros Hc Hst'.
  destruct (result problem (state node) a) as [[child c]|] eqn:Hres;
    [|by unfold a_star.handle_action in Hst'; rewrite Hres in Hst'].
  destruct (handle_action_cases node st a child c Hres)
    as (st'' & Heq & Hex & _ & _ & _ & _ & Hcases).
  rewrite Hst' in Heq. injection Heq as <-.
  destruct Hcases as [(_ & Hfr & Hfs)|[(_ & _ & Hfr & Hfs)
    |[(Hne & (fg & ff & Hfs & _) & Hfs' & Hfr)|(Hne & Hfs & Hfs' & Hfr)]]].
  - apply (consistent_same_keys st); [done|..]; unfold frontier_keys; by rewrite ?Hfr, ?Hfs.
  - apply (consistent_same_keys st); [done|..]; unfold frontier_keys; by rewrite ?Hfr, ?Hfs.
  - assert (key child ∈ fkeys st) as Hin.
    { apply consistent_in_index; [done|]. by rewrite Hfs. }
    destruct Hfr as [(stale & rest & Hk & Hp & Hp')|[Hno _]].
    + apply (consistent_same_keys st); [done| |
        rewrite Hfs', dom_insert_L; apply elem_of_dom_2 in Hfs; set_solver|done].
      unfold frontier_keys. rewrite Hp', Hp. cbn [map]. by rewrite Hk.
    + exfalso. apply list_elem_of_fmap in Hin as (e & Hk & He). by eapply Hno.
  - apply (consistent_add st st' (key child)); try done.
    + unfold frontier_keys. by rewrite Hfr.
    + by rewrite Hfs', dom_insert_L.
Qed.

Lemma handle_actions_consistent node acts st st' :
  is_consistent st → handle_actions node st acts = Some st' → is_consistent st'.
Proof.
  revert st. induction acts as [|a acts IH]; intros st Hc; simpl.
  { by intros [= <-]. }
  destruct (handle_action node st a) as [st1|] eqn:H1; [|done].
  apply IH. by eapply handle_action_consistent.
Qed.

Lemma handle_actions_explored node acts st st' :
  handle_actions node st acts = Some st' → explored st' = explored st.
Proof.
  revert st. induction acts as [|a acts IH]; intros st; simpl.
  { by intros [= <-]. }
  destruct (handle_action node st a) as [st1|] eqn:H1; [|done].
  intros Hst'. rewrite (IH _ Hst').
  destruct (result problem (state node) a) as [[child c]|] eqn:Hres;
    [|by unfold a_star.handle_action in H1; rewrite Hres in H1].
  destruct (handle_action_cases node st a child c Hres) as (st'' & Heq & Hex & _).
  rewrite H1 in Heq. by injection Heq as <-.
Qed.

(** One round of the [while] loop that goes on to the next: the clock has
    not run out, the popped node is no goal, its state joins the explored
    set and its successors are handled from there. *)
Lemma iteration_Continue st st' :
  iteration st = Continue st' →
  ∃ f node fr acts st1,
    heapq.heappop entry_lt (frontier st) = Some ((f, node), fr)
    ∧ is_Some (frontier_states st !! key (state node))
    ∧ goal_test problem (state node) = false
    ∧ actions problem (state node) = Some acts
    ∧ handle_actions node st1 acts = Some st'
    ∧ frontier st1 = fr
    ∧ frontier_states st1 = delete (key (state node)) (frontier_states st)
    ∧ explored st1 = {[key (state node)]} ∪ explored st
    ∧ nodes_expanded (self_metrics st1) = nodes_expanded (self_metrics st) + 1
    ∧ nodes_generated (self_metrics st1) = nodes_generated (self_metrics st)
    ∧ success (self_metrics st1) = success (self_metrics st)
    ∧ timeout (self_metrics st1) = timeout (self_metrics st).
Proof.
  unfold a_star.iteration.
  destruct (Qgtb _ _); [done|].
  cbn [frontier frontier_states explored self_metrics branching_factors clock_reads
       with_metrics tick].
  destruct (heapq.heappop _ _) as [[[f node] fr]|] eqn:Hpop; [|done].
  destruct (frontier_states st !! _) as [v|] eqn:Hfs; [|done].
  destruct (goal_test problem (state node)) eqn:Hgoal.
  { destruct (_extract_solution truthy node). done. }
  destruct (actions problem (state node)) as [acts|] eqn:Hacts; [|done].
  cbn [frontier frontier_states explored self_metrics branching_factors clock_reads].
  destruct (a_star.handle_actions _ _ _ _ _ _) as [st2|] eqn:Hh; [|done].
  intros [= <-]. eexists f, node, fr, acts, _.
  split_and!; [done|by eexists|done|done|exact Hh|done..].
Qed.

(** One round of the [while] loop that leaves it: on time-out nothing is
    popped; otherwise the popped node is a goal and has been counted as
    expanded. *)
Lemma iteration_Stop st e st' :
  iteration st = Stop e st' →
  explored st' = explored st
  ∧ nodes_generated (self_metrics st') = nodes_generated (self_metrics st)
  ∧ ((e = TimedOut
      ∧ frontier st' = frontier st
      ∧ nodes_expanded (self_metrics st') = nodes_expanded (self_metrics st)
      ∧ timeout (self_metrics st') = true
      ∧ success (self_metrics st') = success (self_metrics st))
     ∨ (∃ f node fr,
          e = Succeeded node
          ∧ heapq.heappop entry_lt (frontier st) = Some ((f, node), fr)
          ∧ goal_test problem (state node) = true
          ∧ nodes_expanded (self_metrics st') = nodes_expanded (self_metrics st) + 1
          ∧ success (self_metrics st') = true
          ∧ timeout (self_metrics st') = timeout (self_metrics st)
          ∧ solution_length (self_metrics st')
            = Z.of_nat (length (_extract_solution truthy node).2))).
Proof.
  unfold a_star.iteration.
  destruct (Qgtb _ _).
  { intros [= <- <-]. cbn. split_and!; try done. left. by split_and!. }
  cbn [frontier frontier_states explored self_metrics branching_factors clock_reads
       with_metrics tick].
  destruct (heapq.heappop _ _) as [[[f node] fr]|] eqn:Hpop; [|done].
  destruct (frontier_states st !! _) as [v|] eqn:Hfs; [|done].
  destruct (goal_test problem (state node)) eqn:Hgoal.
  - destruct (_extract_solution truthy node) as [path acts] eqn:Hex.
    intros [= <- <-].
    cbn [frontier frontier_states explored self_metrics branching_factors clock_reads
         with_metrics tick].
    destruct (branching_factors st); cbn; (split_and!; try done);
      right; eexists f, node, fr; rewrite Hex; by split_and!.
  - destruct (actions problem (state node)) as [acts|]; [|done].
    by destruct (a_star.handle_actions _ _ _ _ _ _).
Qed.

(** The loop only raises through the problem: from consistent data a round
    never fails on the heap or on the index. *)
Lemma heappop_keys st f node fr :
  heapq.heappop entry_lt (frontier st) = Some ((f, node), fr) →
  fkeys st ≡ₚ key (state node) :: map ekey fr.
Proof.
  intros Hpop%heappop_perm. unfold frontier_keys. by rewrite Hpop.
Qed.

Lemma iteration_consistent st st' :
  is_consistent st → iteration st = Continue st' → is_consistent st'.
Proof.
  intros Hc (f & node & fr & acts & st1 & Hpop & _ & _ & _ & Hh & Hfr & Hfs & Hex & _)
    %iteration_Continue.
  apply (handle_actions_consistent node acts st1); [|done].
  apply heappop_keys in Hpop. destruct Hc as (Hnd & Hdom & Hexp).
  rewrite Hpop in Hnd. apply NoDup_cons in Hnd as [Hnin Hnd].
  unfold consistent, frontier_keys. rewrite Hfr, Hfs, Hex. split_and!.
  - done.
  - apply set_eq. intros k.
    rewrite dom_delete_L, Hdom, elem_of_difference, !elem_of_list_to_set, Hpop.
    rewrite elem_of_cons, elem_of_singleton. split; [naive_solver|].
    intros Hk. split; [by right|]. by intros ->.
  - intros k Hk. rewrite elem_of_union, elem_of_singleton.
    intros [->|Hke]; [done|]. apply (Hexp k); [|done].
    rewrite Hpop. by right.
Qed.

Lemma init_search_consistent m0 : is_consistent (init_search m0).
Proof.
  unfold consistent, frontier_keys, a_star.init_search.
  cbn [frontier frontier_states explored].
  assert (map ekey (heapq.heappush entry_lt []
            (fval (Node_init (get_initial_state problem) None None 0),
             Node_init (get_initial_state problem) None None 0))
          = [key (get_initial_state problem)]) as -> by done.
  split_and!.
  - apply NoDup_singleton.
  - rewrite dom_singleton_L. set_solver.
  - set_solver.
Qed.

Lemma reachable_consistent m0 st : reachable m0 st → is_consistent st.
Proof.
  induction 1 as [|st st' _ IH _ Hit].
  - apply init_search_consistent.
  - by eapply iteration_consistent.
Qed.

(** *** Counting *)

Lemma handle_action_counted e0 node st a st' :
  counted e0 st → handle_action node st a = Some st' → counted e0 st'.
Proof.
  intros [He Hg] Hst'.
  destruct (result problem (state node) a) as [[child c]|] eqn:Hres;
    [|by unfold a_star.handle_action in Hst'; rewrite Hres in Hst'].
  destruct (handle_action_cases node st a child c Hres)
    as (st'' & Heq & Hex & _ & _ & Hgen & Hexpd & Hcases).
  rewrite Hst' in Heq. injection Heq as <-.
  unfold counted. rewrite Hex, Hgen, Hexpd. split; [done|].
  assert (length (frontier st') ≤ length (frontier st) + 1)%nat; [|lia].
  destruct Hcases as [(_ & -> & _)|[(_ & _ & -> & _)
    |[(_ & _ & _ & [(stale & rest & _ & -> & ->)|[_ ->]])|(_ & _ & _ & ->)]]];
    simpl; lia.
Qed.

Lemma handle_actions_counted e0 node acts st st' :
  counted e0 st → handle_actions node st acts = Some st' → counted e0 st'.
Proof.
  revert st. induction acts as [|a acts IH]; intros st Hc; simpl.
  { by intros [= <-]. }
  destruct (handle_action node st a) as [st1|] eqn:H1; [|done].
  apply IH. by eapply handle_action_counted.
Qed.

Lemma iteration_counted e0 st st' :
  is_consistent st → counted e0 st → iteration st = Continue st' → counted e0 st'.
Proof.
  intros Hc [He Hg]
    (f & node & fr & acts & st1 & Hpop & _ & _ & _ & Hh & Hfr & Hfs & Hex & Hexpd & Hgen & _)
    %iteration_Continue.
  apply (handle_actions_counted e0 node acts st1); [|done].
  assert (key (state node) ∉ explored st) as Hnew.
  { destruct Hc as (_ & _ & Hexp). apply Hexp.
    rewrite (heappop_keys _ _ _ _ Hpop). by left. }
  apply heappop_perm in Hpop. apply Permutation_length in Hpop. simpl in Hpop.
  unfold counted. rewrite Hex, Hexpd, Hgen, Hfr.
  rewrite size_union by set_solver. rewrite size_singleton. lia.
Qed.

Lemma init_search_counted m0 : counted (nodes_expanded m0) (init_search m0).
Proof.
  unfold counted, a_star.init_search. cbn. rewrite size_empty. lia.
Qed.

Lemma reachable_counted m0 st : reachable m0 st → counted (nodes_expanded m0) st.
Proof.
  induction 1 as [|st st' Hr IH _ Hit].
  - apply init_search_counted.
  - eapply iteration_counted; [|done..]. by eapply reachable_consistent.
Qed.

(** *** Where a run of the loop ends *)

Lemma search_loop_last m0 fuel st e st' :
  reachable m0 st →
  search_loop fuel st = Done e st' →
  ∃ st_last,
    reachable m0 st_last
    ∧ ((frontier st_last = [] ∧ e = Exhausted
        ∧ explored st' = explored st_last
        ∧ self_metrics st'
          = set_total_time (elapsed clock st_last) (self_metrics st_last))
       ∨ (frontier st_last ≠ [] ∧ iteration st_last = Stop e st')).
Proof.
  revert st. induction fuel as [|fuel IH]; intros st Hr; simpl.
  - destruct (frontier st) eqn:Hfr; [|done].
    intros [= <- <-]. exists st. split; [done|]. left. by split_and!.
  - destruct (frontier st) eqn:Hfr.
    + intros [= <- <-]. exists st. split; [done|]. left. by split_and!.
    + destruct (iteration st) as [st1|e1 st1|] eqn:Hit; [| |done].
      * apply IH. eapply reach_step; [done| |done]. by rewrite Hfr.
      * intros [= <- <-]. exists st. split; [done|]. right. by rewrite Hfr.
Qed.

Lemma search_loop_fuel_mono fuel fuel' st e st' :
  (fuel ≤ fuel')%nat →
  search_loop fuel st = Done e st' → search_loop fuel' st = Done e st'.
Proof.
  revert fuel' st. induction fuel as [|fuel IH]; intros fuel' st Hle; simpl.
  - destruct (frontier st) eqn:Hfr; [|done]. destruct fuel'; simpl; by rewrite Hfr.
  - destruct fuel' as [|fuel']; [lia|]. simpl.
    destruct (frontier st); [done|].
    destruct (iteration st); [|done..]. apply IH. lia.
Qed.

(** *** The two flags *)

Lemma handle_action_flags node st a st' :
  handle_action node st a = Some st' →
  success (self_metrics st') = success (self_metrics st)
  ∧ timeout (self_metrics st') = timeout (self_metrics st).
Proof.
  unfold a_star.handle_action.
  destruct (result problem (state node) a) as [[child c]|]; [|done].
  cbn [with_metrics explored frontier frontier_states self_metrics].
  case_decide; [by intros [= <-]|].
  destruct (frontier_states st !! key child) as [[fg ff]|]; [|by intros [= <-]].
  destruct (g _ <? fg); [|by intros [= <-]].
  destruct (_remove_from_frontier key _ _ _) as [[fr fs]|]; [|done].
  by intros [= <-].
Qed.

Lemma handle_actions_flags node acts st st' :
  handle_actions node st acts = Some st' →
  success (self_metrics st') = success (self_metrics st)
  ∧ timeout (self_metrics st') = timeout (self_metrics st).
Proof.
  revert st. induction acts as [|a acts IH]; intros st; simpl.
  { by intros [= <-]. }
  destruct (handle_action node st a) as [st1|] eqn:H1; [|done].
  intros [-> ->]%IH. by apply handle_action_flags in H1.
Qed.

(** While the loop runs, the flags are what they were when [solve] was
    called: nothing in the loop body writes them. *)
Lemma reachable_flags m0 st :
  reachable m0 st →
  success (self_metrics st) = success m0 ∧ timeout (self_metrics st) = timeout m0.
Proof.
  induction 1 as [|st st' _ [IHs IHt] _ Hit].
  - done.
  - apply iteration_Continue in Hit
      as (f & node & fr & acts & st1 & _ & _ & _ & _ & Hh & _ & _ & _ & _ & _ & Hs & Ht).
    apply handle_actions_flags in Hh as [-> ->]. by rewrite Hs, Ht.
Qed.

(** On a solver whose flags are both off (a newly built one), the flags of
    the returned record tell the three ways of leaving the loop apart. *)
Lemma run_flags m0 fuel (ex : exit) st' :
  success m0 = false → timeout m0 = false →
  run fuel m0 = Done ex st' →
  match ex with
  | Succeeded _ =>
      success (self_metrics st') = true ∧ timeout (self_metrics st') = false
  | Exhausted =>
      success (self_metrics st') = false ∧ timeout (self_metrics st') = false
  | TimedOut =>
      success (self_metrics st') = false ∧ timeout (self_metrics st') = true
  end.
Proof.
  intros Hs0 Ht0 (st_last & Hr & Hend)%(search_loop_last m0); [|apply reach_init].
  destruct (reachable_flags _ _ Hr) as [Hs Ht]. rewrite Hs0 in Hs. rewrite Ht0 in Ht.
  destruct Hend as [(_ & -> & _ & ->)|[_ Hstop]]; [done|].
  apply iteration_Stop in Hstop
    as (_ & _ & [(-> & _ & _ & -> & ->)|(f & n & fr & -> & _ & _ & _ & -> & -> & _)]);
    done.
Qed.

(** *** Nodes and the paths they stand for *)

Lemma handle_action_Forall (P : entry → Prop) node st a st' child c :
  result problem (state node) a = Some (child, c) →
  Forall P (frontier st) →
  P (fval (child_of node a child c), child_of node a child c) →
  handle_action node st a = Some st' →
  Forall P (frontier st').
Proof.
  intros Hres Hall Hnew Hst'.
  destruct (handle_action_cases node st a child c Hres)
    as (st'' & Heq & _ & _ & _ & _ & _ & Hcases).
  rewrite Hst' in Heq. injection Heq as <-.
  destruct Hcases as [(_ & -> & _)|[(_ & _ & -> & _)
    |[(_ & _ & _ & [(stale & rest & _ & Hp & ->)|[_ ->]])|(_ & _ & _ & ->)]]];
    try done; try (by apply Forall_cons).
  rewrite Hp in Hall. apply Forall_cons in Hall as [_ Hrest]. by apply Forall_cons.
Qed.

Lemma handle_actions_wf node all acts st st' :
  wf_node node →
  actions problem (state node) = Some all →
  acts ⊆ all →
  Forall (λ e, wf_node e.2) (frontier st) →
  handle_actions node st acts = Some st' →
  Forall (λ e, wf_node e.2) (frontier st').
Proof.
  intros Hwf Hall. revert st. induction acts as [|a acts IH]; intros st Hsub Hfr; simpl.
  { by intros [= <-]. }
  destruct (handle_action node st a) as [st1|] eqn:H1; [|done].
  apply IH; [set_solver|].
  destruct (result problem (state node) a) as [[child c]|] eqn:Hres;
    [|by unfold a_star.handle_action in H1; rewrite Hres in H1].
  eapply (handle_action_Forall _ node st a st1 child c); try done.
  cbn [snd]. eapply wf_child; try done. set_solver.
Qed.

Lemma iteration_wf st st' :
  Forall (λ e, wf_node e.2) (frontier st) →
  iteration st = Continue st' →
  Forall (λ e, wf_node e.2) (frontier st').
Proof.
  intros Hfr (f & node & fr & acts & st1 & Hpop & _ & _ & Hacts & Hh & Hfr1 & _)
    %iteration_Continue.
  apply heappop_perm in Hpop. rewrite Hpop in Hfr.
  apply Forall_cons in Hfr as [Hnode Hrest].
  eapply (handle_actions_wf node acts acts st1); try done. by rewrite Hfr1.
Qed.

Lemma reachable_wf m0 st : reachable m0 st → Forall (λ e, wf_node e.2) (frontier st).
Proof.
  induction 1 as [|st st' _ IH _ Hit].
  - apply Forall_singleton. apply wf_root.
  - by eapply iteration_wf.
Qed.

Lemma apply_actions_head s acts path :
  apply_actions problem s acts = Some path → ∃ rest, path = s :: rest.
Proof.
  destruct acts as [|a acts]; simpl.
  - intros [= <-]. eauto.
  - destruct (result problem s a) as [[s' ?]|]; [|done].
    destruct (apply_actions problem s' acts); [|done]. intros [= <-]. eauto.
Qed.

Lemma apply_actions_snoc s acts path t a s' c :
  apply_actions problem s acts = Some path →
  last path = Some t →
  result problem t a = Some (s', c) →
  apply_actions problem s (acts ++ [a]) = Some (path ++ [s']).
Proof.
  revert s path. induction acts as [|a0 acts IH]; intros s path; simpl.
  - intros [= <-] [= <-] ->. done.
  - destruct (result problem s a0) as [[s1 c1]|]; [|done].
    destruct (apply_actions problem s1 acts) as [path1|] eqn:H1; [|done].
    intros [= <-] Hlast Hres.
    destruct (apply_actions_head _ _ _ H1) as [rest ->].
    rewrite (IH s1 (s1 :: rest)); done.
Qed.

(** Walking the parent links of a well-formed node and reversing gives the
    actions that lead from the initial state to the node's state, and the
    states passed through, provided no action of the problem is falsy. *)
Lemma _extract_solution_replays node :
  (∀ s acts a, actions problem s = Some acts → a ∈ acts → truthy a = true) →
  wf_node node →
  apply_actions problem (get_initial_state problem) (_extract_solution truthy node).2
  = Some (_extract_solution truthy node).1
  ∧ last (_extract_solution truthy node).1 = Some (state node).
Proof.
  intros Htruthy Hwf. unfold _extract_solution.
  induction Hwf as [|p acts a s c Hp IH Hacts Ha Hres].
  - done.
  - cbn [walk_parents Node_init parent action state].
    destruct (walk_parents truthy p) as [path pacts] eqn:Hwalk.
    rewrite (Htruthy _ _ _ Hacts Ha). cbn [fst snd rev] in *.
    destruct IH as [IH1 IH2]. split.
    + by eapply apply_actions_snoc.
    + by rewrite last_snoc.
Qed.

(** A run that succeeds ends on a well-formed node whose state passes the
    goal test. *)
Lemma run_Succeeded m0 fuel node st' :
  run fuel m0 = Done (Succeeded node) st' →
  wf_node node ∧ goal_test problem (state node) = true.
Proof.
  intros (st_last & Hr & [(_ & [=] & _)|[_ Hstop]])%(search_loop_last m0);
    [|apply reach_init].
  apply iteration_Stop in Hstop as (_ & _ & [([=] & _)|(f & n & fr & [= <-] & Hpop & Hg & _)]).
  split; [|done].
  apply reachable_wf in Hr. apply heappop_perm in Hpop. rewrite Hpop in Hr.
  by apply Forall_cons in Hr as [? _].
Qed.

(** *** The claims about the engine *)

(** C2, as the code has it.  On a call entered with the expansion counter
    at 0 (a newly built solver), when the loop is left [nodes_expanded] is
    at most [nodes_generated], and it is the number of nodes popped: the
    number of states put into the explored set, each for the first time,
    plus one when the search succeeded, because the goal node is popped
    and counted but never explored. *)
Theorem expansions_count_popped_nodes m0 fuel (ex : exit) st' :
  nodes_expanded m0 = 0 →
  run fuel m0 = Done ex st' →
  nodes_expanded (self_metrics st') ≤ nodes_generated (self_metrics st')
  ∧ nodes_expanded (self_metrics st')
    = Z.of_nat (size (explored st'))
      + match ex with Succeeded _ => 1 | _ => 0 end.
Proof.
  intros H0 (st_last & Hr & Hend)%(search_loop_last m0); [|apply reach_init].
  destruct (reachable_counted _ _ Hr) as [He Hg]. rewrite H0 in He, Hg.
  destruct Hend as [(Hfr & -> & -> & ->)|[Hne Hstop]].
  - cbn. rewrite Hfr in Hg. simpl in Hg. lia.
  - apply iteration_Stop in Hstop
      as (-> & -> & [(-> & _ & -> & _)|(f & n & fr & -> & Hpop & _ & -> & _)]).
    + lia.
    + apply heappop_perm, Permutation_length in Hpop. simpl in Hpop. lia.
Qed.

(** C6.  For a generated successor whose state is not explored, on search
    data that fit together: when the index records a strictly worse [g]
    for the state, the one frontier entry of that state is gone and the new
    entry and index record are in; when it records an equal or better [g],
    frontier and index are untouched; when the state is not in the index,
    the new entry and its record are added. *)
Theorem successor_replaces_skips_or_inserts node st a child c :
  is_consistent st →
  result problem (state node) a = Some (child, c) →
  key child ∉ explored st →
  ∃ st', handle_action node st a = Some st'
    ∧ explored st' = explored st
    ∧ match frontier_states st !! key child with
      | Some (frontier_g, _) =>
          if g (child_of node a child c) <? frontier_g then
            frontier_states st'
            = <[key child := (g (child_of node a child c), fval (child_of node a child c))]>
                (frontier_states st)
            ∧ ∃ stale rest,
                ekey stale = key child
                ∧ frontier st ≡ₚ stale :: rest
                ∧ (∀ e, e ∈ rest → ekey e ≠ key child)
                ∧ frontier st'
                  ≡ₚ (fval (child_of node a child c), child_of node a child c) :: rest
          else frontier st' = frontier st ∧ frontier_states st' = frontier_states st
      | None =>
          frontier_states st'
          = <[key child := (g (child_of node a child c), fval (child_of node a child c))]>
              (frontier_states st)
          ∧ frontier st'
            ≡ₚ (fval (child_of node a child c), child_of node a child c) :: frontier st
      end.
Proof.
  intros Hc Hres Hne.
  destruct (handle_action_cases node st a child c Hres)
    as (st' & Heq & Hex & _ & _ & _ & _ & Hcases).
  exists st'. split; [done|]. split; [done|].
  destruct Hcases as [(? & _)|[(_ & (fg & ff & -> & ->) & ? & ?)
    |[(_ & (fg & ff & Hfs & Hlt) & Hfs' & Hfr)|(_ & -> & ? & ?)]]]; try done.
  rewrite Hfs, Hlt. split; [done|].
  assert (key child ∈ fkeys st) as Hin.
  { apply consistent_in_index; [done|]. by rewrite Hfs. }
  destruct Hfr as [(stale & rest & Hk & Hp & Hp')|[Hno _]].
  - exists stale, rest. split_and!; try done.
    destruct Hc as (Hnd & _). unfold frontier_keys in Hnd. rewrite Hp in Hnd.
    cbn [map] in Hnd. apply NoDup_cons in Hnd as [Hnin _].
    intros e He Hke. apply Hnin. rewrite Hk, <- Hke. apply list_elem_of_fmap. eauto.
  - exfalso. apply list_elem_of_fmap in Hin as (e & Hk & He). by eapply Hno.
Qed.

(** C8.  At the head of every round of the loop no frontier entry holds an
    explored state; a round that expands a node pops one whose state was
    not explored before and is from then on; and whatever the search data,
    a successor whose state is explored changes neither the frontier nor
    its index nor the explored set. *)
Theorem explored_states_stay_closed m0 st :
  reachable m0 st →
  (∀ e, e ∈ frontier st → ekey e ∉ explored st)
  ∧ (∀ st', iteration st = Continue st' →
       ∃ f node fr,
         heapq.heappop entry_lt (frontier st) = Some ((f, node), fr)
         ∧ (key (state node) ∉ explored st)
         ∧ explored st' = {[key (state node)]} ∪ explored st
         ∧ ∀ e, e ∈ frontier st' → ekey e ∉ explored st')
  ∧ (∀ st2 node a child c,
       result problem (state node) a = Some (child, c) →
       key child ∈ explored st2 →
       ∃ st2', handle_action node st2 a = Some st2'
               ∧ frontier st2' = frontier st2
               ∧ frontier_states st2' = frontier_states st2
               ∧ explored st2' = explored st2).
Proof.
  intros Hr. pose proof (reachable_consistent _ _ Hr) as Hc.
  assert (∀ st0, is_consistent st0 → ∀ e, e ∈ frontier st0 → ekey e ∉ explored st0)
    as Hclosed.
  { intros st0 (_ & _ & Hexp) e He. apply Hexp. apply list_elem_of_fmap. eauto. }
  split_and!.
  - by apply Hclosed.
  - intros st' Hit. pose proof (iteration_consistent _ _ Hc Hit) as Hc'.
    apply iteration_Continue in Hit
      as (f & node & fr & acts & st1 & Hpop & _ & _ & _ & Hh & _ & _ & Hex & _).
    exists f, node, fr. split_and!; [done| | |by apply Hclosed].
    + destruct Hc as (_ & _ & Hexp). apply Hexp.
      rewrite (heappop_keys _ _ _ _ Hpop). by left.
    + by rewrite (handle_actions_explored _ _ _ _ Hh).
  - intros st2 node a child c Hres Hin.
    destruct (handle_action_cases node st2 a child c Hres)
      as (st2' & Heq & Hex & _ & _ & _ & _ & Hcases).
    exists st2'. split; [done|].
    destruct Hcases as [(_ & ? & ?)|[(? & _)|[(? & _)|(? & _)]]]; done.
Qed.

(** *** Errors, termination and what an empty frontier means *)

Local Notation can_reach := (can_reach problem).
Local Notation never_raises := (never_raises problem).
Local Notation key_faithful := (key_faithful key problem).
Local Notation covered st k := (k ∈ explored st ∨ k ∈ fkeys st).

Lemma wf_node_can_reach node : wf_node node → can_reach (state node).
Proof.
  induction 1 as [|p acts a s c _ IH Hacts Ha Hres]; [apply can_reach_init|].
  by eapply can_reach_step.
Qed.

Lemma popped_wf st f node fr :
  Forall (λ e, wf_node e.2) (frontier st) →
  heapq.heappop entry_lt (frontier st) = Some ((f, node), fr) →
  wf_node node.
Proof.
  intros Hwf Hpop%heappop_perm. rewrite Hpop in Hwf.
  by apply Forall_cons in Hwf as [? _].
Qed.

Lemma handle_actions_is_Some node st acts :
  (∀ a, a ∈ acts → is_Some (result problem (state node) a)) →
  is_Some (handle_actions node st acts).
Proof.
  revert st. induction acts as [|a acts IH]; intros st Hres; simpl; [by eexists|].
  destruct (Hres a) as [[child c] Hr]; [by left|].
  destruct (handle_action_cases node st a child c Hr) as (st1 & -> & _).
  apply IH. intros a' Ha'. apply Hres. by right.
Qed.

(** With a problem that does not raise, a round of the loop does not
    either: the heap is not empty and the popped state is in the index. *)
Lemma iteration_not_Raised st :
  never_raises → is_consistent st → Forall (λ e, wf_node e.2) (frontier st) →
  frontier st ≠ [] → iteration st ≠ Raised.
Proof.
  intros Hnr Hc Hwf Hne. unfold a_star.iteration.
  destruct (Qgtb _ _); [done|].
  cbn [frontier frontier_states explored self_metrics branching_factors clock_reads
       with_metrics tick].
  destruct (heappop_is_Some entry_lt (frontier st) Hne) as [[[f node] fr] Hpop].
  rewrite Hpop.
  assert (is_Some (frontier_states st !! key (state node))) as [v Hv].
  { apply consistent_in_index; [done|]. rewrite (heappop_keys _ _ _ _ Hpop). by left. }
  rewrite Hv.
  destruct (goal_test problem (state node)).
  { by destruct (_extract_solution truthy node). }
  destruct (Hnr _ (wf_node_can_reach _ (popped_wf _ _ _ _ Hwf Hpop))) as (acts & -> & Hres).
  cbn [frontier frontier_states explored self_metrics branching_factors clock_reads].
  match goal with
  | |- context [a_star.handle_actions _ _ _ ?n ?s ?l] =>
      destruct (handle_actions_is_Some n s l Hres) as [st' ->]
  end.
  done.
Qed.

Lemma search_loop_not_Raise m0 fuel st :
  never_raises → reachable m0 st → search_loop fuel st ≠ Raise.
Proof.
  intros Hnr. revert st. induction fuel as [|fuel IH]; intros st Hr; simpl.
  - by destruct (frontier st).
  - destruct (frontier st) eqn:Hfr; [done|].
    destruct (iteration st) as [st1|e1 st1|] eqn:Hit; [|done|].
    + apply IH. eapply reach_step; [done|by rewrite Hfr|done].
    + exfalso. eapply iteration_not_Raised; [done| | | |done].
      * by eapply reachable_consistent.
      * by eapply reachable_wf.
      * by rewrite Hfr.
Qed.

(** A round that goes on has moved one state, new to it, into the explored
    set. *)
Lemma iteration_explores_new st st' :
  is_consistent st → Forall (λ e, wf_node e.2) (frontier st) →
  iteration st = Continue st' →
  ∃ node, wf_node node ∧ key (state node) ∈ fkeys st
          ∧ (key (state node) ∉ explored st)
          ∧ explored st' = {[key (state node)]} ∪ explored st.
Proof.
  intros Hc Hwf (f & node & fr & acts & st1 & Hpop & _ & _ & _ & Hh & _ & _ & Hex & _)
    %iteration_Continue.
  exists node.
  assert (key (state node) ∈ fkeys st) as Hin.
  { rewrite (heappop_keys _ _ _ _ Hpop). by left. }
  split_and!.
  - by eapply popped_wf.
  - done.
  - destruct Hc as (_ & _ & Hexp). by apply Hexp.
  - by rewrite (handle_actions_explored _ _ _ _ Hh).
Qed.

Lemma reachable_explored m0 st k :
  reachable m0 st → k ∈ explored st → ∃ s, can_reach s ∧ key s = k.
Proof.
  induction 1 as [|st st' Hr IH Hne Hit]; [by intros ?%elem_of_empty|].
  destruct (iteration_explores_new st st') as (node & Hwf & _ & _ & ->);
    [by eapply reachable_consistent|by eapply reachable_wf|done|].
  rewrite elem_of_union, elem_of_singleton. intros [->|Hk]; [|by apply IH].
  exists (state node). split; [|done]. by apply wf_node_can_reach.
Qed.

(** On a graph whose states have their keys in a finite set [U], the loop
    cannot go round more often than [U] has elements. *)
Lemma search_loop_enough_fuel (U : gset K) m0 fuel st :
  (∀ s, can_reach s → key s ∈ U) →
  reachable m0 st →
  (size U ≤ size (explored st) + fuel)%nat →
  search_loop fuel st ≠ OutOfFuel.
Proof.
  intros HU. revert st. induction fuel as [|fuel IH]; intros st Hr Hsz; simpl.
  - destruct (frontier st) as [|e fr] eqn:Hfr; [done|]. exfalso.
    pose proof (reachable_consistent _ _ Hr) as (_ & _ & Hexp).
    pose proof (reachable_wf _ _ Hr) as Hwf.
    rewrite Hfr in Hwf. apply Forall_cons in Hwf as [He _].
    assert (ekey e ∈ U) as HeU by (apply HU; by apply wf_node_can_reach).
    assert (ekey e ∉ explored st) as Hnew.
    { apply Hexp. unfold frontier_keys. rewrite Hfr. by left. }
    assert (explored st ⊂ U) as Hsub.
    { split.
      - intros k Hk. destruct (reachable_explored _ _ _ Hr Hk) as (s & Hs & <-).
        by apply HU.
      - intros Hall. apply Hnew. by apply Hall. }
    apply subset_size in Hsub. lia.
  - destruct (frontier st) eqn:Hfr; [done|].
    destruct (iteration st) as [st1|e1 st1|] eqn:Hit; [|done..].
    apply IH; [eapply reach_step; [done|by rewrite Hfr|done]|].
    destruct (iteration_explores_new st st1) as (node & _ & _ & Hnew & ->);
      [by eapply reachable_consistent|by eapply reachable_wf|done|].
    rewrite size_union by set_solver. rewrite size_singleton. lia.
Qed.

(** The body of the successor loop never drops a state from the frontier,
    and leaves the successor it handled in the frontier or in the explored
    set. *)
Lemma handle_action_covers node st a st' :
  is_consistent st →
  handle_action node st a = Some st' →
  (∀ k, k ∈ fkeys st → k ∈ fkeys st')
  ∧ ∀ child c, result problem (state node) a = Some (child, c) → covered st' (key child).
Proof.
  intros Hc Hst'.
  destruct (result problem (state node) a) as [[child c]|] eqn:Hres;
    [|by unfold a_star.handle_action in Hst'; rewrite Hres in Hst'].
  destruct (handle_action_cases node st a child c Hres)
    as (st'' & Heq & Hex & _ & _ & _ & _ & Hcases).
  rewrite Hst' in Heq. injection Heq as <-.
  assert ((∀ k, k ∈ fkeys st → k ∈ fkeys st') ∧ covered st' (key child)) as [Hmono Hcov];
    [|split; [done|]; by intros ?? [= <- <-]].
  unfold frontier_keys.
  destruct Hcases as [(Hin & Hfr & _)|[(_ & (fg & ff & Hfs & _) & Hfr & _)
    |[(_ & _ & _ & [(stale & rest & Hk & Hp & Hp')|[_ Hp']])|(_ & _ & _ & Hp')]]].
  - rewrite Hfr. split; [done|]. left. by rewrite Hex.
  - rewrite Hfr. split; [done|]. right.
    apply (consistent_in_index st); [done|]. by rewrite Hfs.
  - split; [intros k|right]; rewrite Hp', ?Hp; cbn [map]; rewrite ?Hk; [done|by left].
  - split; [intros k|right]; rewrite Hp'; cbn [map]; [by right|by left].
  - split; [intros k|right]; rewrite Hp'; cbn [map]; [by right|by left].
Qed.

Lemma handle_actions_covers node acts st st' :
  is_consistent st →
  handle_actions node st acts = Some st' →
  (∀ k, k ∈ fkeys st → k ∈ fkeys st')
  ∧ ∀ a child c, a ∈ acts → result problem (state node) a = Some (child, c) →
                 covered st' (key child).
Proof.
  revert st. induction acts as [|a acts IH]; intros st Hc; simpl.
  { intros [= <-]. split; [done|]. by intros ??? ?%elem_of_nil. }
  destruct (handle_action node st a) as [st1|] eqn:H1; [|done].
  intros Hrest.
  destruct (handle_action_covers _ _ _ _ Hc H1) as [Hm1 Hc1].
  destruct (IH st1 (handle_action_consistent _ _ _ _ Hc H1) Hrest) as [Hm2 Hc2].
  split; [by intros k ?%Hm1%Hm2|].
  intros a' child c [->|Ha']%elem_of_cons Hres; [|by eapply Hc2].
  rewrite (handle_actions_explored _ _ _ _ Hrest).
  destruct (Hc1 _ _ Hres) as [?|?%Hm2]; [by left|by right].
Qed.

(** The search data between the pop and the successor loop fit together
    as well. *)
Lemma popped_consistent st st1 f node fr :
  is_consistent st →
  heapq.heappop entry_lt (frontier st) = Some ((f, node), fr) →
  frontier st1 = fr →
  frontier_states st1 = delete (key (state node)) (frontier_states st) →
  explored st1 = {[key (state node)]} ∪ explored st →
  is_consistent st1.
Proof.
  intros (Hnd & Hdom & Hexp) Hkeys%heappop_keys Hfr Hfs Hex.
  rewrite Hkeys in Hnd. apply NoDup_cons in Hnd as [Hnin Hnd].
  unfold consistent, frontier_keys. rewrite Hfr, Hfs, Hex. split_and!.
  - done.
  - apply set_eq. intros k.
    rewrite dom_delete_L, Hdom, elem_of_difference, !elem_of_list_to_set, Hkeys.
    rewrite elem_of_cons, elem_of_singleton. split; [naive_solver|].
    intros Hk. split; [by right|]. by intros ->.
  - intros k Hk. rewrite elem_of_union, elem_of_singleton.
    intros [->|Hke]; [done|]. apply (Hexp k); [|done].
    rewrite Hkeys. by right.
Qed.

(** At the head of every round: the initial state is in the frontier or
    explored, and every explored state failed the goal test and has all its
    successors in the frontier or explored. *)
Lemma reachable_closed m0 st :
  reachable m0 st →
  covered st (key (get_initial_state problem))
  ∧ ∀ k, k ∈ explored st →
      ∃ s, can_reach s ∧ key s = k ∧ goal_test problem s = false
           ∧ ∀ acts a s' c,
               actions problem s = Some acts → a ∈ acts →
               result problem s a = Some (s', c) → covered st (key s').
Proof.
  induction 1 as [|st st' Hr [IHi IHe] Hne Hit].
  { split; [right; by left|]. by intros k ?%elem_of_empty. }
  pose proof (reachable_consistent _ _ Hr) as Hc.
  pose proof (reachable_wf _ _ Hr) as Hwf.
  apply iteration_Continue in Hit
    as (f & node & fr & acts & st1 & Hpop & _ & Hgoal & Hacts & Hh & Hfr & Hfs & Hex & _).
  pose proof (popped_consistent _ _ _ _ _ Hc Hpop Hfr Hfs Hex) as Hc1.
  destruct (handle_actions_covers _ _ _ _ Hc1 Hh) as [Hmono Hcov].
  pose proof (handle_actions_explored _ _ _ _ Hh) as Hex'.
  assert (∀ k, covered st k → covered st' k) as Hkeep.
  { intros k [Hk|Hk].
    - left. rewrite Hex', Hex. set_solver.
    - rewrite (heappop_keys _ _ _ _ Hpop) in Hk.
      apply elem_of_cons in Hk as [->|Hk].
      + left. rewrite Hex', Hex. set_solver.
      + right. apply Hmono. unfold frontier_keys. by rewrite Hfr. }
  split; [by apply Hkeep|].
  intros k Hk. rewrite Hex', Hex, elem_of_union, elem_of_singleton in Hk.
  destruct Hk as [->|Hk].
  - exists (state node). split_and!; [|done..|].
    + apply wf_node_can_reach. by eapply popped_wf.
    + intros acts' a s' c Hacts' Ha Hres.
      rewrite Hacts in Hacts'. injection Hacts' as <-.
      by eapply Hcov.
  - destruct (IHe k Hk) as (s & Hs & Hks & Hg & Hsucc).
    exists s. split_and!; [done..|].
    intros acts' a s' c Hacts' Ha Hres. apply Hkeep. by eapply Hsucc.
Qed.

(** When the loop is left on an empty frontier, every state of the graph
    has been explored and failed the goal test. *)
Lemma run_Exhausted_no_goal m0 fuel st' s :
  key_faithful →
  run fuel m0 = Done Exhausted st' →
  can_reach s → goal_test problem s = false.
Proof.
  intros Hinj (st_last & Hr & Hend)%(search_loop_last m0); [|apply reach_init].
  destruct Hend as [(Hfr & _)|[_ Hstop]]; cycle 1.
  { by apply iteration_Stop in Hstop
      as (_ & _ & [([=] & _)|(f & n & fr & [=] & _)]). }
  destruct (reachable_closed _ _ Hr) as [Hinit Hclosed].
  assert (∀ k, covered st_last k → k ∈ explored st_last) as Hexp.
  { intros k [?|Hk]; [done|]. unfold frontier_keys in Hk. rewrite Hfr in Hk.
    by apply elem_of_nil in Hk. }
  assert (∀ s, can_reach s → key s ∈ explored st_last) as Hall.
  { induction 1 as [|s0 acts a s1 c Hs0 IH Hacts Ha Hres]; [by apply Hexp|].
    destruct (Hclosed _ IH) as (s2 & Hs2 & Hk & _ & Hsucc).
    apply Hinj in Hk; [|done..]. subst s2. apply Hexp. by eapply Hsucc. }
  intros Hs. destruct (Hclosed _ (Hall _ Hs)) as (s2 & Hs2 & Hk & Hg & _).
  apply Hinj in Hk; [|done..]. by subst s2.
Qed.

(** The states a node's parent links pass through belong to the graph. *)
Lemma wf_node_path_can_reach node :
  wf_node node → Forall can_reach (_extract_solution truthy node).1.
Proof.
  intros Hwf. unfold _extract_solution.
  destruct (walk_parents truthy node) as [path acts] eqn:Hwalk. cbn [fst].
  apply Forall_rev. revert path acts Hwalk.
  induction Hwf as [|p pacts a s c Hp IH Hacts Ha Hres]; intros path acts.
  - intros [= <- <-]. apply Forall_singleton, can_reach_init.
  - cbn [walk_parents Node_init parent action state].
    destruct (walk_parents truthy p) as [ppath pacts'] eqn:Hwalk'.
    intros [= <- <-]. apply Forall_cons. split; [|by eapply IH].
    eapply can_reach_step; [|done..]. by apply wf_node_can_reach.
Qed.

Lemma apply_actions_length s acts path :
  apply_actions problem s acts = Some path → length path = S (length acts).
Proof.
  revert s path. induction acts as [|a acts IH]; intros s path; simpl.
  - by intros [= <-].
  - destruct (result problem s a) as [[s1 c1]|]; [|done].
    destruct (apply_actions problem s1 acts) as [path1|] eqn:H1; [|done].
    intros [= <-]. simpl. f_equal. by eapply IH.
Qed.

(** A list of actions that can be followed is a walk of its length. *)
Lemma follow_walk `{EqDecision Action} s acts t :
  follow problem s acts = Some t → walk problem s (length acts) t.
Proof.
  revert s. induction acts as [|a acts IH]; intros s; simpl.
  - intros [= <-]. apply walk_here.
  - destruct (actions problem s) as [offered|] eqn:Hoff; [|done].
    case_decide as Hin; [|done].
    destruct (result problem s a) as [[s' c]|] eqn:Hres; [|done].
    intros Hrest. eapply walk_step; [done..|]. by apply IH.
Qed.

(** The first round on an initial state that is no goal and whose actions
    cannot be listed. *)
Lemma first_round_raises m0 fuel :
  Qgtb (clock 1 - clock 0)%Q timeout_budget = false →
  goal_test problem (get_initial_state problem) = false →
  actions problem (get_initial_state problem) = None →
  run (S fuel) m0 = Raise.
Proof.
  intros Hclock Hgoal Hacts. unfold a_star.run.
  set (root := Node_init (Action := Action) (get_initial_state problem) None None 0).
  assert (frontier (init_search m0) = [(fval root, root)]) as Hfr by done.
  cbn [a_star.search_loop]. rewrite Hfr.
  assert (iteration (init_search m0) = Raised) as ->; [|done].
  unfold a_star.iteration.
  change (elapsed clock (init_search m0)) with (clock 1 - clock 0)%Q.
  rewrite Hclock.
  cbn [frontier frontier_states explored self_metrics branching_factors clock_reads
       with_metrics tick].
  destruct (heapq.heappop _ _) as [[[f node] fr]|] eqn:Hpop; [|done].
  apply heappop_perm in Hpop. rewrite Hfr in Hpop.
  apply Permutation_singleton_l in Hpop. injection Hpop as <- <- <-.
  destruct (frontier_states (init_search m0) !! _); [|done].
  change (state root) with (get_initial_state problem).
  by rewrite Hgoal, Hacts.
Qed.

(** What a successful run hands back. *)
Lemma run_Succeeded_solution m0 fuel node st' :
  run fuel m0 = Done (Succeeded node) st' →
  solution_length (self_metrics st')
  = Z.of_nat (length (_extract_solution truthy node).2).
Proof.
  intros (st_last & Hr & [(_ & [=] & _)|[_ Hstop]])%(search_loop_last m0);
    [|apply reach_init].
  by apply iteration_Stop in Hstop
    as (_ & _ & [([=] & _)|(f & n & fr & [= <-] & _ & _ & _ & _ & _ & ->)]).
Qed.

(** *** What the counters add up to *)

Local Notation total xs := (foldl Z.add 0 xs).
Local Notation bounded st :=
  (1 ≤ max_frontier_size (self_metrics st)
   ∧ Z.of_nat (length (frontier st)) ≤ max_frontier_size (self_metrics st)
   ∧ max_frontier_size (self_metrics st) ≤ nodes_generated (self_metrics st)
   ∧ 1 ≤ max_memory_nodes (self_metrics st)
   ∧ max_memory_nodes (self_metrics st) ≤ nodes_generated (self_metrics st)).
Local Notation tallied m0 st :=
  (nodes_generated (self_metrics st) = 1 + total (branching_factors st)
   ∧ length (branching_factors st) = size (explored st)
   ∧ avg_branching_factor (self_metrics st) = avg_branching_factor m0
   ∧ solution_length (self_metrics st) = solution_length m0).

Lemma total_snoc xs x : total (xs ++ [x]) = total xs + x.
Proof. by rewrite foldl_app. Qed.

(** The body of the successor loop writes two fields of the metrics:
    [nodes_generated], always, and [max_frontier_size], when it inserts. *)
Lemma handle_action_metrics node st a st' child c :
  result problem (state node) a = Some (child, c) →
  handle_action node st a = Some st' →
  let m := self_metrics st in
  self_metrics st'
  = set_max_frontier_size (max_frontier_size (self_metrics st'))
      (set_nodes_generated (nodes_generated m + 1) m)
  ∧ max_frontier_size (self_metrics st')
    = (if decide (key child ∈ explored st) then max_frontier_size m
       else match frontier_states st !! key child with
            | Some _ => max_frontier_size m
            | None => Z.max (max_frontier_size m) (Z.of_nat (length (frontier st')))
            end).
Proof.
  intros Hres. unfold a_star.handle_action. rewrite Hres.
  cbn [with_metrics explored frontier frontier_states self_metrics].
  case_decide; [by intros [= <-]|].
  destruct (frontier_states st !! key child) as [[fg ff]|]; [|by intros [= <-]].
  destruct (g _ <? fg); [|by intros [= <-]].
  destruct (_remove_from_frontier key _ _ _) as [[fr fs]|]; [|done].
  by intros [= <-].
Qed.

Lemma handle_action_bounded e0 node st a st' :
  is_consistent st → counted e0 st → bounded st →
  handle_action node st a = Some st' → bounded st'.
Proof.
  intros Hc Hcnt (Hmfs1 & Hfr & Hmfs & Hmmn1 & Hmmn) Hst'.
  pose proof (handle_action_counted _ _ _ _ _ Hcnt Hst') as [Hexp' Hgen'].
  destruct (result problem (state node) a) as [[child c]|] eqn:Hres;
    [|by unfold a_star.handle_action in Hst'; rewrite Hres in Hst'].
  destruct (handle_action_metrics _ _ _ _ _ _ Hres Hst') as [Hm Hmax].
  destruct (handle_action_cases node st a child c Hres)
    as (st'' & Heq & Hex & _ & _ & Hgen & Hexpd & Hcases).
  rewrite Hst' in Heq. injection Heq as <-.
  assert (max_memory_nodes (self_metrics st') = max_memory_nodes (self_metrics st)) as Hsame.
  { by rewrite Hm. }
  rewrite Hsame, Hgen.
  assert (1 ≤ max_frontier_size (self_metrics st')
          ∧ Z.of_nat (length (frontier st')) ≤ max_frontier_size (self_metrics st')
          ∧ max_frontier_size (self_metrics st') ≤ nodes_generated (self_metrics st) + 1);
    [|lia].
  rewrite Hmax.
  destruct Hcases as [(Hin & Hf & _)|[(Hnin & (fg & ff & Hfs & _) & Hf & _)
    |[(Hnin & (fg & ff & Hfs & _) & _ & Hf)|(Hnin & Hfs & _ & Hf)]]].
  - rewrite decide_True by done. rewrite Hf. lia.
  - rewrite decide_False by done. rewrite Hfs, Hf. lia.
  - rewrite decide_False by done. rewrite Hfs.
    destruct Hf as [(stale & rest & _ & Hp & Hp')|[Hno _]].
    + apply Permutation_length in Hp, Hp'. simpl in Hp, Hp'. lia.
    + exfalso. assert (key child ∈ fkeys st) as Hin.
      { apply consistent_in_index; [done|]. by rewrite Hfs. }
      apply list_elem_of_fmap in Hin as (e & Hk & He). by eapply Hno.
  - rewrite decide_False by done. rewrite Hfs. lia.
Qed.

Lemma handle_actions_bounded e0 node acts st st' :
  is_consistent st → counted e0 st → bounded st →
  handle_actions node st acts = Some st' → bounded st'.
Proof.
  revert st. induction acts as [|a acts IH]; intros st Hc Hcnt Hb; simpl.
  { by intros [= <-]. }
  destruct (handle_action node st a) as [st1|] eqn:H1; [|done].
  apply IH.
  - by eapply handle_action_consistent.
  - by eapply handle_action_counted.
  - by eapply handle_action_bounded.
Qed.

Lemma handle_actions_tally node acts st st' :
  handle_actions node st acts = Some st' →
  nodes_generated (self_metrics st')
  = nodes_generated (self_metrics st) + Z.of_nat (length acts)
  ∧ branching_factors st' = branching_factors st
  ∧ avg_branching_factor (self_metrics st') = avg_branching_factor (self_metrics st)
  ∧ solution_length (self_metrics st') = solution_length (self_metrics st).
Proof.
  revert st. induction acts as [|a acts IH]; intros st; simpl.
  { intros [= <-]. split_and!; [lia|done..]. }
  destruct (handle_action node st a) as [st1|] eqn:H1; [|done].
  intros (-> & -> & -> & ->)%IH.
  destruct (result problem (state node) a) as [[child c]|] eqn:Hres;
    [|by unfold a_star.handle_action in H1; rewrite Hres in H1].
  destruct (handle_action_metrics _ _ _ _ _ _ Hres H1) as [-> _].
  destruct (handle_action_cases node st a child c Hres) as (st'' & Heq & _ & Hbf & _).
  rewrite H1 in Heq. injection Heq as <-.
  cbn. split_and!; [lia|done..].
Qed.

(** A round that goes on: what it does to the metrics and to the list of
    branching samples before the successors are handled. *)
Lemma iteration_Continue_metrics st st' :
  iteration st = Continue st' →
  ∃ f node fr acts st1,
    heapq.heappop entry_lt (frontier st) = Some ((f, node), fr)
    ∧ handle_actions node st1 acts = Some st'
    ∧ frontier st1 = fr
    ∧ frontier_states st1 = delete (key (state node)) (frontier_states st)
    ∧ explored st1 = {[key (state node)]} ∪ explored st
    ∧ branching_factors st1 = branching_factors st ++ [Z.of_nat (length acts)]
    ∧ self_metrics st1
      = set_nodes_expanded (nodes_expanded (self_metrics st) + 1)
          (set_max_memory_nodes
             (Z.max (max_memory_nodes (self_metrics st))
                (Z.of_nat (length (frontier st)) + Z.of_nat (size (explored st))))
             (self_metrics st)).
Proof.
  unfold a_star.iteration.
  destruct (Qgtb _ _); [done|].
  cbn [frontier frontier_states explored self_metrics branching_factors clock_reads
       with_metrics tick].
  destruct (heapq.heappop _ _) as [[[f node] fr]|] eqn:Hpop; [|done].
  destruct (frontier_states st !! _) as [v|] eqn:Hfs; [|done].
  destruct (goal_test problem (state node)) eqn:Hgoal.
  { destruct (_extract_solution truthy node). done. }
  destruct (actions problem (state node)) as [acts|] eqn:Hacts; [|done].
  cbn [frontier frontier_states explored self_metrics branching_factors clock_reads].
  destruct (a_star.handle_actions _ _ _ _ _ _) as [st2|] eqn:Hh; [|done].
  intros [= <-]. eexists f, node, fr, acts, _.
  split_and!; [done|exact Hh|done..].
Qed.

Lemma iteration_bounded e0 st st' :
  is_consistent st → counted e0 st → bounded st →
  iteration st = Continue st' → bounded st'.
Proof.
  intros Hc Hcnt (Hmfs1 & Hfr & Hmfs & Hmmn1 & Hmmn)
    (f & node & fr & acts & st1 & Hpop & Hh & Hfr1 & Hfs1 & Hex1 & _ & Hm1)
    %iteration_Continue_metrics.
  assert (key (state node) ∉ explored st) as Hnew.
  { destruct Hc as (_ & _ & Hexp). apply Hexp.
    rewrite (heappop_keys _ _ _ _ Hpop). by left. }
  pose proof Hpop as Hlen. apply heappop_perm, Permutation_length in Hlen. simpl in Hlen.
  destruct Hcnt as [He Hg].
  apply (handle_actions_bounded e0 node acts st1); [| | |done].
  - by eapply popped_consistent.
  - unfold counted. rewrite Hex1, Hm1, Hfr1. cbn.
    rewrite size_union by set_solver. rewrite size_singleton. lia.
  - rewrite Hm1, Hfr1. cbn. lia.
Qed.

Lemma init_search_bounded m0 : bounded (init_search m0).
Proof. unfold a_star.init_search. cbn. lia. Qed.

(** At the head of every round the frontier is no longer than
    [max_frontier_size], and neither maximum exceeds [nodes_generated]. *)
Lemma reachable_bounded m0 st : reachable m0 st → bounded st.
Proof.
  induction 1 as [|st st' Hr IH _ Hit].
  - apply init_search_bounded.
  - eapply (iteration_bounded (nodes_expanded m0)); [| |done..].
    + by eapply reachable_consistent.
    + by eapply reachable_counted.
Qed.

(** At the head of every round [nodes_generated] is one (the initial node)
    plus the branching samples, of which there is one per explored state;
    the average and the solution length are untouched. *)
Lemma reachable_tallied m0 st : reachable m0 st → tallied m0 st.
Proof.
  induction 1 as [|st st' Hr (IHg & IHl & IHa & IHs) _ Hit].
  { cbn. by rewrite size_empty. }
  pose proof (reachable_consistent _ _ Hr) as Hc.
  apply iteration_Continue_metrics in Hit
    as (f & node & fr & acts & st1 & Hpop & Hh & Hfr1 & Hfs1 & Hex1 & Hbf1 & Hm1).
  assert (key (state node) ∉ explored st) as Hnew.
  { destruct Hc as (_ & _ & Hexp). apply Hexp.
    rewrite (heappop_keys _ _ _ _ Hpop). by left. }
  pose proof (handle_actions_explored _ _ _ _ Hh) as Hex'.
  apply handle_actions_tally in Hh as (-> & -> & -> & ->).
  rewrite Hex', Hex1, Hbf1, Hm1, total_snoc, length_app. cbn.
  rewrite size_union by set_solver. rewrite size_singleton.
  split_and!; [lia|lia|done..].
Qed.

(** A round that leaves the loop keeps the samples, the explored set and
    the counters other than [nodes_expanded]; on success it stores the
    average of the samples when there is one. *)
Lemma iteration_Stop_metrics st (ex : exit) st' :
  iteration st = Stop ex st' →
  branching_factors st' = branching_factors st
  ∧ nodes_generated (self_metrics st') = nodes_generated (self_metrics st)
  ∧ max_frontier_size (self_metrics st') = max_frontier_size (self_metrics st)
  ∧ match ex with
    | Succeeded _ =>
        avg_branching_factor (self_metrics st')
        = match branching_factors st with
          | [] => avg_branching_factor (self_metrics st)
          | _ :: _ => average (branching_factors st)
          end
        ∧ max_memory_nodes (self_metrics st')
          = Z.max (max_memory_nodes (self_metrics st))
              (Z.of_nat (length (frontier st)) + Z.of_nat (size (explored st)))
    | _ =>
        avg_branching_factor (self_metrics st') = avg_branching_factor (self_metrics st)
        ∧ solution_length (self_metrics st') = solution_length (self_metrics st)
        ∧ max_memory_nodes (self_metrics st') = max_memory_nodes (self_metrics st)
    end.
Proof.
  unfold a_star.iteration.
  destruct (Qgtb _ _).
  { intros [= <- <-]. cbn. by split_and!. }
  cbn [frontier frontier_states explored self_metrics branching_factors clock_reads
       with_metrics tick].
  destruct (heapq.heappop _ _) as [[[f node] fr]|] eqn:Hpop; [|done].
  destruct (frontier_states st !! _) as [v|] eqn:Hfs; [|done].
  destruct (goal_test problem (state node)) eqn:Hgoal.
  - destruct (_extract_solution truthy node) as [path acts] eqn:Hex.
    intros [= <- <-].
    cbn [frontier frontier_states explored self_metrics branching_factors clock_reads
         with_metrics tick].
    destruct (branching_factors st); cbn; by split_and!.
  - destruct (actions problem (state node)) as [acts|]; [|done].
    by destruct (a_star.handle_actions _ _ _ _ _ _).
Qed.

(** *** The order of expansion and the cost of the node returned *)

Local Notation route := (route problem).
Local Notation consistent_heuristic := (consistent_heuristic heuristic_func problem).
Local Notation zero_at_goals := (zero_at_goals heuristic_func problem).
Local Notation is_heap fr := (heap_from entry_lt 0 fr).
Local Notation indexed st :=
  (∀ f n, (f, n) ∈ frontier st →
     f = fval n ∧ frontier_states st !! key (state n) = Some (g n, f)).
Local Notation waits st s b :=
  (key s ∈ explored st
   ∨ ∃ f n, (f, n) ∈ frontier st ∧ key (state n) = key s ∧ g n ≤ b).
Local Notation settled st :=
  (waits st (get_initial_state problem) 0
   ∧ ∀ k, k ∈ explored st →
       ∃ s gk, can_reach s ∧ key s = k ∧ goal_test problem s = false
         ∧ (heuristic_func s ≠ Inf → ∀ C, route C s → gk ≤ C)
         ∧ ∀ acts a s' c,
             actions problem s = Some acts → a ∈ acts →
             result problem s a = Some (s', c) → waits st s' (gk + c)).

(** The order of the tuples [(f, node)]. *)
Lemma entry_lt_asym (a b : entry) : entry_lt a b = true → entry_lt b a = false.
Proof.
  destruct a as [fa na], b as [fb nb]. unfold entry_lt. cbn [fst snd].
  destruct (decide (fa = fb)) as [->|Hne].
  - rewrite decide_True by done. intros ?%Z.ltb_lt. apply Z.ltb_ge. lia.
  - rewrite decide_False by congruence. destruct fa, fb; simpl; try done.
    intros ?%Z.ltb_lt. apply Z.ltb_ge. lia.
Qed.

Lemma entry_le_trans (a b c : entry) :
  entry_lt b a = false → entry_lt c b = false → entry_lt c a = false.
Proof.
  destruct a as [[x|] na], b as [[y|] nb], c as [[z|] nc]; unfold entry_lt; cbn [fst snd];
    repeat case_decide; simplify_eq; simpl; rewrite ?Z.ltb_ge;
    try done; try lia;
    repeat match goal with
           | Hne : Fin ?u ≠ Fin ?v |- _ => assert (u ≠ v) by congruence; clear Hne
           end; lia.
Qed.

Lemma entry_le_f (a b : entry) : entry_lt b a = false → ext_le a.1 b.1.
Proof.
  destruct a as [fa na], b as [fb nb]. unfold entry_lt. cbn [fst snd].
  case_decide as Heq; [subst; intros _; apply ext_le_refl|].
  destruct fa, fb; simpl; try done. intros ?%Z.ltb_ge. lia.
Qed.

(** The frontier is a heap at the head of every round. *)
Lemma handle_action_heap node st a st' :
  is_heap (frontier st) → handle_action node st a = Some st' → is_heap (frontier st').
Proof.
  intros Hh. unfold a_star.handle_action.
  destruct (result problem (state node) a) as [[child c]|]; [|done].
  cbn [frontier frontier_states explored self_metrics with_metrics].
  case_decide; [intros [= <-]; exact Hh|].
  destruct (frontier_states st !! key child) as [[fg ff]|].
  - destruct (_ <? _); [|intros [= <-]; exact Hh].
    destruct (_remove_from_frontier _ _ _ _) as [[fr fs]|] eqn:Hrm; [|done].
    intros [= <-]. cbn [frontier].
    apply (heappush_ordered entry_lt entry_lt_asym entry_le_trans).
    revert Hrm. unfold _remove_from_frontier.
    destruct (list_find _ _) as [[i e]|]; [|by intros [= <- _]].
    destruct (last _); [|by intros [= <- _]].
    destruct (_ !! _); [|done]. intros [= <- _].
    apply (heapify_ordered entry_lt entry_lt_asym entry_le_trans).
  - intros [= <-]. cbn [frontier].
    by apply (heappush_ordered entry_lt entry_lt_asym entry_le_trans).
Qed.

Lemma handle_actions_heap node acts st st' :
  is_heap (frontier st) → handle_actions node st acts = Some st' → is_heap (frontier st').
Proof.
  revert st. induction acts as [|a acts IH]; intros st Hh; simpl; [by intros [= <-]|].
  destruct (handle_action node st a) as [st1|] eqn:H1; [|done].
  apply IH. by eapply handle_action_heap.
Qed.

Lemma reachable_heap m0 st : reachable m0 st → is_heap (frontier st).
Proof.
  induction 1 as [|st st' Hr IH Hne Hit].
  - apply (heappush_ordered entry_lt entry_lt_asym entry_le_trans).
    intros p c y x _ _ Hp. by rewrite lookup_nil in Hp.
  - apply iteration_Continue in Hit
      as (f & node & fr & acts & st1 & Hpop & _ & _ & _ & Hh & Hfr & _).
    eapply handle_actions_heap; [|done]. rewrite Hfr.
    by destruct (heappop_ordered entry_lt entry_lt_asym entry_le_trans _ _ _ IH Hpop).
Qed.

(** The popped tuple has a least [f]. *)
Lemma popped_least st f node fr :
  is_heap (frontier st) →
  heapq.heappop entry_lt (frontier st) = Some ((f, node), fr) →
  ∀ f' n', (f', n') ∈ frontier st → ext_le f f'.
Proof.
  intros Hh Hpop f' n' Hin.
  destruct (heappop_ordered entry_lt entry_lt_asym entry_le_trans _ _ _ Hh Hpop)
    as [_ Hleast].
  rewrite (heappop_perm _ _ _ _ Hpop) in Hin.
  apply elem_of_cons in Hin as [[= -> ->]|Hin]; [apply ext_le_refl|].
  apply (entry_le_f (f, node) (f', n')). by apply Hleast.
Qed.

(** The index holds the [g] and the [f] of the node waiting for each
    state, and the [f] of a tuple is that of its node. *)
Lemma frontier_other_keys st e rest x :
  is_consistent st → frontier st ≡ₚ e :: rest → x ∈ rest → ekey x ≠ ekey e.
Proof.
  intros (Hnd & _) Hp Hx. unfold frontier_keys in Hnd. rewrite Hp in Hnd.
  cbn [map] in Hnd. apply NoDup_cons in Hnd as [Hnin _].
  intros Heq. apply Hnin. rewrite <- Heq. apply list_elem_of_fmap. eauto.
Qed.

Lemma handle_action_indexed node st a st' :
  is_consistent st → indexed st → handle_action node st a = Some st' → indexed st'.
Proof.
  intros Hc Hidx Hst'.
  destruct (result problem (state node) a) as [[child c]|] eqn:Hres;
    [|by unfold a_star.handle_action in Hst'; rewrite Hres in Hst'].
  destruct (handle_action_cases node st a child c Hres)
    as (st'' & Heq & _ & _ & _ & _ & _ & Hcases).
  rewrite Hst' in Heq. injection Heq as <-.
  assert (∀ f n, (f, n) ∈ frontier st → key (state n) ≠ key child →
            f = fval n
            ∧ <[key child := (g (child_of node a child c), fval (child_of node a child c))]>
                (frontier_states st) !! key (state n) = Some (g n, f)) as Hold.
  { intros f n Hin Hne. destruct (Hidx f n Hin) as [-> Hl]. split; [done|].
    by rewrite lookup_insert_ne. }
  assert (∀ f n, (f, n) = (fval (child_of node a child c), child_of node a child c) →
            f = fval n
            ∧ <[key child := (g (child_of node a child c), fval (child_of node a child c))]>
                (frontier_states st) !! key (state n) = Some (g n, f)) as Hnew.
  { intros f n [= -> ->]. split; [done|]. cbn [state Node_init]. by rewrite lookup_insert_eq. }
  destruct Hcases as [(_ & Hfr & Hfs)|[(_ & _ & Hfr & Hfs)
    |[(_ & _ & Hfs & Hfr)|(_ & Hnone & Hfs & Hp')]]]; intros f n Hin.
  - rewrite Hfr in Hin. rewrite Hfs. by apply Hidx.
  - rewrite Hfr in Hin. rewrite Hfs. by apply Hidx.
  - rewrite Hfs. destruct Hfr as [(stale & rest & Hk & Hp & Hp')|[Hno Hp']];
      rewrite Hp' in Hin; apply elem_of_cons in Hin as [Hin|Hin]; [by apply Hnew| |by apply Hnew|].
    + apply Hold; [rewrite Hp; by right|].
      rewrite <- Hk. by apply (frontier_other_keys st stale rest (f, n)).
    + apply Hold; [done|]. by apply (Hno (f, n)).
  - rewrite Hfs. rewrite Hp' in Hin. apply elem_of_cons in Hin as [Hin|Hin]; [by apply Hnew|].
    apply Hold; [done|]. intros Heq. destruct (Hidx f n Hin) as [_ Hl]. congruence.
Qed.

Lemma popped_indexed st st1 f node fr :
  is_consistent st → indexed st →
  heapq.heappop entry_lt (frontier st) = Some ((f, node), fr) →
  frontier st1 = fr →
  frontier_states st1 = delete (key (state node)) (frontier_states st) →
  indexed st1.
Proof.
  intros Hc Hidx Hpop%heappop_perm Hfr Hfs f' n' Hin. rewrite Hfr in Hin. rewrite Hfs.
  destruct (Hidx f' n') as [-> Hl]; [rewrite Hpop; by right|]. split; [done|].
  rewrite lookup_delete_ne; [done|].
  intros Heq. by apply (frontier_other_keys st (f, node) fr (fval n', n')).
Qed.

Lemma handle_actions_indexed node acts st st' :
  is_consistent st → indexed st → handle_actions node st acts = Some st' → indexed st'.
Proof.
  revert st. induction acts as [|a acts IH]; intros st Hc Hidx; simpl; [by intros [= <-]|].
  destruct (handle_action node st a) as [st1|] eqn:H1; [|done].
  apply IH; [by eapply handle_action_consistent|by eapply handle_action_indexed].
Qed.

Lemma reachable_indexed m0 st : reachable m0 st → indexed st.
Proof.
  induction 1 as [|st st' Hr IH Hne Hit].
  - intros f n Hin. unfold a_star.init_search in Hin. cbn [frontier] in Hin.
    rewrite heappush_perm in Hin. apply list_elem_of_singleton in Hin as [= -> ->].
    split; [done|]. cbn [frontier_states a_star.init_search state Node_init].
    by rewrite lookup_singleton_eq.
  - pose proof (reachable_consistent _ _ Hr) as Hc.
    apply iteration_Continue in Hit
      as (f & node & fr & acts & st1 & Hpop & _ & _ & _ & Hh & Hfr & Hfs & Hex & _).
    eapply handle_actions_indexed; [|  |done].
    + by eapply popped_consistent.
    + by eapply popped_indexed.
Qed.

(** What the successor loop does for the states that wait in the frontier
    with a cost of at most [b]: they keep waiting with such a cost, and the
    successor handled joins them with the cost of the node plus the step. *)
Lemma handle_action_keeps_waits node st a st' s b :
  is_consistent st → indexed st →
  handle_action node st a = Some st' →
  waits st s b → waits st' s b.
Proof.
  intros Hc Hidx Hst' Hw.
  destruct (result problem (state node) a) as [[child c]|] eqn:Hres;
    [|by unfold a_star.handle_action in Hst'; rewrite Hres in Hst'].
  destruct (handle_action_cases node st a child c Hres)
    as (st'' & Heq & Hex & _ & _ & _ & _ & Hcases).
  rewrite Hst' in Heq. injection Heq as <-.
  destruct Hw as [Hw|(f & n & Hin & Hk & Hb)]; [left; by rewrite Hex|]. right.
  destruct Hcases as [(_ & Hfr & _)|[(_ & _ & Hfr & _)
    |[(_ & (fg & ff & Hfs & Hlt) & _ & Hfr)|(_ & _ & _ & Hp')]]].
  - exists f, n. by rewrite Hfr.
  - exists f, n. by rewrite Hfr.
  - destruct Hfr as [(stale & rest & Hks & Hp & Hp')|[_ Hp']].
    + pose proof Hin as Hin0. rewrite Hp in Hin. apply elem_of_cons in Hin as [<-|Hin].
      * exists (fval (child_of node a child c)), (child_of node a child c).
        rewrite Hp'. split_and!; [by left|cbn [state Node_init]; by rewrite <- Hk, <- Hks|].
        destruct (Hidx f n Hin0) as [_ Hl]. unfold entry_key in Hks. cbn [snd] in Hks.
        rewrite Hks, Hfs in Hl. injection Hl as -> ->. apply Z.ltb_lt in Hlt. lia.
      * exists f, n. rewrite Hp'. split_and!; [by right|done..].
    + exists f, n. rewrite Hp'. split_and!; [by right|done..].
  - exists f, n. rewrite Hp'. split_and!; [by right|done..].
Qed.

Lemma handle_action_waits node st a st' child c :
  is_consistent st → indexed st →
  result problem (state node) a = Some (child, c) →
  handle_action node st a = Some st' →
  waits st' child (g node + c).
Proof.
  intros Hc Hidx Hres Hst'.
  destruct (handle_action_cases node st a child c Hres)
    as (st'' & Heq & Hex & _ & _ & _ & _ & Hcases).
  rewrite Hst' in Heq. injection Heq as <-.
  assert (g (child_of node a child c) = c + g node) as Hg by done.
  destruct Hcases as [(Hin & _)|[(_ & (fg & ff & Hfs & Hlt) & Hfr & _)
    |[(_ & _ & _ & Hfr)|(_ & _ & _ & Hp')]]].
  - left. by rewrite Hex.
  - right. assert (key child ∈ fkeys st) as Hin.
    { apply consistent_in_index; [done|]. by rewrite Hfs. }
    apply list_elem_of_fmap in Hin as ([f n] & Hk & He).
    unfold entry_key in Hk. cbn [snd] in Hk.
    exists f, n. rewrite Hfr. split_and!; [done..|].
    destruct (Hidx f n He) as [_ Hl]. rewrite <- Hk, Hfs in Hl. injection Hl as -> ->.
    apply Z.ltb_ge in Hlt. lia.
  - right. exists (fval (child_of node a child c)), (child_of node a child c).
    split_and!; [|done|lia].
    destruct Hfr as [(stale & rest & _ & _ & Hp')|[_ Hp']]; rewrite Hp'; by left.
  - right. exists (fval (child_of node a child c)), (child_of node a child c).
    split_and!; [|done|lia]. rewrite Hp'. by left.
Qed.

Lemma handle_actions_waits node acts st st' :
  is_consistent st → indexed st →
  handle_actions node st acts = Some st' →
  (∀ s b, waits st s b → waits st' s b)
  ∧ ∀ a child c, a ∈ acts → result problem (state node) a = Some (child, c) →
                 waits st' child (g node + c).
Proof.
  revert st. induction acts as [|a acts IH]; intros st Hc Hidx; simpl.
  { intros [= <-]. split; [done|]. by intros ??? ?%elem_of_nil. }
  destruct (handle_action node st a) as [st1|] eqn:H1; [|done].
  intros Hrest.
  pose proof (handle_action_consistent _ _ _ _ Hc H1) as Hc1.
  pose proof (handle_action_indexed _ _ _ _ Hc Hidx H1) as Hidx1.
  destruct (IH st1 Hc1 Hidx1 Hrest) as [Hkeep Hnew].
  split.
  - intros s b Hw. apply Hkeep.
    exact (handle_action_keeps_waits _ _ _ _ _ _ Hc Hidx H1 Hw).
  - intros a' child c [->|Ha']%elem_of_cons Hres; [|by eapply Hnew].
    apply Hkeep. exact (handle_action_waits _ _ _ _ _ _ Hc Hidx Hres H1).
Qed.

(** Costs of the walks of the graph. *)
Lemma route_can_reach C t : route C t → can_reach t.
Proof.
  induction 1 as [|C s acts a s' c _ IH Hacts Ha Hres]; [apply can_reach_init|].
  by eapply can_reach_step.
Qed.

Lemma wf_node_route node : wf_node node → route (g node) (state node).
Proof.
  induction 1 as [|p acts a s c _ IH Hacts Ha Hres]; [apply route_init|].
  cbn [g state Node_init]. rewrite Z.add_comm. by eapply route_step.
Qed.

(** A walk to a state that has not been explored passes through the
    frontier: some tuple there has an [f] of at most the cost of the walk
    plus the estimate at its end. *)
Lemma route_meets_frontier st C t :
  key_faithful → consistent_heuristic →
  Forall (λ e, wf_node e.2) (frontier st) → indexed st → settled st →
  route C t → heuristic_func t ≠ Inf →
  key t ∈ explored st
  ∨ ∃ f n, (f, n) ∈ frontier st ∧ ext_le f (ext_add (Fin C) (heuristic_func t)).
Proof.
  intros Hinj Hcons Hwf Hidx [Hinit Hexp].
  assert (∀ s b, can_reach s → waits st s b →
            key s ∈ explored st
            ∨ ∃ f n, (f, n) ∈ frontier st
                     ∧ ext_le f (ext_add (Fin b) (heuristic_func s))) as Hw.
  { intros s b Hs [?|(f & n & Hin & Hk & Hb)]; [by left|right]. exists f, n. split; [done|].
    destruct (Hidx f n Hin) as [-> _].
    assert (state n = s) as <-.
    { apply Hinj; [|done..]. apply wf_node_can_reach.
      rewrite Forall_forall in Hwf. by apply (Hwf (fval n, n)). }
    unfold _f. by apply ext_add_mono; [|apply ext_le_refl]. }
  induction 1 as [|C s acts a s' c Hroute IH Hacts Ha Hres]; intros Hfin.
  { apply Hw; [apply can_reach_init|done]. }
  pose proof (route_can_reach _ _ Hroute) as Hs.
  pose proof (Hcons _ _ _ _ _ Hs Hacts Ha Hres) as Hstep.
  assert (heuristic_func s ≠ Inf) as Hfs.
  { intros Hinf. rewrite Hinf in Hstep. by destruct (heuristic_func s'). }
  destruct (IH Hfs) as [Hin|(f & n & Hin & Hle)].
  - destruct (Hexp _ Hin) as (s0 & gk & Hs0 & Hk & _ & Hopt & Hsucc).
    assert (s0 = s) as -> by (by apply Hinj).
    specialize (Hopt Hfs C Hroute).
    destruct (Hw s' (gk + c)) as [?|(f & n & Hin' & Hle)];
      [by eapply can_reach_step|by eapply Hsucc|by left|].
    right. exists f, n. split; [done|]. eapply ext_le_trans; [exact Hle|].
    apply ext_add_mono; [simpl; lia|apply ext_le_refl].
  - right. exists f, n. split; [done|]. eapply ext_le_trans; [exact Hle|].
    eapply ext_le_trans; [apply ext_add_mono; [apply ext_le_refl|exact Hstep]|].
    rewrite <- ext_add_shift. simpl. apply ext_le_refl.
Qed.

(** With a consistent heuristic, at the head of every round: the initial
    state is explored or waits with cost 0; every explored state was popped
    with the least cost of a walk to it (when its estimate is finite), and
    its successors are explored or wait with no more than that cost plus
    the step. *)
Lemma reachable_settled m0 st :
  key_faithful → consistent_heuristic → reachable m0 st → settled st.
Proof.
  intros Hinj Hcons. induction 1 as [|st st' Hr [IHi IHe] Hne Hit].
  { split; [|by intros k ?%elem_of_empty]. right.
    exists (fval (Node_init (Action := Action) (get_initial_state problem) None None 0)),
      (Node_init (get_initial_state problem) None None 0).
    split_and!; [|done|cbn [g Node_init]; lia]. unfold a_star.init_search. cbn [frontier].
    rewrite heappush_perm. by left. }
  pose proof (reachable_consistent _ _ Hr) as Hc.
  pose proof (reachable_wf _ _ Hr) as Hwf.
  pose proof (reachable_indexed _ _ Hr) as Hidx.
  pose proof (reachable_heap _ _ Hr) as Hheap.
  apply iteration_Continue in Hit
    as (f & node & fr & acts & st1 & Hpop & _ & Hgoal & Hacts & Hh & Hfr & Hfs & Hex & _).
  pose proof (popped_consistent _ _ _ _ _ Hc Hpop Hfr Hfs Hex) as Hc1.
  pose proof (popped_indexed _ _ _ _ _ Hc Hidx Hpop Hfr Hfs) as Hidx1.
  destruct (handle_actions_waits _ _ _ _ Hc1 Hidx1 Hh) as [Hkeep Hnew].
  pose proof (handle_actions_explored _ _ _ _ Hh) as Hex'.
  pose proof (heappop_perm _ _ _ _ Hpop) as Hperm.
  assert (∀ s b, waits st s b → waits st' s b) as Hkeep0.
  { intros s b Hw. apply Hkeep. destruct Hw as [Hw|(f' & n' & Hin & Hk & Hb)].
    - left. rewrite Hex. set_solver.
    - rewrite Hperm in Hin. apply elem_of_cons in Hin as [[= -> ->]|Hin].
      + left. rewrite Hex, <- Hk. set_solver.
      + right. exists f', n'. by rewrite Hfr. }
  split; [by apply Hkeep0|].
  intros k Hk. rewrite Hex', Hex, elem_of_union, elem_of_singleton in Hk.
  destruct Hk as [->|Hk].
  - exists (state node), (g node).
    assert (wf_node node) as Hwfn by (by eapply popped_wf).
    split_and!; [by apply wf_node_can_reach|done..| |].
    + intros Hfin C Hroute.
      destruct (route_meets_frontier st C (state node)) as [Hin|(f' & n' & Hin & Hle)];
        [done..| |].
      * exfalso. destruct Hc as (_ & _ & Hnot). apply (Hnot (key (state node))); [|done].
        rewrite (heappop_keys _ _ _ _ Hpop). by left.
      * pose proof (popped_least _ _ _ _ Hheap Hpop f' n' Hin) as Hmin.
        destruct (Hidx f node) as [Hf _]; [rewrite Hperm; by left|].
        rewrite Hf in Hmin. unfold _f in Hmin.
        pose proof (ext_le_trans _ _ _ Hmin Hle) as Hfinal.
        destruct (heuristic_func (state node)); [simpl in Hfinal; lia|done].
    + intros acts' a s' c Hacts' Ha Hres.
      rewrite Hacts in Hacts'. injection Hacts' as <-. by eapply Hnew.
  - destruct (IHe k Hk) as (s & gk & Hs & Hks & Hg & Hopt & Hsucc).
    exists s, gk. split_and!; [done..|].
    intros acts' a s' c Hacts' Ha Hres. apply Hkeep0. by eapply Hsucc.
Qed.

(** The node a successful run ends on is reached by a walk of cost [g],
    and no walk to a goal state costs less. *)
Lemma run_Succeeded_cheapest m0 fuel node st' :
  key_faithful → consistent_heuristic → zero_at_goals →
  run fuel m0 = Done (Succeeded node) st' →
  route (g node) (state node)
  ∧ ∀ C t, route C t → goal_test problem t = true → g node ≤ C.
Proof.
  intros Hinj Hcons Hzero Hrun.
  destruct (run_Succeeded _ _ _ _ Hrun) as [Hwfn Hgoal].
  split; [by apply wf_node_route|]. intros C t Hroute Hgt.
  apply (search_loop_last m0) in Hrun as (st & Hr & Hend); [|apply reach_init].
  destruct Hend as [(_ & [=] & _)|[_ Hstop]].
  apply iteration_Stop in Hstop
    as (_ & _ & [([=] & _)|(f & n & fr & [= <-] & Hpop & _)]).
  pose proof (route_can_reach _ _ Hroute) as Ht.
  pose proof (Hzero _ Ht Hgt) as Hht.
  destruct (route_meets_frontier st C t) as [Hin|(f' & n' & Hin & Hle)];
    [done..|by eapply reachable_wf|by eapply reachable_indexed
    |by eapply reachable_settled|done|by rewrite Hht| |].
  - exfalso. destruct (reachable_settled _ _ Hinj Hcons Hr) as [_ Hexp].
    destruct (Hexp _ Hin) as (s & gk & Hs & Hk & Hg & _).
    assert (s = t) as -> by (by apply Hinj). congruence.
  - pose proof (popped_least _ _ _ _ (reachable_heap _ _ Hr) Hpop f' n' Hin) as Hmin.
    destruct (reachable_indexed _ _ Hr f node) as [Hf _].
    { rewrite (heappop_perm _ _ _ _ Hpop). by left. }
    rewrite Hf in Hmin. unfold _f in Hmin.
    rewrite (Hzero _ (wf_node_can_reach _ Hwfn) Hgoal) in Hmin. rewrite Hht in Hle.
    pose proof (ext_le_trans _ _ _ Hmin Hle) as Hfinal. simpl in Hfinal. lia.
Qed.

(** The returned actions cost what the node says. *)
Lemma actions_cost_snoc s acts path C t a s' c :
  apply_actions problem s acts = Some path →
  actions_cost problem s acts = Some C →
  last path = Some t →
  result problem t a = Some (s', c) →
  actions_cost problem s (acts ++ [a]) = Some (C + c).
Proof.
  revert s path C. induction acts as [|a0 acts IH]; intros s path C; simpl.
  - intros [= <-] [= <-] [= <-] ->. simpl. f_equal. lia.
  - destruct (result problem s a0) as [[s1 c1]|]; [|done].
    destruct (apply_actions problem s1 acts) as [path1|] eqn:H1; [|done].
    destruct (actions_cost problem s1 acts) as [C1|] eqn:H2; [|done].
    intros [= <-] [= <-] Hlast Hres.
    destruct (apply_actions_head _ _ _ H1) as [rest ->].
    rewrite (IH s1 (s1 :: rest) C1); [|done..]. f_equal. lia.
Qed.

Lemma _extract_solution_cost node :
  (∀ s acts a, actions problem s = Some acts → a ∈ acts → truthy a = true) →
  wf_node node →
  actions_cost problem (get_initial_state problem) (_extract_solution truthy node).2
  = Some (g node).
Proof.
  intros Htruthy Hwf.
  induction Hwf as [|p acts a s c Hp IH Hacts Ha Hres]; [done|].
  destruct (_extract_solution_replays p Htruthy Hp) as [Hreplay Hlast].
  revert IH Hreplay Hlast. unfold _extract_solution.
  cbn [walk_parents Node_init parent action state g].
  destruct (walk_parents truthy p) as [path pacts] eqn:Hwalk.
  rewrite (Htruthy _ _ _ Hacts Ha). cbn [fst snd rev].
  intros IH Hreplay Hlast. rewrite Z.add_comm. by eapply actions_cost_snoc.
Qed.

(** X23.  At the head of every round of the loop the tuple that [heappop]
    takes from the frontier has a least [f] of all tuples there; its [f] is
    the [_f] of its node, and the index holds the node's [g] and that [f]
    for its state. *)
Theorem expanded_node_has_least_f m0 st f node fr :
  reachable m0 st →
  heapq.heappop entry_lt (frontier st) = Some ((f, node), fr) →
  f = fval node
  ∧ frontier_states st !! key (state node) = Some (g node, f)
  ∧ ∀ f' n', (f', n') ∈ frontier st → ext_le f f'.
Proof.
  intros Hr Hpop.
  destruct (reachable_indexed _ _ Hr f node) as [Hf Hl].
  { rewrite (heappop_perm _ _ _ _ Hpop). by left. }
  split_and!; [done..|]. eapply popped_least; [|done]. by eapply reachable_heap.
Qed.

End AStarFacts.

(** ** What a caller of [solve] can rely on *)

Section SolveFacts.
Import a_star.
Context {State Action K : Type} `{Countable K}.
Variable key : State → K.
Variable truthy : Action → bool.
Variable problem : Problem (State := State) (Action := Action).
Variable clock : nat → Q.
Variable timeout_budget : Q.

Local Notation AStarSolver := (AStarSolver (State := State)).
Local Notation solve self fuel :=
  (solve key truthy self problem timeout_budget clock fuel).
Local Notation run self fuel :=
  (run key truthy (heuristic self) problem clock timeout_budget fuel (metrics self)).
Local Notation reachable self :=
  (reachable key truthy (heuristic self) problem clock timeout_budget (metrics self)).
Local Notation can_reach := (can_reach problem).
Local Notation never_raises := (never_raises problem).
Local Notation key_faithful := (key_faithful key problem).

Implicit Types (self : AStarSolver) (m : AStarMetrics).

(** The returned triple against the way the loop was left. *)
Lemma solve_Returned self fuel path acts m :
  solve self fuel = Returned path acts m →
  ∃ (ex : exit) st',
    run self fuel = Done ex st'
    ∧ m = self_metrics st'
    ∧ match ex with
      | Succeeded node =>
          path = Some (_extract_solution truthy node).1
          ∧ acts = Some (_extract_solution truthy node).2
      | _ => path = None ∧ acts = None
      end.
Proof.
  unfold a_star.solve, to_outcome.
  destruct (a_star.run _ _ _ _ _ _ _ _) as [[node| |] st'| |]; try done.
  - destruct (_extract_solution truthy node) as [p a] eqn:Hex.
    intros [= <- <- <-]. eexists _, _. split; [reflexivity|]. split; [reflexivity|].
    by rewrite Hex.
  - intros [= <- <- <-]. by eexists _, _.
  - intros [= <- <- <-]. by eexists _, _.
Qed.

Lemma run_not_TimedOut self fuel st' :
  (∀ n, Qgtb (clock n - clock 0)%Q timeout_budget = false) →
  run self fuel ≠ Done TimedOut st'.
Proof.
  intros Hclock (st_last & Hr & [(_ & [=] & _)|[_ Hstop]])%(search_loop_last _ _ _ _ _ _ (metrics self));
    [|apply reach_init].
  revert Hstop. unfold iteration, elapsed. rewrite Hclock.
  cbn [frontier frontier_states explored self_metrics branching_factors clock_reads
       with_metrics tick].
  destruct (heapq.heappop _ _) as [[[f node] fr]|]; [|done].
  destruct (frontier_states st_last !! _); [|done].
  destruct (goal_test problem (state node)).
  - by destruct (_extract_solution truthy node).
  - destruct (actions problem (state node)); [|done].
    by destruct (handle_actions _ _ _ _ _ _).
Qed.

(** X1.  On a solver whose two flags are off (a newly built one), the
    returned triple and the flags of the returned record tell the three
    ways of leaving the loop apart: a path and actions with [success] set
    and [timeout] not; nothing and neither flag when the frontier ran
    empty; nothing and [timeout] alone when the time ran out. *)
Theorem flags_tell_outcomes_apart self fuel path acts m :
  success (metrics self) = false → timeout (metrics self) = false →
  solve self fuel = Returned path acts m →
  ∃ (ex : exit) st',
    run self fuel = Done ex st'
    ∧ m = self_metrics st'
    ∧ match ex with
      | Succeeded node =>
          path = Some (_extract_solution truthy node).1
          ∧ acts = Some (_extract_solution truthy node).2
          ∧ success m = true ∧ timeout m = false
      | Exhausted =>
          path = None ∧ acts = None ∧ success m = false ∧ timeout m = false
      | TimedOut =>
          path = None ∧ acts = None ∧ success m = false ∧ timeout m = true
      end.
Proof.
  intros Hs Ht (ex & st' & Hrun & -> & Hex)%solve_Returned.
  exists ex, st'. split; [done|]. split; [done|].
  pose proof (run_flags _ _ _ _ _ _ _ _ _ _ Hs Ht Hrun) as Hflags.
  destruct ex; naive_solver.
Qed.


(** X3.  On a problem that does not raise and whose states have their
    keys in a finite set [U], [solve] returns: the loop goes round at most
    [size U] times, since every round that goes on explores a state that
    was not explored before. *)
Theorem solve_returns_on_finite_graph (U : gset K) self fuel :
  never_raises →
  (∀ s, can_reach s → key s ∈ U) →
  (size U ≤ fuel)%nat →
  ∃ path acts m, solve self fuel = Returned path acts m.
Proof.
  intros Hnr HU Hfuel. unfold a_star.solve, to_outcome.
  destruct (a_star.run _ _ _ _ _ _ _ _) as [[node| |] st'| |] eqn:Hrun.
  - destruct (_extract_solution truthy node). eauto.
  - eauto.
  - eauto.
  - exfalso. revert Hrun. apply search_loop_not_Raise with (m0 := metrics self); [done|].
    apply reach_init.
  - exfalso. revert Hrun.
    apply search_loop_enough_fuel with (U := U) (m0 := metrics self); [done| |lia].
    apply reach_init.
Qed.

(** X4.  Failure by exhaustion is conclusive.  On a problem whose states
    are told apart by their key, when a solver with both flags off returns
    no path and [timeout] is still off, no state that can be reached from
    the initial state through offered actions passes the goal test. *)
Theorem empty_frontier_means_no_goal self fuel m s :
  key_faithful →
  success (metrics self) = false → timeout (metrics self) = false →
  solve self fuel = Returned None None m →
  timeout m = false →
  can_reach s → goal_test problem s = false.
Proof.
  intros Hinj Hs Ht (ex & st' & Hrun & -> & Hex)%solve_Returned Htm.
  pose proof (run_flags _ _ _ _ _ _ _ _ _ _ Hs Ht Hrun) as Hflags.
  destruct ex as [node| |].
  - by destruct Hex.
  - by eapply run_Exhausted_no_goal.
  - destruct Hflags as [_ Hflags]. congruence.
Qed.

(** X5.  With a clock that never runs past the budget, on a problem that
    does not raise, whose states are told apart by their key and are
    finitely many, a solver with both flags off decides the problem:
    either it returns a path and actions with [success] set, or it returns
    nothing and no reachable state passes the goal test. *)
Theorem solve_decides_within_budget (U : gset K) self fuel :
  never_raises → key_faithful →
  (∀ s, can_reach s → key s ∈ U) →
  (size U ≤ fuel)%nat →
  (∀ n, Qgtb (clock n - clock 0)%Q timeout_budget = false) →
  success (metrics self) = false → timeout (metrics self) = false →
  (∃ path acts m,
     solve self fuel = Returned (Some path) (Some acts) m ∧ success m = true)
  ∨ (∃ m, solve self fuel = Returned None None m
          ∧ success m = false
          ∧ ∀ s, can_reach s → goal_test problem s = false).
Proof.
  intros Hnr Hinj HU Hfuel Hclock Hs Ht.
  pose proof (run_not_TimedOut self fuel) as Hnt.
  pose proof (run_flags key truthy (heuristic self) problem clock timeout_budget
                (metrics self) fuel) as Hflags.
  pose proof (run_Exhausted_no_goal key truthy (heuristic self) problem clock
                timeout_budget (metrics self) fuel) as Hno.
  unfold a_star.solve, to_outcome.
  destruct (a_star.run _ _ _ _ _ _ _ _) as [[node| |] st'| |] eqn:Hrun.
  - left. destruct (_extract_solution truthy node) as [p a].
    eexists _, _, _. split; [done|]. by destruct (Hflags _ _ Hs Ht eq_refl).
  - right. eexists. split; [done|]. split.
    + by destruct (Hflags _ _ Hs Ht eq_refl).
    + intros s Hcr. by eapply Hno.
  - exfalso. by eapply Hnt.
  - exfalso. revert Hrun. apply search_loop_not_Raise with (m0 := metrics self); [done|].
    apply reach_init.
  - exfalso. revert Hrun.
    apply search_loop_enough_fuel with (U := U) (m0 := metrics self); [done| |lia].
    apply reach_init.
Qed.

(** X6.  The average branching factor of a successful call, for a solver
    that had expanded nothing before: when only the initial node was
    popped, one node was generated and the average is left as it was;
    otherwise the average is the number of nodes generated after the
    initial one over the number of nodes expanded before the goal node. *)
Theorem average_branching_on_success self fuel path acts m :
  nodes_expanded (metrics self) = 0 →
  solve self fuel = Returned (Some path) (Some acts) m →
  (nodes_expanded m = 1 ∧ nodes_generated m = 1
   ∧ avg_branching_factor m = avg_branching_factor (metrics self))
  ∨ (1 < nodes_expanded m
     ∧ avg_branching_factor m
       = (inject_Z (nodes_generated m - 1) / inject_Z (nodes_expanded m - 1))%Q).
Proof.
  intros H0 (ex & st' & Hrun & -> & Hex)%solve_Returned.
  destruct ex as [node| |]; [|by destruct Hex..].
  apply (search_loop_last _ _ _ _ _ _ (metrics self)) in Hrun
    as (st_last & Hr & [(_ & [=] & _)|[_ Hstop]]); [|apply reach_init].
  destruct (reachable_tallied _ _ _ _ _ _ _ _ Hr) as (Hgen & Hlen & Havg & _).
  destruct (reachable_counted _ _ _ _ _ _ _ _ Hr) as [Hexp _]. rewrite H0 in Hexp.
  destruct (iteration_Stop_metrics _ _ _ _ _ _ _ _ _ Hstop) as (_ & Hgen' & _ & Havg' & _).
  apply iteration_Stop in Hstop
    as (_ & _ & [([=] & _)|(f & n & fr & _ & _ & _ & Hexp' & _)]).
  rewrite Hgen', Hexp', Havg', Hgen, Hexp, <- Hlen.
  destruct (branching_factors st_last) as [|x xs] eqn:Hbf.
  - left. by rewrite Havg.
  - right. split; [simpl; lia|]. unfold average. f_equal; f_equal; simpl length; lia.
Qed.

(** X7.  Whatever the solver was used for before, the record it returns
    has both maxima between 1 and [nodes_generated], and the expansions
    of this call do not exceed [nodes_generated] either. *)
Theorem maxima_bounded_by_generated self fuel path acts m :
  solve self fuel = Returned path acts m →
  1 ≤ max_frontier_size m ≤ nodes_generated m
  ∧ 1 ≤ max_memory_nodes m ≤ nodes_generated m
  ∧ nodes_expanded m - nodes_expanded (metrics self) ≤ nodes_generated m.
Proof.
  intros (ex & st' & Hrun & -> & _)%solve_Returned.
  apply (search_loop_last _ _ _ _ _ _ (metrics self)) in Hrun
    as (st_last & Hr & Hend); [|apply reach_init].
  destruct (reachable_bounded _ _ _ _ _ _ _ _ Hr) as (Hmfs1 & Hfr & Hmfs & Hmmn1 & Hmmn).
  destruct (reachable_counted _ _ _ _ _ _ _ _ Hr) as [Hexp Hgen].
  destruct Hend as [(_ & _ & _ & ->)|[Hne Hstop]]; [cbn; lia|].
  destruct (iteration_Stop_metrics _ _ _ _ _ _ _ _ _ Hstop) as (_ & -> & -> & Hrest).
  apply iteration_Stop in Hstop
    as (_ & _ & [(-> & _ & -> & _)|(f & n & fr & -> & Hpop & _ & -> & _)]).
  - destruct Hrest as (_ & _ & ->). lia.
  - destruct Hrest as (_ & ->).
    apply heappop_perm, Permutation_length in Hpop. simpl in Hpop. lia.
Qed.

(** X8.  The time-out check comes first in every round: when the second
    reading of the clock is already past the budget, [solve] returns
    nothing and sets [timeout], without popping or testing the initial
    state, be it a goal or not. *)
Theorem late_clock_fails_before_goal_test self fuel :
  Qgtb (clock 1 - clock 0)%Q timeout_budget = true →
  (1 ≤ fuel)%nat →
  ∃ m, solve self fuel = Returned None None m
       ∧ timeout m = true
       ∧ success m = success (metrics self)
       ∧ nodes_expanded m = nodes_expanded (metrics self)
       ∧ nodes_generated m = 1.
Proof.
  intros Hlate Hfuel. destruct fuel as [|fuel]; [lia|].
  unfold a_star.solve, a_star.run, search_loop.
  change (frontier (init_search key (heuristic self) problem (metrics self)))
    with [(_f (heuristic self)
             (Node_init (Action := Action) (get_initial_state problem) None None 0),
           Node_init (Action := Action) (get_initial_state problem) None None 0)].
  cbv beta iota. unfold iteration at 1, elapsed at 1.
  cbn [clock_reads init_search]. rewrite Hlate.
  cbn [to_outcome]. eexists. split; [reflexivity|]. by cbn.
Qed.

End SolveFacts.

(** ** The cost of what [solve] returns *)

Section OptimalSolve.
Import a_star.
Context {State Action K : Type} `{Countable K}.
Variable key : State → K.
Variable truthy : Action → bool.
Variable problem : Problem (State := State) (Action := Action).
Variable clock : nat → Q.
Variable timeout_budget : Q.

Local Notation AStarSolver := (AStarSolver (State := State)).
Local Notation solve self fuel :=
  (solve key truthy self problem timeout_budget clock fuel).

Implicit Types (self : AStarSolver) (m : AStarMetrics).


End OptimalSolve.

(** ** The engine on the puzzle *)

Section SokobanSearch.
Import a_star sokoban.

Lemma solve_Returned_Some (self : AStarSolver) pb timeout_budget clock fuel path acts m :
  solve_sokoban self pb timeout_budget clock fuel = Returned (Some path) (Some acts) m →
  ∃ node st',
    run state_key truthy (heuristic self) (as_problem pb) clock timeout_budget fuel
      (metrics self) = Done (Succeeded node) st'
    ∧ _extract_solution truthy node = (path, acts)
    ∧ m = self_metrics st'.
Proof.
  unfold solve_sokoban, solve, to_outcome.
  destruct (run _ _ _ _ _ _ _ _) as [[node| |] st'| |] eqn:Hrun; try done.
  destruct (_extract_solution truthy node) as [p a] eqn:Hex.
  intros [= <- <- <-]. eauto.
Qed.

(** C1.  When [solve] returns a path and actions for a puzzle instance, the
    actions applied in order from the initial state with [result] never
    fail, the states they pass through are the returned path, beginning
    with the initial state, and the last of them passes the goal test: its
    boxes are the goals. *)
Theorem returned_actions_reach_goal (self : AStarSolver) pb timeout_budget clock fuel
    path acts m :
  solve_sokoban self pb timeout_budget clock fuel = Returned (Some path) (Some acts) m →
  apply_actions (as_problem pb) (get_initial_state pb) acts = Some path
  ∧ head path = Some (get_initial_state pb)
  ∧ ∃ final, last path = Some final
             ∧ goal_test final = true
             ∧ boxes final = goals final.
Proof.
  intros (node & st' & Hrun & Hex & _)%solve_Returned_Some.
  apply run_Succeeded in Hrun as [Hwf Hgoal].
  destruct (_extract_solution_replays truthy (as_problem pb) node) as [Hreplay Hlast].
  { intros s l a. apply actions_truthy. }
  { done. }
  rewrite Hex in Hreplay, Hlast. cbn [fst snd] in *.
  split; [done|]. split.
  - destruct (apply_actions_head _ _ _ _ Hreplay) as [rest ->]. done.
  - exists (state node). split_and!; [done..|].
    by apply bool_decide_eq_true in Hgoal.
Qed.

Lemma returned_actions_reach_goal_witness :
  ∃ path,
    apply_actions (as_problem (SokobanProblem_init LEVEL_1))
      (get_initial_state (SokobanProblem_init LEVEL_1)) ["RIGHT"%string] = Some path.
Proof.
  assert (∃ path m,
            solve_sokoban (AStarSolver_init (manhattan_for (SokobanProblem_init LEVEL_1)))
              (SokobanProblem_init LEVEL_1) 30 still_clock 10
            = Returned (Some path) (Some ["RIGHT"%string]) m) as (path & m & Hsolve).
  { vm_compute. eauto. }
  exists path. exact (proj1 (returned_actions_reach_goal _ _ _ _ _ _ _ _ Hsolve)).
Defined.

(** C2, refuted as stated: on [LEVEL_1] a new solver pops two nodes, the
    start and the goal, and counts both, but only the start is moved to
    the explored set. *)
Lemma goal_node_is_counted_not_explored :
  ∃ node st',
    run state_key truthy (manhattan_for (SokobanProblem_init LEVEL_1))
      (as_problem (SokobanProblem_init LEVEL_1)) still_clock 30 10 AStarMetrics_default
    = Done (Succeeded node) st'
    ∧ nodes_expanded (self_metrics st') = 2
    ∧ nodes_generated (self_metrics st') = 2
    ∧ size (explored st') = 1%nat.
Proof.
  assert (match run state_key truthy (manhattan_for (SokobanProblem_init LEVEL_1))
                  (as_problem (SokobanProblem_init LEVEL_1)) still_clock 30 10
                  AStarMetrics_default with
          | Done (Succeeded _) st' =>
              nodes_expanded (self_metrics st') = 2
              ∧ nodes_generated (self_metrics st') = 2
              ∧ size (explored st') = 1%nat
          | _ => False
          end) as Hm by (vm_compute; by split_and!).
  destruct (run _ _ _ _ _ _ _ _) as [[node| |] st'| |]; [|exact (False_ind _ Hm)..].
  exists node, st'. split; [reflexivity|exact Hm].
Qed.

Lemma expansions_count_popped_nodes_witness :
  ∃ (ex : exit) st',
    run state_key truthy (count_for (SokobanProblem_init corridor_level))
      (as_problem (SokobanProblem_init corridor_level)) still_clock 30 10
      AStarMetrics_default = Done ex st'
    ∧ nodes_expanded (self_metrics st') ≤ nodes_generated (self_metrics st').
Proof.
  assert (match run state_key truthy (count_for (SokobanProblem_init corridor_level))
                  (as_problem (SokobanProblem_init corridor_level)) still_clock 30 10
                  AStarMetrics_default with
          | Done _ _ => True
          | _ => False
          end) as Hdone by (by vm_compute).
  destruct (run _ _ _ _ _ _ _ _) as [ex st'| |] eqn:Hrun; [|exact (False_ind _ Hdone)..].
  exists ex, st'. split; [reflexivity|].
  exact (proj1 (expansions_count_popped_nodes _ _ _ _ _ _ AStarMetrics_default
                  _ _ _ eq_refl Hrun)).
Defined.

Lemma successor_replaces_skips_or_inserts_witness :
  let pb := SokobanProblem_init LEVEL_1 in
  let st := init_search state_key (manhattan_for pb) (as_problem pb) AStarMetrics_default in
  let root := Node_init (get_initial_state pb) None None 0 in
  ∃ st', handle_action state_key (manhattan_for pb) (as_problem pb) root st "RIGHT"
         = Some st'
         ∧ explored st' = explored st.
Proof.
  intros pb st root.
  assert (∃ child, a_star.result (as_problem pb) (state root) "RIGHT" = Some (child, 1))
    as [child Hres].
  { vm_compute. eauto. }
  destruct (successor_replaces_skips_or_inserts state_key (manhattan_for pb) (as_problem pb)
              root st "RIGHT" child 1) as (st' & Hst' & Hex & _).
  - apply init_search_consistent.
  - exact Hres.
  - apply not_elem_of_empty.
  - exists st'. by split.
Defined.

Lemma explored_states_stay_closed_witness :
  let pb := SokobanProblem_init LEVEL_1 in
  let st := init_search state_key (manhattan_for pb) (as_problem pb) AStarMetrics_default in
  Forall (λ e, entry_key state_key e ∉ explored st) (frontier st).
Proof.
  intros pb st. apply Forall_forall.
  exact (proj1 (explored_states_stay_closed state_key truthy (manhattan_for pb)
                  (as_problem pb) still_clock 30 AStarMetrics_default st
                  (reach_init _ _ _ _ _ _ _))).
Defined.

(** C4: the same solver object on [LEVEL_1] twice.  Both calls return the
    same path and the single action RIGHT and set [nodes_generated] to 2,
    but the second call starts from the metrics record the first one left
    and adds its two expansions to it: [nodes_expanded] is 2 after the
    first call and 4 after the second. *)
Theorem second_call_accumulates_expansions :
  let pb := SokobanProblem_init LEVEL_1 in
  let solver := AStarSolver_init (manhattan_for pb) in
  ∃ path m1 m2,
    solve_sokoban solver pb 30 still_clock 10
    = Returned (Some path) (Some ["RIGHT"%string]) m1
    ∧ solve_sokoban (after_call solver m1) pb 30 still_clock 10
      = Returned (Some path) (Some ["RIGHT"%string]) m2
    ∧ nodes_generated m1 = 2 ∧ nodes_generated m2 = 2
    ∧ nodes_expanded m1 = 2 ∧ nodes_expanded m2 = 4.
Proof.
  intros pb solver.
  assert (match solve_sokoban solver pb 30 still_clock 10 with
          | Returned (Some path1) (Some acts1) m1 =>
              match solve_sokoban (after_call solver m1) pb 30 still_clock 10 with
              | Returned (Some path2) (Some acts2) m2 =>
                  path2 = path1 ∧ acts2 = ["RIGHT"%string] ∧ acts1 = ["RIGHT"%string]
                  ∧ nodes_generated m1 = 2 ∧ nodes_generated m2 = 2
                  ∧ nodes_expanded m1 = 2 ∧ nodes_expanded m2 = 4
              | _ => False
              end
          | _ => False
          end) as Hm by (vm_compute; by split_and!).
  destruct (solve_sokoban solver pb 30 still_clock 10) as [[path1|] [acts1|] m1| |];
    [|exact (False_ind _ Hm)..].
  exists path1, m1.
  destruct (solve_sokoban (after_call solver m1) pb 30 still_clock 10)
    as [[path2|] [acts2|] m2| |]; [|exact (False_ind _ Hm)..].
  destruct Hm as (-> & -> & -> & Hcounts).
  exists m2. split; [reflexivity|]. split; [reflexivity|]. exact Hcounts.
Qed.

(** C5: a new solver on the corridor level.  The search ends with an empty
    frontier after two expansions that offered one action each, so the
    average branching factor is 1, but the returned record still holds the
    default 0: the average is only computed where [solve] returns a
    solution. *)
Theorem average_not_computed_on_failure :
  let pb := SokobanProblem_init corridor_level in
  ∃ st',
    run state_key truthy (count_for pb) (as_problem pb) still_clock 30 10
      AStarMetrics_default = Done Exhausted st'
    ∧ solve_sokoban (AStarSolver_init (count_for pb)) pb 30 still_clock 10
      = Returned None None (self_metrics st')
    ∧ branching_factors st' = [1; 1]
    ∧ (average (branching_factors st') == 1)%Q
    ∧ avg_branching_factor (self_metrics st') = 0%Q.
Proof.
  intros pb. unfold solve_sokoban, solve, to_outcome. cbn [heuristic metrics AStarSolver_init].
  assert (match run state_key truthy (count_for pb) (as_problem pb) still_clock 30 10
                  AStarMetrics_default with
          | Done Exhausted st' =>
              branching_factors st' = [1; 1]
              ∧ (average (branching_factors st') == 1)%Q
              ∧ avg_branching_factor (self_metrics st') = 0%Q
          | _ => False
          end) as Hm by (vm_compute; by split_and!).
  destruct (run state_key truthy (count_for pb) (as_problem pb) still_clock 30 10
              AStarMetrics_default) as [[node| |] st'| |];
    [exact (False_ind _ Hm)| |exact (False_ind _ Hm)..].
  exists st'. split; [reflexivity|]. split; [reflexivity|]. exact Hm.
Qed.

(** C9: the same solver object on the corridor level, first with a budget
    of 0 seconds, then with 30.  The first call times out.  The second
    empties the frontier, yet it returns [timeout = True], left over from
    the first call: the two failures can no longer be told apart.  And
    after a call that succeeded on [LEVEL_1], the same solver fails on the
    corridor level with [success = True]. *)
Theorem flags_survive_into_next_call :
  let pb := SokobanProblem_init corridor_level in
  let solver := AStarSolver_init (count_for pb) in
  (∃ m1 st2,
     solve_sokoban solver pb 0 ticking_clock 10 = Returned None None m1
     ∧ timeout m1 = true
     ∧ run state_key truthy (count_for pb) (as_problem pb) ticking_clock 30 10 m1
       = Done Exhausted st2
     ∧ solve_sokoban (after_call solver m1) pb 30 ticking_clock 10
       = Returned None None (self_metrics st2)
     ∧ timeout (self_metrics st2) = true
     ∧ success (self_metrics st2) = false)
  ∧ (∃ path acts m1 m2,
       solve_sokoban solver (SokobanProblem_init LEVEL_1) 30 still_clock 10
       = Returned (Some path) (Some acts) m1
       ∧ solve_sokoban (after_call solver m1) pb 30 still_clock 10 = Returned None None m2
       ∧ success m2 = true ∧ timeout m2 = false).
Proof.
  intros pb solver. split.
  - assert (match solve_sokoban solver pb 0 ticking_clock 10 with
            | Returned None None m1 =>
                timeout m1 = true
                ∧ match run state_key truthy (count_for pb) (as_problem pb)
                          ticking_clock 30 10 m1 with
                  | Done Exhausted st2 =>
                      timeout (self_metrics st2) = true
                      ∧ success (self_metrics st2) = false
                  | _ => False
                  end
            | _ => False
            end) as Hm by (vm_compute; by split_and!).
    destruct (solve_sokoban solver pb 0 ticking_clock 10) as [[path1|] [acts1|] m1| |];
      [exact (False_ind _ Hm)..| |exact (False_ind _ Hm)|exact (False_ind _ Hm)].
    destruct Hm as [Ht Hm]. exists m1.
    subst solver. unfold solve_sokoban, solve, to_outcome.
    cbn [heuristic metrics after_call AStarSolver_init].
    destruct (run state_key truthy (count_for pb) (as_problem pb) ticking_clock 30 10 m1)
      as [[node| |] st2| |]; [exact (False_ind _ Hm)| |exact (False_ind _ Hm)..].
    exists st2. split; [reflexivity|]. split; [exact Ht|].
    split; [reflexivity|]. split; [reflexivity|]. exact Hm.
  - assert (match solve_sokoban solver (SokobanProblem_init LEVEL_1) 30 still_clock 10 with
            | Returned (Some _) (Some _) m1 =>
                match solve_sokoban (after_call solver m1) pb 30 still_clock 10 with
                | Returned None None m2 => success m2 = true ∧ timeout m2 = false
                | _ => False
                end
            | _ => False
            end) as Hm by (vm_compute; by split_and!).
    destruct (solve_sokoban solver (SokobanProblem_init LEVEL_1) 30 still_clock 10)
      as [[path1|] [acts1|] m1| |]; [|exact (False_ind _ Hm)..].
    exists path1, acts1, m1.
    destruct (solve_sokoban (after_call solver m1) pb 30 still_clock 10)
      as [[path2|] [acts2|] m2| |];
      [exact (False_ind _ Hm)..| |exact (False_ind _ Hm)|exact (False_ind _ Hm)].
    exists m2. split; [reflexivity|]. split; [reflexivity|]. exact Hm.
Qed.

End SokobanSearch.

(** ** What a caller of [solve] gets on a puzzle *)

Section SokobanSolve.
Import a_star sokoban.

Implicit Types (self : AStarSolver (State := SokobanState)) (pb : SokobanProblem).

Lemma parsed_player level_str :
  player (initial_state (SokobanProblem_init level_str)) = p_player (_parse_level level_str).
Proof. done. Qed.


(** X14.  Without a player in the level text, [solve] raises in its first
    round, when it asks for the actions of the initial state; unless the
    boxes are already the goals, or the clock is past the budget at the
    first check. *)
Theorem playerless_level_raises_in_solve self level_str timeout_budget (clock : nat → Q)
    fuel :
  p_player (_parse_level level_str) = None →
  p_boxes (_parse_level level_str) ≠ p_goals (_parse_level level_str) →
  Qgtb (clock 1%nat - clock 0%nat)%Q timeout_budget = false →
  (1 ≤ fuel)%nat →
  solve_sokoban self (SokobanProblem_init level_str) timeout_budget clock fuel = Raises.
Proof.
  intros Hp Hng Hclock Hfuel. destruct fuel as [|fuel]; [lia|].
  unfold solve_sokoban, solve.
  rewrite first_round_raises; [done..| |].
  - apply bool_decide_eq_false. exact Hng.
  - change (actions (initial_state (SokobanProblem_init level_str)) = None).
    unfold actions. by rewrite parsed_player, Hp.
Qed.

(** X15.  Failure by exhaustion is conclusive on a puzzle: when a solver
    with both flags off returns no path and [timeout] is still off, no
    state that offered actions lead to from the initial state has its boxes
    on the goals. *)
Theorem sokoban_failure_means_unsolvable self pb timeout_budget (clock : nat → Q) fuel m s :
  success (metrics self) = false → timeout (metrics self) = false →
  solve_sokoban self pb timeout_budget clock fuel = Returned None None m →
  timeout m = false →
  sokoban_reach pb s → boxes s ≠ goals s.
Proof.
  intros Hs Ht Hsolve Htm Hreach.
  assert (a_star.goal_test (as_problem pb) s = false) as Hg; [|by apply bool_decide_eq_false in Hg].
  unfold solve_sokoban, solve, to_outcome in Hsolve.
  destruct (run _ _ _ _ _ _ _ _) as [[node| |] st'| |] eqn:Hrun; try done.
  - by destruct (_extract_solution truthy node).
  - injection Hsolve as <-.
    eapply run_Exhausted_no_goal; [|done..]. apply as_problem_key_faithful.
  - injection Hsolve as <-.
    pose proof (run_flags _ _ _ _ _ _ _ _ _ _ Hs Ht Hrun) as [_ Hflag]. congruence.
Qed.

(** X16.  Every state on a returned path is a state of the level: same
    walls, same goals, as many boxes, none of them in a wall, and the
    player neither in a wall nor on a box.  The path has one state more
    than there are actions, and [solution_length] is the number of
    actions. *)
Theorem returned_path_states_are_legal self level_str timeout_budget (clock : nat → Q) fuel
    path acts m :
  solve_sokoban self (SokobanProblem_init level_str) timeout_budget clock fuel
  = Returned (Some path) (Some acts) m →
  Forall (λ s, well_placed s
               ∧ walls s = self_walls (SokobanProblem_init level_str)
               ∧ goals s = self_goals (SokobanProblem_init level_str)
               ∧ size (boxes s) = size (self_boxes (SokobanProblem_init level_str)))
         path
  ∧ length path = S (length acts)
  ∧ solution_length m = Z.of_nat (length acts).
Proof.
  intros (node & st' & Hrun & Hex & ->)%solve_Returned_Some.
  pose proof (run_Succeeded_solution _ _ _ _ _ _ _ _ _ _ Hrun) as Hlen.
  apply run_Succeeded in Hrun as [Hwf Hgoal].
  pose proof (wf_node_path_can_reach truthy _ _ Hwf) as Hpath.
  destruct (_extract_solution_replays truthy (as_problem (SokobanProblem_init level_str)) node)
    as [Hreplay _]; [intros s l a; apply actions_truthy|done|].
  rewrite Hex in Hlen, Hpath, Hreplay. cbn [fst snd] in *.
  split_and!; [|by eapply apply_actions_length|done].
  eapply Forall_impl; [exact Hpath|].
  intros s (Hw & Hg & Hn & Hwp & _)%sokoban_reach_keeps.
  split_and!; [|done..]. apply Hwp, initial_state_well_placed.
Qed.

(** X22.  The greedy matching is not admissible: on a state with two
    boxes and two goals it returns 8 for one order of running through the
    boxes, while six offered actions lead to a state whose boxes are on the
    goals. *)
Theorem greedy_matching_can_overestimate :
  ∃ (iter : gset pos → list pos) t,
    (∀ X, NoDup (iter X)) ∧ (∀ X x, x ∈ iter X ↔ x ∈ X)
    ∧ walk (as_problem detour_problem) detour_state 6 t
    ∧ is_goal t = true
    ∧ heuristics.minimum_matching_heuristic iter detour_state (goals detour_state) = Fin 8.
Proof.
  assert (match follow (as_problem detour_problem) detour_state
                  ["DOWN"; "RIGHT"; "DOWN"; "RIGHT"; "RIGHT"; "RIGHT"]%string with
          | Some t => is_goal t = true
          | None => False
          end) as Hm by (by vm_compute).
  destruct (follow _ _ _) as [t|] eqn:Hfollow; [|exact (False_ind _ Hm)].
  apply follow_walk in Hfollow. cbn [length] in Hfollow.
  assert (heuristics.minimum_matching_heuristic elements detour_state (goals detour_state)
          = Fin 8
          ∨ heuristics.minimum_matching_heuristic (λ X, reverse (elements X)) detour_state
              (goals detour_state) = Fin 8) as [H8|H8].
  { vm_compute. first [by left|by right]. }
  - exists elements, t. split_and!; [apply NoDup_elements|apply elem_of_elements|done..].
  - exists (λ X, reverse (elements X)), t. split_and!; [| |done..].
    + intros X. rewrite reverse_Permutation. apply NoDup_elements.
    + intros X x. by rewrite elem_of_reverse, elem_of_elements.
Qed.

End SokobanSolve.

(** ** The length of a returned solution *)

Section SokobanShortest.
Import a_star sokoban.

Implicit Types (self : AStarSolver (State := SokobanState)) (pb : SokobanProblem).

Lemma result_cost s act s' c : result s act = Some (s', c) → c = 1.
Proof.
  unfold result. destruct (dir_map act) as [[dr dc]|]; [|done].
  destruct (player s); [|done]. by intros [= _ <-].
Qed.

(** Every step costs 1: the cost of a list of actions is its length, and a
    walk of [n] steps costs [n]. *)
Lemma sokoban_actions_cost pb s acts C :
  actions_cost (as_problem pb) s acts = Some C → C = Z.of_nat (length acts).
Proof.
  revert s C. induction acts as [|a acts IH]; intros s C; simpl; [by intros [= <-]|].
  destruct (result s a) as [[s' c]|] eqn:Hres; [|done].
  destruct (actions_cost (as_problem pb) s' acts) as [C'|] eqn:Hrest; [|done].
  intros [= <-]. rewrite (IH _ _ Hrest), (result_cost _ _ _ _ Hres). lia.
Qed.

Lemma walk_route pb C s n t :
  route (as_problem pb) C s → walk (as_problem pb) s n t →
  route (as_problem pb) (C + Z.of_nat n) t.
Proof.
  intros Hroute Hwalk. revert C Hroute.
  induction Hwalk as [s|s acts a s' c n t Ha Hin Hres Hwalk IH]; intros C Hroute.
  - by rewrite Z.add_0_r.
  - replace (C + Z.of_nat (S n)) with (C + c + Z.of_nat n).
    + apply IH. by eapply route_step.
    + rewrite (result_cost _ _ _ _ Hres). lia.
Qed.

(** The sum of distances and the count, taken for the goals of the
    instance, are consistent and 0 at the goal states. *)
Lemma sokoban_estimates_fit (iter : gset pos → list pos) pb (h : SokobanState → ext) :
  (∀ X, NoDup (iter X)) → (∀ X x, x ∈ iter X ↔ x ∈ X) →
  (∀ s, h s = heuristics.manhattan_heuristic iter s (goals (initial_state pb)))
  ∨ (∀ s, h s = heuristics.simple_count_heuristic iter s (goals (initial_state pb))) →
  consistent_heuristic h (as_problem pb) ∧ zero_at_goals h (as_problem pb).
Proof.
  intros Hnd Hel Hh. split.
  - intros s acts a s' c _ Ha Hin Hres.
    rewrite (result_cost _ _ _ _ Hres).
    destruct (estimates_step iter Hnd Hel s acts a s' c (goals (initial_state pb))
                Ha Hin Hres) as [Hm Hc].
    destruct Hh as [Hh|Hh]; by rewrite !Hh.
  - intros s (_ & Hgoals & _)%sokoban_reach_keeps Hg.
    apply bool_decide_eq_true in Hg.
    assert (boxes s ⊆ goals (initial_state pb)) as Hsub by (by rewrite <- Hgoals, Hg).
    destruct Hh as [Hh|Hh]; rewrite Hh.
    + by apply manhattan_heuristic_zero.
    + by apply simple_count_heuristic_zero.
Qed.

(** X25.  With the sum of distances or the count as the heuristic, taken
    for the goals of the instance, a returned solution is a shortest one:
    no walk from the initial state to a state whose boxes are on the goals
    has fewer steps than there are returned actions, and [solution_length]
    is that number. *)
Theorem sokoban_solution_is_shortest (iter : gset pos → list pos) self pb timeout_budget
    (clock : nat → Q) fuel path acts m n t :
  (∀ X, NoDup (iter X)) → (∀ X x, x ∈ iter X ↔ x ∈ X) →
  (∀ s, heuristic self s
        = heuristics.manhattan_heuristic iter s (goals (initial_state pb)))
  ∨ (∀ s, heuristic self s
          = heuristics.simple_count_heuristic iter s (goals (initial_state pb))) →
  solve_sokoban self pb timeout_budget clock fuel = Returned (Some path) (Some acts) m →
  walk (as_problem pb) (get_initial_state pb) n t →
  is_goal t = true →
  (length acts ≤ n)%nat ∧ solution_length m = Z.of_nat (length acts).
Proof.
  intros Hnd Hel Hh (node & st' & Hrun & Hex & ->)%solve_Returned_Some Hwalk Hgoal.
  destruct (sokoban_estimates_fit iter pb (heuristic self) Hnd Hel Hh) as [Hcons Hzero].
  pose proof (run_Succeeded_solution _ _ _ _ _ _ _ _ _ _ Hrun) as Hlen.
  destruct (run_Succeeded _ _ _ _ _ _ _ _ _ _ Hrun) as [Hwf _].
  assert (actions_cost (as_problem pb) (get_initial_state pb)
            (_extract_solution truthy node).2 = Some (g node)) as Hcost.
  { apply _extract_solution_cost; [|done]. intros s l a. apply actions_truthy. }
  apply run_Succeeded_cheapest in Hrun as [_ Hbest];
    [|apply as_problem_key_faithful|done..].
  rewrite Hex in Hlen, Hcost. cbn [snd] in Hlen, Hcost.
  apply sokoban_actions_cost in Hcost.
  specialize (Hbest (0 + Z.of_nat n) t (walk_route pb 0 _ n t (route_init _) Hwalk) Hgoal).
  split; [lia|done].
Qed.

End SokobanShortest.

(** ** The properties at work on the self-test and on example levels *)

Section Examples.
Import a_star sokoban.

Lemma TestProblem_never_raises : never_raises TestProblem.
Proof.
  intros s _. eexists. split; [reflexivity|]. intros a _. by eexists.
Qed.

Lemma TestProblem_states s :
  can_reach TestProblem s → id s ∈ ({["start"; "goal"]} : gset string)%string.
Proof.
  induction 1 as [|s acts a s' c _ _ _ _ Hres].
  - cbn. set_solver.
  - cbn in Hres. injection Hres as <- <-. set_solver.
Qed.

Lemma TestProblem_key_faithful : key_faithful id TestProblem.
Proof. by intros s1 s2 _ _. Qed.

Lemma still_clock_in_time n : Qgtb (still_clock n - still_clock 0)%Q 30 = false.
Proof. done. Qed.

Lemma blank_two : Forall (λ c, isspace c = true) (str "  ").
Proof. by repeat constructor. Qed.

Lemma elements_valid :
  (∀ X : gset pos, NoDup (elements X)) ∧ (∀ (X : gset pos) x, x ∈ elements X ↔ x ∈ X).
Proof. split; [apply NoDup_elements|apply elem_of_elements]. Qed.

Lemma reverse_elements_valid :
  (∀ X : gset pos, NoDup (reverse (elements X)))
  ∧ (∀ (X : gset pos) x, x ∈ reverse (elements X) ↔ x ∈ X).
Proof.
  split.
  - intros X. rewrite reverse_Permutation. apply NoDup_elements.
  - intros X x. by rewrite elem_of_reverse, elem_of_elements.
Qed.

Lemma flags_tell_outcomes_apart_witness :
  ∃ (ex : exit) st',
    run id truthy simple_heuristic TestProblem still_clock 30 5 AStarMetrics_default
    = Done ex st'.
Proof.
  assert (match test_a_star still_clock 5 with
          | Returned _ _ _ => True
          | _ => False
          end) as Hm by (by vm_compute).
  destruct (test_a_star still_clock 5) as [path acts m| |] eqn:Hsolve;
    [|exact (False_ind _ Hm)..].
  destruct (flags_tell_outcomes_apart id truthy TestProblem still_clock 30
              (AStarSolver_init simple_heuristic) 5 path acts m eq_refl eq_refl Hsolve)
    as (ex & st' & Hrun & _).
  exists ex, st'. exact Hrun.
Defined.


Lemma solve_returns_on_finite_graph_witness :
  ∃ path acts m, test_a_star ticking_clock 2 = Returned path acts m.
Proof.
  apply (solve_returns_on_finite_graph id truthy TestProblem ticking_clock 30
           {["start"; "goal"]}%string (AStarSolver_init simple_heuristic) 2
           TestProblem_never_raises TestProblem_states).
  vm_compute. lia.
Defined.

Lemma empty_frontier_means_no_goal_witness :
  let pb := SokobanProblem_init corridor_level in
  a_star.goal_test (as_problem pb) (a_star.get_initial_state (as_problem pb)) = false.
Proof.
  intros pb.
  assert (match solve_sokoban (AStarSolver_init (count_for pb)) pb 30 still_clock 10 with
          | Returned None None m => timeout m = false
          | _ => False
          end) as Hm by (by vm_compute).
  destruct (solve_sokoban (AStarSolver_init (count_for pb)) pb 30 still_clock 10)
    as [[path|] [acts|] m| |] eqn:Hsolve;
    [exact (False_ind _ Hm)..| |exact (False_ind _ Hm)|exact (False_ind _ Hm)].
  exact (empty_frontier_means_no_goal state_key truthy (as_problem pb) still_clock 30
           (AStarSolver_init (count_for pb)) 10 m _
           (as_problem_key_faithful pb) eq_refl eq_refl Hsolve Hm
           (can_reach_init (as_problem pb))).
Defined.

Lemma solve_decides_within_budget_witness :
  (∃ path acts m,
     test_a_star still_clock 2 = Returned (Some path) (Some acts) m ∧ success m = true)
  ∨ (∃ m, test_a_star still_clock 2 = Returned None None m
          ∧ success m = false
          ∧ ∀ s, can_reach TestProblem s → a_star.goal_test TestProblem s = false).
Proof.
  apply (solve_decides_within_budget id truthy TestProblem still_clock 30
           {["start"; "goal"]}%string (AStarSolver_init simple_heuristic) 2
           TestProblem_never_raises TestProblem_key_faithful TestProblem_states).
  - vm_compute. lia.
  - exact still_clock_in_time.
  - reflexivity.
  - reflexivity.
Defined.

Lemma average_branching_on_success_witness :
  ∃ path acts m,
    test_a_star still_clock 5 = Returned (Some path) (Some acts) m
    ∧ (nodes_expanded m = 1 ∧ nodes_generated m = 1
       ∧ avg_branching_factor m = avg_branching_factor AStarMetrics_default
       ∨ 1 < nodes_expanded m
         ∧ avg_branching_factor m
           = (inject_Z (nodes_generated m - 1) / inject_Z (nodes_expanded m - 1))%Q).
Proof.
  assert (match test_a_star still_clock 5 with
          | Returned (Some _) (Some _) _ => True
          | _ => False
          end) as Hm by (by vm_compute).
  destruct (test_a_star still_clock 5) as [[path|] [acts|] m| |] eqn:Hsolve;
    [|exact (False_ind _ Hm)..].
  exists path, acts, m. split; [reflexivity|].
  exact (average_branching_on_success id truthy TestProblem still_clock 30
           (AStarSolver_init simple_heuristic) 5 path acts m eq_refl Hsolve).
Defined.

Lemma maxima_bounded_by_generated_witness :
  ∃ path acts m,
    test_a_star still_clock 5 = Returned path acts m
    ∧ 1 ≤ max_frontier_size m ≤ nodes_generated m.
Proof.
  assert (match test_a_star still_clock 5 with
          | Returned _ _ _ => True
          | _ => False
          end) as Hm by (by vm_compute).
  destruct (test_a_star still_clock 5) as [path acts m| |] eqn:Hsolve;
    [|exact (False_ind _ Hm)..].
  exists path, acts, m. split; [reflexivity|].
  exact (proj1 (maxima_bounded_by_generated id truthy TestProblem still_clock 30
                  (AStarSolver_init simple_heuristic) 5 path acts m Hsolve)).
Defined.

Lemma late_clock_fails_before_goal_test_witness :
  ∃ m, solve id truthy (AStarSolver_init simple_heuristic) TestProblem 0 ticking_clock 1
       = Returned None None m
       ∧ timeout m = true.
Proof.
  destruct (late_clock_fails_before_goal_test id truthy TestProblem ticking_clock 0
              (AStarSolver_init simple_heuristic) 1) as (m & Hsolve & Ht & _).
  - by vm_compute.
  - lia.
  - exists m. by split.
Defined.

Lemma parse_ignores_outer_whitespace_witness :
  _parse_level (str "  " ++ LEVEL_1 ++ str "  ") = _parse_level LEVEL_1.
Proof. exact (parse_ignores_outer_whitespace _ LEVEL_1 _ blank_two blank_two). Defined.

Lemma result_moves_player_one_step_witness :
  ∃ s' c, result (get_initial_state (SokobanProblem_init LEVEL_1)) "RIGHT" = Some (s', c)
          ∧ c = 1.
Proof.
  assert (match result (get_initial_state (SokobanProblem_init LEVEL_1)) "RIGHT" with
          | Some _ => True
          | None => False
          end) as Hm by (by vm_compute).
  destruct (result (get_initial_state (SokobanProblem_init LEVEL_1)) "RIGHT")
    as [[s' c]|] eqn:Hres; [|exact (False_ind _ Hm)].
  exists s', c. split; [reflexivity|].
  exact (proj1 (result_moves_player_one_step _ _ _ _ Hres)).
Defined.

Lemma plain_move_can_be_undone_witness :
  let s := get_initial_state (SokobanProblem_init corridor_level) in
  ∃ s' acts' back,
    result s "RIGHT" = Some (s', 1)
    ∧ actions s' = Some acts' ∧ back ∈ acts' ∧ result s' back = Some (s, 1).
Proof.
  intros s.
  assert (actions s = Some ["RIGHT"%string]) as Hacts by (by vm_compute).
  assert (match result s "RIGHT" with
          | Some (s', c) => c = 1 ∧ bool_decide (boxes s' = boxes s) = true
          | None => False
          end) as Hm by (by vm_compute).
  destruct (result s "RIGHT") as [[s' c]|] eqn:Hres; [|exact (False_ind _ Hm)].
  destruct Hm as [-> Hsame]. apply bool_decide_eq_true in Hsame.
  destruct (plain_move_can_be_undone s ["RIGHT"%string] "RIGHT" s'
              (initial_state_well_placed corridor_level) Hacts
              (list_elem_of_here _ _) Hres Hsame) as (acts' & back & H1 & H2 & H3).
  exists s', acts', back. by split_and!.
Defined.

Lemma sum_and_count_ignore_iteration_order_witness :
  heuristics.manhattan_heuristic elements detour_state (goals detour_state)
  = heuristics.manhattan_heuristic (λ X, reverse (elements X)) detour_state
      (goals detour_state).
Proof.
  exact (proj1 (sum_and_count_ignore_iteration_order elements (λ X, reverse (elements X))
                  detour_state (goals detour_state)
                  (proj1 elements_valid) (proj2 elements_valid)
                  (proj1 reverse_elements_valid) (proj2 reverse_elements_valid))).
Defined.

Lemma count_below_sum_below_matching_witness :
  ext_le (heuristics.simple_count_heuristic elements detour_state (goals detour_state))
         (heuristics.manhattan_heuristic elements detour_state (goals detour_state)).
Proof.
  exact (proj1 (count_below_sum_below_matching elements detour_state (goals detour_state)
                  (proj1 elements_valid) (proj2 elements_valid))).
Defined.

Lemma sum_and_count_are_consistent_witness :
  let s := get_initial_state (SokobanProblem_init corridor_level) in
  ∃ s', result s "RIGHT" = Some (s', 1)
        ∧ ext_le (heuristics.manhattan_heuristic elements s ∅)
                 (ext_add (Fin 1) (heuristics.manhattan_heuristic elements s' ∅)).
Proof.
  intros s.
  assert (actions s = Some ["RIGHT"%string]) as Hacts by (by vm_compute).
  assert (match result s "RIGHT" with
          | Some (s', c) => c = 1
          | None => False
          end) as Hm by (by vm_compute).
  destruct (result s "RIGHT") as [[s' c]|] eqn:Hres; [|exact (False_ind _ Hm)].
  subst c. exists s'. split; [reflexivity|].
  exact (proj1 (proj2 (sum_and_count_are_consistent elements s ["RIGHT"%string] "RIGHT"
                         s' 1 ∅ (proj1 elements_valid) (proj2 elements_valid)
                         Hacts (list_elem_of_here _ _) Hres))).
Defined.

Lemma sum_and_count_are_admissible_witness :
  ext_le (heuristics.manhattan_heuristic elements detour_state (goals detour_state))
         (Fin 6).
Proof.
  assert (match follow (as_problem detour_problem) detour_state
                  ["DOWN"; "RIGHT"; "DOWN"; "RIGHT"; "RIGHT"; "RIGHT"]%string with
          | Some t => is_goal t = true
          | None => False
          end) as Hm by (by vm_compute).
  destruct (follow _ _ _) as [t|] eqn:Hfollow; [|exact (False_ind _ Hm)].
  apply follow_walk in Hfollow.
  exact (proj1 (sum_and_count_are_admissible elements detour_problem detour_state _ t
                  (proj1 elements_valid) (proj2 elements_valid) Hfollow Hm)).
Defined.


Lemma playerless_level_raises_in_solve_witness :
  solve_sokoban (AStarSolver_init (manhattan_for (SokobanProblem_init level_without_player)))
    (SokobanProblem_init level_without_player) 30 still_clock 1 = Raises.
Proof.
  apply playerless_level_raises_in_solve.
  - by vm_compute.
  - apply (proj1 (bool_decide_eq_false _)). by vm_compute.
  - reflexivity.
  - lia.
Defined.

Lemma sokoban_failure_means_unsolvable_witness :
  let pb := SokobanProblem_init corridor_level in
  ∃ m, solve_sokoban (AStarSolver_init (count_for pb)) pb 30 still_clock 10
       = Returned None None m
       ∧ boxes (get_initial_state pb) ≠ goals (get_initial_state pb).
Proof.
  intros pb.
  assert (match solve_sokoban (AStarSolver_init (count_for pb)) pb 30 still_clock 10 with
          | Returned None None m => timeout m = false
          | _ => False
          end) as Hm by (by vm_compute).
  destruct (solve_sokoban (AStarSolver_init (count_for pb)) pb 30 still_clock 10)
    as [[path|] [acts|] m| |] eqn:Hsolve;
    [exact (False_ind _ Hm)..| |exact (False_ind _ Hm)|exact (False_ind _ Hm)].
  exists m. split; [reflexivity|].
  exact (sokoban_failure_means_unsolvable (AStarSolver_init (count_for pb)) pb 30
           still_clock 10 m _ eq_refl eq_refl Hsolve Hm (can_reach_init (as_problem pb))).
Defined.

Lemma returned_path_states_are_legal_witness :
  let pb := SokobanProblem_init LEVEL_1 in
  ∃ path acts m,
    solve_sokoban (AStarSolver_init (manhattan_for pb)) pb 30 still_clock 10
    = Returned (Some path) (Some acts) m
    ∧ length path = S (length acts).
Proof.
  intros pb.
  assert (match solve_sokoban (AStarSolver_init (manhattan_for pb)) pb 30 still_clock 10 with
          | Returned (Some _) (Some _) _ => True
          | _ => False
          end) as Hm by (by vm_compute).
  destruct (solve_sokoban (AStarSolver_init (manhattan_for pb)) pb 30 still_clock 10)
    as [[path|] [acts|] m| |] eqn:Hsolve; [|exact (False_ind _ Hm)..].
  exists path, acts, m. split; [reflexivity|].
  exact (proj1 (proj2 (returned_path_states_are_legal _ LEVEL_1 30 still_clock 10
                         path acts m Hsolve))).
Defined.




Lemma expanded_node_has_least_f_witness :
  let st := init_search id simple_heuristic TestProblem AStarMetrics_default in
  ∃ f node fr,
    heapq.heappop entry_lt (frontier st) = Some ((f, node), fr)
    ∧ f = _f simple_heuristic node.
Proof.
  intros st.
  assert (match heapq.heappop entry_lt (frontier st) with
          | Some _ => True
          | None => False
          end) as Hm by (by vm_compute).
  destruct (heapq.heappop entry_lt (frontier st)) as [[[f node] fr]|] eqn:Hpop;
    [|exact (False_ind _ Hm)].
  exists f, node, fr. split; [reflexivity|].
  exact (proj1 (expanded_node_has_least_f id truthy simple_heuristic TestProblem
                  still_clock 30 AStarMetrics_default st f node fr
                  (reach_init id truthy simple_heuristic TestProblem still_clock 30
                     AStarMetrics_default) Hpop)).
Defined.


Lemma sokoban_solution_is_shortest_witness :
  let pb := SokobanProblem_init LEVEL_1 in
  ∃ path acts m,
    solve_sokoban (AStarSolver_init (manhattan_for pb)) pb 30 still_clock 10
    = Returned (Some path) (Some acts) m
    ∧ (length acts ≤ 1)%nat.
Proof.
  intros pb.
  assert (match solve_sokoban (AStarSolver_init (manhattan_for pb)) pb 30 still_clock 10 with
          | Returned (Some _) (Some _) _ => True
          | _ => False
          end) as Hm by (by vm_compute).
  destruct (solve_sokoban (AStarSolver_init (manhattan_for pb)) pb 30 still_clock 10)
    as [[path|] [acts|] m| |] eqn:Hsolve; [|exact (False_ind _ Hm)..].
  assert (match follow (as_problem pb) (get_initial_state pb) ["RIGHT"%string] with
          | Some t => is_goal t = true
          | None => False
          end) as Hf by (by vm_compute).
  destruct (follow (as_problem pb) (get_initial_state pb) ["RIGHT"%string])
    as [t|] eqn:Hfollow; [|exact (False_ind _ Hf)].
  apply follow_walk in Hfollow. cbn [length] in Hfollow.
  exists path, acts, m. split; [reflexivity|].
  exact (proj1 (sokoban_solution_is_shortest elements (AStarSolver_init (manhattan_for pb))
                  pb 30 still_clock 10 path acts m 1%nat t
                  (proj1 elements_valid) (proj2 elements_valid)
                  (or_introl (λ s, eq_refl)) Hsolve Hfollow Hf)).
Defined.

End Examples.
